(** * ImageResizerTool: the resolution solver, the DPI resolver, the
      diagnostic sink and the per-file pipeline, embedded from the Go sources.

    Conventions of the embedding.

    - Go's [int] and [int64] are the 64-bit two's-complement integers of the
      amd64 target the repository's workflow builds
      ([GOOS=windows GOARCH=amd64]).  They are values of [Z]; every [+], [-]
      and [*] of the source is followed by an explicit [Int64.wrap].
    - Go's [float64] is IEEE 754 binary64.  It is [spec_float] with
      [prec = 53] and [emax = 1024]; [/], [*] and [math.Sqrt] are the
      correctly rounded operations [SFdiv], [SFmul] and [SFsqrt].
    - A conversion [int(f)] of a float that [int] cannot represent (NaN,
      infinities, out of range) is implementation-dependent in Go: no panic,
      some value.  That value is the parameter [undef_int].
    - The solver's [for] loop has no bound in the source.  The embedding
      runs it on fuel; [None] means the fuel ran out. *)

From Stdlib Require Import ZArith List String Ascii Bool Lia Sorted.
From Stdlib Require Import Floats.SpecFloat.
Import ListNotations.
Local Open Scope Z_scope.

(** ** Machine integers *)

Module Int64.

Definition min_int : Z := - 2 ^ 63.
Definition max_int : Z := 2 ^ 63 - 1.

(** Two's-complement reduction into [min_int .. max_int]. *)
Definition wrap (z : Z) : Z := (z + 2 ^ 63) mod 2 ^ 64 - 2 ^ 63.

Definition add (a b : Z) : Z := wrap (a + b).
Definition sub (a b : Z) : Z := wrap (a - b).
Definition mul (a b : Z) : Z := wrap (a * b).

(** Go's [/] truncates toward zero and [%] takes the sign of the
    dividend; both panic on a zero divisor, which the callers below
    test before using [quo] and [rem]. *)
Definition quo (a b : Z) : Z := wrap (Z.quot a b).
Definition rem (a b : Z) : Z := Z.rem a b.

Definition in_range (z : Z) : bool := (min_int <=? z) && (z <=? max_int).

End Int64.

(** ** binary64 *)

Module Float64.

Definition prec : Z := 53.
Definition emax : Z := 1024.

Definition float64 : Type := spec_float.

Definition div : float64 -> float64 -> float64 := SFdiv prec emax.
Definition mul : float64 -> float64 -> float64 := SFmul prec emax.
Definition Sqrt : float64 -> float64 := SFsqrt prec emax.

(** [float64(n)] for an integer [n]: round to nearest, ties to even. *)
Definition of_int (n : Z) : float64 := binary_normalize prec emax n 0 false.

(** [math.Floor]: the greatest integral value not above [x]; zeros, NaN
    and the infinities are returned as they are. *)
Definition Floor (x : float64) : float64 :=
  match x with
  | S754_finite s m e =>
      if 0 <=? e then x
      else binary_normalize prec emax
             (Z.shiftr (cond_Zopp s (Zpos m)) (- e)) 0 s
  | _ => x
  end.

(** The integer part of a finite float, toward zero. *)
Definition truncate (x : float64) : option Z :=
  match x with
  | S754_zero _ => Some 0
  | S754_finite s m e =>
      Some (cond_Zopp s
              (if 0 <=? e then Z.shiftl (Zpos m) e
               else Z.shiftr (Zpos m) (- e)))
  | _ => None
  end.

Section Conversion.
(** What [int(f)] yields when [f] has no [int] value. *)
Variable undef_int : float64 -> Z.

(** [int(f)] *)
Definition to_int (f : float64) : Z :=
  match truncate f with
  | Some z => if Int64.in_range z then z else undef_int f
  | None => undef_int f
  end.
End Conversion.

End Float64.

Import Float64.

(** ** Outcomes of Go code that may panic *)

Inductive panic : Type :=
| DivideByZero                    (* runtime error: integer divide by zero *)
| PanicMsg (msg : string).        (* panic(msg) *)

Inductive outcome (A : Type) : Type :=
| Done (a : A)
| Panicked (p : panic).
Arguments Done {A} a.
Arguments Panicked {A} p.

(** ** Pixel Format Model *)

(** [type PixelFormat int] with its three [iota] constants. *)
Definition PixelFormat : Type := Z.
Definition Format8bppIndexed : PixelFormat := 0.
Definition Format24bppRgb : PixelFormat := 1.
Definition Format32bppArgb : PixelFormat := 2.

Definition getBytesPerPixel (pixelFormat : PixelFormat) : outcome Z :=
  if pixelFormat =? Format8bppIndexed then Done 1
  else if (pixelFormat =? Format24bppRgb) || (pixelFormat =? Format32bppArgb)
       then Done 4
  else Panicked (PanicMsg "Unsupported PixelFormat").

(** ** Resolution Solver *)

Section Solver.
Variable undef_int : float64 -> Z.

(** The four assignments that open the loop body. *)
Record candidate : Type := {
  c_height : Z;
  c_width : Z;
  c_stride : Z;
  c_total : Z
}.

(** [stride := (width*bytesPerPixel + alignment - 1) / alignment * alignment] *)
Definition strideOf (width bytesPerPixel alignment : Z) : outcome Z :=
  if alignment =? 0 then Panicked DivideByZero
  else
    Done (Int64.mul
            (Int64.quo
               (Int64.sub
                  (Int64.add (Int64.mul width bytesPerPixel) alignment) 1)
               alignment)
            alignment).

Definition candidateOf (aspectRatio : float64) (bytesPerPixel alignment : Z)
    (estimatedHeight : float64) : outcome candidate :=
  let height := to_int undef_int (Floor estimatedHeight) in
  let width :=
    to_int undef_int (Floor (mul aspectRatio (of_int height))) in
  match strideOf width bytesPerPixel alignment with
  | Panicked p => Panicked p
  | Done stride =>
      Done {| c_height := height; c_width := width; c_stride := stride;
              c_total := Int64.mul stride height |}
  end.

(** [math.Sqrt(float64(memoryLimit) / (float64(stride) * float64(bytesPerPixel)))] *)
Definition nextEstimate (memoryLimit stride bytesPerPixel : Z) : float64 :=
  Sqrt (div (of_int memoryLimit) (mul (of_int stride) (of_int bytesPerPixel))).

(** The body of the accepting [if] of the DPI-aware solver. *)
Definition snapToDPI (aspectRatio : float64) (width dpi : Z)
    : outcome (Z * Z) :=
  if dpi =? 0 then Panicked DivideByZero
  else
    let newWidth := Int64.sub width (Int64.rem width dpi) in
    let newHeight := to_int undef_int (div (of_int newWidth) aspectRatio) in
    Done (newWidth, newHeight).

(** One turn of the [for] loop: a result, or the next estimate. *)
Inductive turn : Type :=
| Return (r : outcome (Z * Z))
| Again (estimatedHeight : float64).

Definition loopBody (aspectRatio : float64)
    (bytesPerPixel alignment memoryLimit dpi : Z)
    (estimatedHeight : float64) : turn :=
  match candidateOf aspectRatio bytesPerPixel alignment estimatedHeight with
  | Panicked p => Return (Panicked p)
  | Done c =>
      if c_total c <=? memoryLimit
      then Return (snapToDPI aspectRatio (c_width c) dpi)
      else Again (nextEstimate memoryLimit (c_stride c) bytesPerPixel)
  end.

Fixpoint solverLoop (fuel : nat) (aspectRatio : float64)
    (bytesPerPixel alignment memoryLimit dpi : Z)
    (estimatedHeight : float64) : option (outcome (Z * Z)) :=
  match fuel with
  | O => None
  | S fuel' =>
      match loopBody aspectRatio bytesPerPixel alignment memoryLimit dpi
              estimatedHeight with
      | Return r => Some r
      | Again e =>
          solverLoop fuel' aspectRatio bytesPerPixel alignment memoryLimit
            dpi e
      end
  end.

(** The estimate the loop starts from. *)
Definition firstEstimate (aspectRatio : float64)
    (bytesPerPixel memoryLimit : Z) : float64 :=
  Sqrt (div (of_int memoryLimit) (mul (of_int bytesPerPixel) aspectRatio)).

Definition calculateMaxResolution (fuel : nat)
    (originalWidth originalHeight : Z) (pixelFormat : PixelFormat)
    (alignment memoryLimit dpi : Z) : option (outcome (Z * Z)) :=
  match getBytesPerPixel pixelFormat with
  | Panicked p => Some (Panicked p)
  | Done bytesPerPixel =>
      let aspectRatio := div (of_int originalWidth) (of_int originalHeight) in
      solverLoop fuel aspectRatio bytesPerPixel alignment memoryLimit dpi
        (firstEstimate aspectRatio bytesPerPixel memoryLimit)
  end.

(** The candidates the loop goes through, one per turn, for at most
    [fuel] turns. *)
Fixpoint turnsFrom (fuel : nat) (aspectRatio : float64)
    (bytesPerPixel alignment memoryLimit : Z)
    (estimatedHeight : float64) : list candidate :=
  match fuel with
  | O => []
  | S fuel' =>
      match candidateOf aspectRatio bytesPerPixel alignment estimatedHeight with
      | Panicked _ => []
      | Done c =>
          c ::
          (if c_total c <=? memoryLimit then []
           else turnsFrom fuel' aspectRatio bytesPerPixel alignment
                  memoryLimit
                  (nextEstimate memoryLimit (c_stride c) bytesPerPixel))
      end
  end.

End Solver.


(** The solver of [main.go], before the [dpi] parameter was added: the
    accepted candidate is returned as it is. *)
Module Plain.
Section Solver.
Variable undef_int : float64 -> Z.

Fixpoint solverLoop (fuel : nat) (aspectRatio : float64)
    (bytesPerPixel alignment memoryLimit : Z)
    (estimatedHeight : float64) : option (outcome (Z * Z)) :=
  match fuel with
  | O => None
  | S fuel' =>
      match candidateOf undef_int aspectRatio bytesPerPixel alignment
              estimatedHeight with
      | Panicked p => Some (Panicked p)
      | Done c =>
          if c_total c <=? memoryLimit
          then Some (Done (c_width c, c_height c))
          else solverLoop fuel' aspectRatio bytesPerPixel alignment
                 memoryLimit
                 (nextEstimate memoryLimit (c_stride c) bytesPerPixel)
      end
  end.

Definition calculateMaxResolution (fuel : nat)
    (originalWidth originalHeight : Z) (pixelFormat : PixelFormat)
    (alignment memoryLimit : Z) : option (outcome (Z * Z)) :=
  match getBytesPerPixel pixelFormat with
  | Panicked p => Some (Panicked p)
  | Done bytesPerPixel =>
      let aspectRatio :=
        div (of_int originalWidth) (of_int originalHeight) in
      solverLoop fuel aspectRatio bytesPerPixel alignment memoryLimit
        (firstEstimate aspectRatio bytesPerPixel memoryLimit)
  end.
End Solver.
End Plain.

(** ** The world the pipeline acts on *)

(** A Go [error], by its message; [%w] and [%v] splice the message in. *)
Definition error : Type := string.

Inductive InterpolationFunction : Type :=
| NearestNeighbor | Bilinear | Lanczos3.

Inductive Image : Type :=
| Decoded (source : string) (dx dy : Z)
| Resized (width height : Z) (img : Image)
    (algorithm : InterpolationFunction).

(** File-system calls, in the order they are made.  [os.Stat] and the
    deferred [Close] calls are not recorded. *)
Inductive FsEvent : Type :=
| EvOpen (path : string)                       (* os.Open *)
| EvMkdirAll (dir : string)                    (* os.MkdirAll *)
| EvCreate (path : string)                     (* os.Create *)
| EvEncode (path format : string) (img : Image) (quality : Z)
                                 (* png.Encode, jpeg.Encode into the file *)
| EvWrite (path : string) (img : Image) (quality : Z).
                                 (* outFile.Write of an encoded buffer *)

Record World : Type := {
  messageQueue : list string;   (* var messageQueue []string *)
  stdout : list string;         (* what was written to standard output *)
  fsLog : list FsEvent;
  barDone : nat                 (* calls of bar.Increment() *)
}.

Definition initialWorld : World :=
  {| messageQueue := []; stdout := []; fsLog := []; barDone := 0 |}.

(** A tag of the EXIF block: [Rat2(0)] yields numerator and denominator. *)
Record Tag : Type := { Rat2 : error + Z * Z }.
Record Exif : Type := {
  XResolution : error + Tag;    (* e.Get(exif.XResolution) *)
  YResolution : error + Tag     (* e.Get(exif.YResolution) *)
}.

(** What [filepath.WalkDir] finds under a root, children in the order it
    visits them; entries it cannot read are left out. *)
#[local] Unset Elimination Schemes.
Inductive DirTree : Type :=
| Entry (path name : string) (isDir : bool) (children : list DirTree).
#[local] Set Elimination Schemes.

(** The parsed command line, as [cli.Context] hands it to [Action]. *)
Record Context : Type := {
  flag_memory : Z;
  flag_output : string;
  flag_algorithm : string;
  flag_quality : Z;
  flag_dry_run : bool;
  flag_recursive : bool;
  flag_dpi : Z;
  Args : list string
}.

(** The collaborators outside the repository: the operating system, the
    decoders and encoders, the EXIF reader, [urfave/cli], [mousetrap],
    and the [strings] and [filepath] functions. *)
Record Env : Type := {
  os_Open : string -> option error;
  os_StatInitial : string -> error + bool;     (* [inr isDir] *)
  os_MkdirAll : string -> option error;
  os_Create : string -> option error;
  exif_Decode : string -> error + Exif;
  image_Decode : string -> error + Z * Z * string;  (* Dx, Dy, format *)
  png_Encode : Image -> option error;
  jpeg_Encode : Image -> Z -> option error;
  file_Write : string -> option error;
  filepath_WalkDir : string -> DirTree;
  filepath_Ext : string -> string;
  filepath_Base : string -> string;
  filepath_Join : string -> string -> string;
  strings_ToLower : string -> string;
  StartedByExplorer : bool;
  fmt_Scanln : option error;
  cli_Parse : list string -> error + Context
}.

(** ** Commands: state passing, panics, fuel *)

Definition M (A : Type) : Type := World -> option (outcome A * World).

Definition ret {A} (a : A) : M A := fun w => Some (Done a, w).

Definition bind {A B} (c : M A) (k : A -> M B) : M B :=
  fun w =>
    match c w with
    | None => None
    | Some (Panicked p, w') => Some (Panicked p, w')
    | Some (Done a, w') => k a w'
    end.

Definition raise {A} (p : panic) : M A := fun w => Some (Panicked p, w).

Definition lift {A} (r : outcome A) : M A := fun w => Some (r, w).

(** A call that may run out of fuel. *)
Definition liftFuel {A} (r : option (outcome A)) : M A :=
  fun w => match r with None => None | Some o => Some (o, w) end.

(** [defer f()]: [f] runs when the body returns and when it panics. *)
Definition deferred {A} (body : M A) (f : World -> World) : M A :=
  fun w =>
    match body w with
    | None => None
    | Some (r, w') => Some (r, f w')
    end.

Declare Scope cmd_scope.
Delimit Scope cmd_scope with cmd.
Notation "x <- c ;; k" := (bind c (fun x => k))
  (at level 61, c at next level, right associativity) : cmd_scope.
Notation "c ;;; k" := (bind c (fun _ => k))
  (at level 61, right associativity) : cmd_scope.
Local Open Scope cmd_scope.
Local Open Scope string_scope.

Definition logFs (e : FsEvent) : M unit :=
  fun w => Some (Done tt,
                 {| messageQueue := messageQueue w; stdout := stdout w;
                    fsLog := fsLog w ++ [e]; barDone := barDone w |}).

Definition write (text : string) : M unit :=
  fun w => Some (Done tt,
                 {| messageQueue := messageQueue w;
                    stdout := stdout w ++ [text];
                    fsLog := fsLog w; barDone := barDone w |}).

Definition newline : string := String (ascii_of_nat 10) EmptyString.

(** [fmt.Println(s)] *)
Definition Println (s : string) : M unit := write (s ++ newline).

Definition barIncrement (w : World) : World :=
  {| messageQueue := messageQueue w; stdout := stdout w;
     fsLog := fsLog w; barDone := S (barDone w) |}.

(** ** Diagnostic Sink *)

(** The mutex makes each of the two functions one indivisible step on the
    queue; that step is what is written here. *)
Definition safePrint (message : string) : M unit :=
  fun w => Some (Done tt,
                 {| messageQueue := messageQueue w ++ [message];
                    stdout := stdout w;
                    fsLog := fsLog w; barDone := barDone w |}).

Fixpoint printAll (queue : list string) : M unit :=
  match queue with
  | [] => ret tt
  | message :: rest => Println message ;;; printAll rest
  end.

Definition clearQueue : M unit :=
  fun w => Some (Done tt,
                 {| messageQueue := []; stdout := stdout w;
                    fsLog := fsLog w; barDone := barDone w |}).

Definition flushMessages : M unit :=
  fun w => (printAll (messageQueue w) ;;; clearQueue) w.

(** ** Formatting *)

From Stdlib Require Import DecimalString.

(** The verb [%d]. *)
Definition fmt_d (n : Z) : string := NilZero.string_of_int (Z.to_int n).

(** [strings.TrimSuffix] *)
Definition TrimSuffix (s suffix : string) : string :=
  let n := (String.length s - String.length suffix)%nat in
  if (String.length suffix <=? String.length s)%nat
     && String.eqb (substring n (String.length suffix) s) suffix
  then substring 0 n s
  else s.

(** ** Pipeline *)

Section Pipeline.
Variable undef_int : float64 -> Z.
Variable env : Env.

Definition getPixelFormat (fileExt : string) : outcome PixelFormat :=
  let e := strings_ToLower env fileExt in
  if String.eqb e ".png" then Done Format32bppArgb
  else if String.eqb e ".jpg" || String.eqb e ".jpeg" then Done Format24bppRgb
  else Panicked (PanicMsg "Unsupported file format").

Definition isValidImageExtension (ext : string) : bool :=
  String.eqb ext ".jpg" || String.eqb ext ".jpeg" || String.eqb ext ".png".

Definition getResizeAlgorithm (name : string) : InterpolationFunction :=
  let n := strings_ToLower env name in
  if String.eqb n "bilinear" then Bilinear
  else if String.eqb n "nearest" then NearestNeighbor
  else Lanczos3.

(** *** DPI extraction *)

Definition extractDPI (filePath : string) : M (Z * option error) :=
  logFs (EvOpen filePath) ;;;
  match os_Open env filePath with
  | Some err => ret (0, Some ("failed to open file: " ++ err))
  | None =>
  match exif_Decode env filePath with
  | inl err => ret (0, Some ("no EXIF data or corrupted EXIF data: " ++ err))
  | inr e =>
  match XResolution e with
  | inl err => ret (0, Some ("failed to get XResolution: " ++ err))
  | inr xResolution =>
  match YResolution e with
  | inl err => ret (0, Some ("failed to get YResolution: " ++ err))
  | inr yResolution =>
  match Rat2 xResolution with
  | inl err => ret (0, Some ("error reading XResolution: " ++ err))
  | inr (xNum, xDen) =>
  match Rat2 yResolution with
  | inl err => ret (0, Some ("error reading YResolution: " ++ err))
  | inr (yNum, yDen) =>
      let x := div (of_int xNum) (of_int xDen) in
      let y := div (of_int yNum) (of_int yDen) in
      if SFeqb x y then ret (to_int undef_int x, None)
      else ret (to_int undef_int x, None)
  end end end end end end.

(** The [var dpi int] block of [processFile]. *)
Definition resolveDPI (filePath : string) (overrideDPI : Z) : M Z :=
  if Z.eqb overrideDPI 0 then
    r <- extractDPI filePath ;;
    match r with
    | (extractedDPI, None) =>
        safePrint ("Extracted DPI for " ++ filePath ++ ": "
                   ++ fmt_d extractedDPI) ;;;
        ret extractedDPI
    | (_, Some err) =>
        safePrint ("Failed to extract DPI for " ++ filePath ++ ": " ++ err) ;;;
        ret 72
    end
  else ret overrideDPI.

(** *** Saving and resizing *)

Definition saveImage (img : Image) (outputPath format : string)
    (quality : Z) : M (option error) :=
  logFs (EvCreate outputPath) ;;;
  match os_Create env outputPath with
  | Some err => ret (Some ("failed to create output file: " ++ err))
  | None =>
      if String.eqb format "png" then
        logFs (EvEncode outputPath format img quality) ;;;
        match png_Encode env img with
        | Some err => ret (Some ("failed to encode PNG: " ++ err))
        | None => ret None
        end
      else if String.eqb format "jpeg" then
        logFs (EvEncode outputPath format img quality) ;;;
        match jpeg_Encode env img quality with
        | Some err => ret (Some ("failed to encode JPEG: " ++ err))
        | None => ret None
        end
      else ret (Some ("unsupported output format: " ++ format))
  end.

(** [uint(n)] *)
Definition uint (n : Z) : Z := n mod 2 ^ 64.

Definition resizeImage (fuel : nat) (filePath outputPath : string)
    (dryRun : bool) (memoryLimit : Z) (algorithm : InterpolationFunction)
    (quality dpi : Z) : M (option error) :=
  logFs (EvOpen filePath) ;;;
  match os_Open env filePath with
  | Some err => ret (Some ("failed to open file: " ++ err))
  | None =>
  match image_Decode env filePath with
  | inl err => ret (Some ("failed to decode image: " ++ err))
  | inr (originalWidth, originalHeight, format) =>
      let img := Decoded filePath originalWidth originalHeight in
      pixelFormat <- lift (getPixelFormat (filepath_Ext env filePath)) ;;
      r <- liftFuel (calculateMaxResolution undef_int fuel originalWidth
                       originalHeight pixelFormat 4 memoryLimit dpi) ;;
      let '(newWidth, newHeight) := r in
      if Z.ltb newWidth originalWidth || Z.ltb newHeight originalHeight then
        let resized :=
          Resized (uint newWidth) (uint newHeight) img algorithm in
        let newDPI :=
          to_int undef_int
            (div (of_int newWidth)
               (div (of_int originalWidth) (of_int dpi))) in
        safePrint ("Resized " ++ filePath ++ " to " ++ fmt_d newWidth ++ "x"
                   ++ fmt_d newHeight ++ " with a DPI of " ++ fmt_d newDPI) ;;;
        saveImage resized outputPath format quality
      else ret None
  end end.

(** *** One file *)

Definition outputPathOf (filePath outputDir : string) : string :=
  let outputFileName :=
    TrimSuffix (filepath_Base env filePath) (filepath_Ext env filePath)
    ++ "-resized" ++ filepath_Ext env filePath in
  filepath_Join env outputDir outputFileName.

(** [os.Stat] succeeds on what the run has created so far and on what
    was there before. *)
Definition created (path : string) (e : FsEvent) : bool :=
  match e with
  | EvCreate p =>
      String.eqb p path
      && match os_Create env p with None => true | Some _ => false end
  | _ => false
  end.

Definition os_Stat (path : string) : M (error + bool) :=
  fun w =>
    Some (Done (if existsb (created path) (fsLog w) then inr false
                else os_StatInitial env path), w).

Definition processFile (fuel : nat) (filePath : string) (memoryLimit : Z)
    (outputDir : string) (algorithm : InterpolationFunction) (quality : Z)
    (dryRun : bool) (overrideDPI : Z) : M unit :=
  deferred
    (logFs (EvMkdirAll outputDir) ;;;
     match os_MkdirAll env outputDir with
     | Some err => safePrint ("Error creating output directory: " ++ err)
     | None =>
         let outputPath := outputPathOf filePath outputDir in
         st <- os_Stat outputPath ;;
         match st with
         | inr _ => safePrint ("Skipping existing file: " ++ outputPath)
         | inl _ =>
             dpi <- resolveDPI filePath overrideDPI ;;
             safePrint ("Processing " ++ filePath) ;;;
             err <- resizeImage fuel filePath outputPath dryRun memoryLimit
                      algorithm quality dpi ;;
             match err with
             | Some e => safePrint ("Error resizing image: " ++ e)
             | None => ret tt
             end
         end
     end)
    barIncrement.

(** *** One root path *)

Fixpoint collectEntry (dir : string) (recursive : bool) (t : DirTree)
    : list string :=
  match t with
  | Entry path name isDir children =>
      ((if negb isDir
           && isValidImageExtension
                (strings_ToLower env (filepath_Ext env name))
        then [path] else [])
       ++ (if negb recursive && isDir && negb (String.eqb path dir)
           then []                                 (* filepath.SkipDir *)
           else flat_map (collectEntry dir recursive) children))%list
  end.

Definition collectFiles (dir : string) (recursive : bool) : list string :=
  collectEntry dir recursive (filepath_WalkDir env dir).

(** The goroutines of [processPath] are run one after the other, in the
    order they are started; [wg.Wait()] is then the end of the fold. *)
Fixpoint processEach (fuel : nat) (files : list string) (memoryLimit : Z)
    (outputDir : string) (algorithm : InterpolationFunction) (quality : Z)
    (dryRun : bool) (dpi : Z) : M unit :=
  match files with
  | [] => ret tt
  | file :: rest =>
      (if isValidImageExtension
            (strings_ToLower env (filepath_Ext env file))
       then processFile fuel file memoryLimit outputDir algorithm quality
              dryRun dpi
       else ret tt) ;;;
      processEach fuel rest memoryLimit outputDir algorithm quality dryRun
        dpi
  end.

Definition processPath (fuel : nat) (path : string) (memoryLimit : Z)
    (outputDir : string) (algorithm : InterpolationFunction) (quality : Z)
    (dryRun recursive : bool) (dpi : Z) : M unit :=
  info <- os_Stat path ;;
  match info with
  | inl err => safePrint ("Error accessing path: " ++ err)
  | inr isDir =>
      let files := if isDir then collectFiles path recursive else [path] in
      safePrint ("Processing " ++ fmt_d (Z.of_nat (List.length files))
                 ++ " files") ;;;
      processEach fuel files memoryLimit outputDir algorithm quality dryRun
        dpi ;;;
      flushMessages
  end.

(** *** The command *)

Fixpoint processPaths (fuel : nat) (paths : list string) (memoryLimit : Z)
    (outputDir : string) (algorithm : InterpolationFunction) (quality : Z)
    (dryRun recursive : bool) (dpi : Z) : M unit :=
  match paths with
  | [] => ret tt
  | path :: rest =>
      processPath fuel path memoryLimit outputDir algorithm quality dryRun
        recursive dpi ;;;
      processPaths fuel rest memoryLimit outputDir algorithm quality dryRun
        recursive dpi
  end.

Definition Action (fuel : nat) (c : Context) : M (option error) :=
  let memoryLimit := flag_memory c in
  let outputDir := flag_output c in
  let algorithm := getResizeAlgorithm (flag_algorithm c) in
  let quality := flag_quality c in
  let dryRun := flag_dry_run c in
  let recursive := flag_recursive c in
  let dpi := flag_dpi c in
  if Nat.eqb (List.length (Args c)) 0
  then ret (Some "no input files or directories provided")
  else
    processPaths fuel (Args c) memoryLimit outputDir algorithm quality
      dryRun recursive dpi ;;;
    ret None.

(** [app.Run(os.Args)]: the flags are parsed, then [Action] runs; an
    error of either is handed back. *)
Definition appRun (fuel : nat) (args : list string) : M (option error) :=
  match cli_Parse env args with
  | inl err => ret (Some err)
  | inr c => Action fuel c
  end.

(** [main], on [os.Args[1:]]; the value is the exit status: [os.Exit(1)]
    gives 1, falling off the end of [main] gives 0. *)
Definition main (fuel : nat) (args : list string) : M Z :=
  if Nat.eqb (List.length args) 0 && StartedByExplorer env then
    safePrint "This application cannot be run by double-clicking it. Please run it from a console or drag your images onto the executable." ;;;
    safePrint "Press Enter to exit..." ;;;
    match fmt_Scanln env with
    | Some _ => ret 0
    | None => ret 1
    end
  else
    r <- appRun fuel args ;;
    match r with
    | Some err => safePrint ("Error: " ++ err) ;;; ret 0
    | None => ret 0
    end.

End Pipeline.

(** [bar.Increment()] as a statement of its own. *)
Definition Increment : M unit := fun w => Some (Done tt, barIncrement w).

(** [fmt.Println(a, b)]: the operands are separated by a space. *)
Definition Println2 (a b : string) : M unit :=
  write (a ++ " " ++ b ++ newline).

(** The variant of the pipeline that writes to the console directly and
    tests [dryRun] before saving (the file without the message queue). *)
Module Direct.
Section Pipeline.
Variable undef_int : float64 -> Z.
Variable env : Env.

(** [saveImage]; its [dpi] argument is not used by the body. *)
Definition saveImage (img : Image) (outputPath format : string)
    (quality dpi : Z) : M (option error) :=
  logFs (EvCreate outputPath) ;;;
  match os_Create env outputPath with
  | Some err => ret (Some ("failed to create output file: " ++ err))
  | None =>
      if String.eqb format "png" then
        logFs (EvEncode outputPath format img quality) ;;;
        match png_Encode env img with
        | Some err => ret (Some ("failed to encode PNG: " ++ err))
        | None => ret None
        end
      else if String.eqb format "jpeg" then
        match jpeg_Encode env img quality with
        | Some err => ret (Some ("failed to encode JPEG: " ++ err))
        | None =>
            logFs (EvWrite outputPath img quality) ;;;
            match file_Write env outputPath with
            | Some err => ret (Some ("failed to write JPEG data: " ++ err))
            | None => ret None
            end
        end
      else ret (Some ("unsupported output format: " ++ format))
  end.

Definition resizeImage (fuel : nat) (filePath outputPath : string)
    (dryRun : bool) (memoryLimit : Z) (algorithm : InterpolationFunction)
    (quality dpi : Z) : M (option error) :=
  logFs (EvOpen filePath) ;;;
  match os_Open env filePath with
  | Some err => ret (Some ("failed to open file: " ++ err))
  | None =>
  match image_Decode env filePath with
  | inl err => ret (Some ("failed to decode image: " ++ err))
  | inr (originalWidth, originalHeight, format) =>
      let img := Decoded filePath originalWidth originalHeight in
      pixelFormat <- lift (getPixelFormat env (filepath_Ext env filePath)) ;;
      r <- liftFuel (calculateMaxResolution undef_int fuel originalWidth
                       originalHeight pixelFormat 4 memoryLimit dpi) ;;
      let '(newWidth, newHeight) := r in
      if Z.ltb newWidth originalWidth || Z.ltb newHeight originalHeight
      then
        let resized :=
          Resized (uint newWidth) (uint newHeight) img algorithm in
        let newDPI :=
          to_int undef_int
            (div (of_int newWidth)
               (div (of_int originalWidth) (of_int dpi))) in
        write ("Rescaled to " ++ fmt_d newWidth ++ "x" ++ fmt_d newHeight
               ++ " with DPI " ++ fmt_d newDPI ++ newline) ;;;
        if negb dryRun then
          err <- saveImage resized outputPath format quality newDPI ;;
          match err with
          | Some e => ret (Some e)
          | None => ret None
          end
        else ret None
      else ret None
  end end.

(** The [var dpi int] block of [processFile], with its [fmt.Printf]s. *)
Definition resolveDPI (filePath : string) (overrideDPI : Z) : M Z :=
  if Z.eqb overrideDPI 0 then
    r <- extractDPI undef_int env filePath ;;
    match r with
    | (extractedDPI, None) =>
        write (newline ++ "Extracted DPI for " ++ filePath ++ ": "
               ++ fmt_d extractedDPI ++ newline) ;;;
        ret extractedDPI
    | (_, Some err) =>
        write (newline ++ "Failed to extract DPI for " ++ filePath ++ ": "
               ++ err ++ ". Using default input DPI: 72" ++ newline) ;;;
        ret 72
    end
  else ret overrideDPI.

(** [processFile]: no [defer]; each way out calls [bar.Increment()]
    itself. *)
Definition processFile (fuel : nat) (filePath : string) (memoryLimit : Z)
    (outputDir : string) (algorithm : InterpolationFunction) (quality : Z)
    (dryRun : bool) (overrideDPI : Z) : M unit :=
  logFs (EvMkdirAll outputDir) ;;;
  match os_MkdirAll env outputDir with
  | Some err =>
      write (newline ++ "Error creating output directory: " ++ err
             ++ newline) ;;;
      Increment
  | None =>
      let outputPath := outputPathOf env filePath outputDir in
      st <- os_Stat env outputPath ;;
      match st with
      | inr _ =>
          write (newline ++ "Skipping existing file: " ++ outputPath
                 ++ newline) ;;;
          Increment
      | inl _ =>
          dpi <- resolveDPI filePath overrideDPI ;;
          write (newline ++ "Processing " ++ filePath ++ newline) ;;;
          err <- resizeImage fuel filePath outputPath dryRun memoryLimit
                   algorithm quality dpi ;;
          match err with
          | Some e =>
              write (newline ++ "Error resizing image: " ++ e ++ newline)
          | None => ret tt
          end ;;;
          Increment
      end
  end.

Fixpoint processEach (fuel : nat) (files : list string) (memoryLimit : Z)
    (outputDir : string) (algorithm : InterpolationFunction) (quality : Z)
    (dryRun : bool) (dpi : Z) : M unit :=
  match files with
  | [] => ret tt
  | file :: rest =>
      (if isValidImageExtension
            (strings_ToLower env (filepath_Ext env file))
       then processFile fuel file memoryLimit outputDir algorithm quality
              dryRun dpi
       else ret tt) ;;;
      processEach fuel rest memoryLimit outputDir algorithm quality dryRun
        dpi
  end.

Definition processPath (fuel : nat) (path : string) (memoryLimit : Z)
    (outputDir : string) (algorithm : InterpolationFunction) (quality : Z)
    (dryRun recursive : bool) (dpi : Z) : M unit :=
  info <- os_Stat env path ;;
  match info with
  | inl err => Println2 "Error accessing path:" err
  | inr isDir =>
      let files :=
        if isDir then collectFiles env path recursive else [path] in
      processEach fuel files memoryLimit outputDir algorithm quality dryRun
        dpi
  end.

Fixpoint processPaths (fuel : nat) (paths : list string) (memoryLimit : Z)
    (outputDir : string) (algorithm : InterpolationFunction) (quality : Z)
    (dryRun recursive : bool) (dpi : Z) : M unit :=
  match paths with
  | [] => ret tt
  | path :: rest =>
      processPath fuel path memoryLimit outputDir algorithm quality dryRun
        recursive dpi ;;;
      processPaths fuel rest memoryLimit outputDir algorithm quality dryRun
        recursive dpi
  end.

Definition Action (fuel : nat) (c : Context) : M (option error) :=
  let memoryLimit := flag_memory c in
  let outputDir := flag_output c in
  let algorithm := getResizeAlgorithm env (flag_algorithm c) in
  let quality := flag_quality c in
  let dryRun := flag_dry_run c in
  let recursive := flag_recursive c in
  let dpi := flag_dpi c in
  if Nat.eqb (List.length (Args c)) 0
  then ret (Some "no input files or directories provided")
  else
    processPaths fuel (Args c) memoryLimit outputDir algorithm quality
      dryRun recursive dpi ;;;
    ret None.

Definition appRun (fuel : nat) (args : list string) : M (option error) :=
  match cli_Parse env args with
  | inl err => ret (Some err)
  | inr c => Action fuel c
  end.

Definition main (fuel : nat) (args : list string) : M Z :=
  if Nat.eqb (List.length args) 0 && StartedByExplorer env then
    Println "This application cannot be run by double-clicking it. Please run it from a console or drag your images onto the executable." ;;;
    Println "Press Enter to exit..." ;;;
    match fmt_Scanln env with
    | Some _ => ret 0
    | None => ret 1
    end
  else
    r <- appRun fuel args ;;
    match r with
    | Some err => Println2 "Error:" err ;;; ret 0
    | None => ret 0
    end.
End Pipeline.
End Direct.

(** The variant before the DPI handling (the second program of
    [part_001]): the solver without the dpi parameter, a dry run decided
    in [processFile], messages written with [fmt.Println]. *)
Module Legacy.
Section Pipeline.
Variable undef_int : float64 -> Z.
Variable env : Env.

(** [saveImage]: the encoder's error is handed back as it is. *)
Definition saveImage (img : Image) (outputPath format : string)
    (quality : Z) : M (option error) :=
  logFs (EvCreate outputPath) ;;;
  match os_Create env outputPath with
  | Some err => ret (Some ("failed to create output file: " ++ err))
  | None =>
      if String.eqb format "png" then
        logFs (EvEncode outputPath format img quality) ;;;
        ret (png_Encode env img)
      else if String.eqb format "jpeg" then
        logFs (EvEncode outputPath format img quality) ;;;
        ret (jpeg_Encode env img quality)
      else ret (Some ("unsupported output format: " ++ format))
  end.

Definition resizeImage (fuel : nat) (filePath outputPath : string)
    (memoryLimit : Z) (algorithm : InterpolationFunction) (quality : Z)
    : M (option error) :=
  logFs (EvOpen filePath) ;;;
  match os_Open env filePath with
  | Some err => ret (Some ("failed to open file: " ++ err))
  | None =>
  match image_Decode env filePath with
  | inl err => ret (Some ("failed to decode image: " ++ err))
  | inr (originalWidth, originalHeight, format) =>
      let img := Decoded filePath originalWidth originalHeight in
      pixelFormat <- lift (getPixelFormat env (filepath_Ext env filePath)) ;;
      r <- liftFuel (Plain.calculateMaxResolution undef_int fuel
                       originalWidth originalHeight pixelFormat 4
                       memoryLimit) ;;
      let '(newWidth, newHeight) := r in
      if Z.ltb newWidth originalWidth || Z.ltb newHeight originalHeight
      then
        let resized :=
          Resized (uint newWidth) (uint newHeight) img algorithm in
        err <- saveImage resized outputPath format quality ;;
        match err with
        | Some e => ret (Some e)
        | None => ret None
        end
      else ret None
  end end.

(** [processFile]; its [defer wg.Done()] has no effect on the world. *)
Definition processFile (fuel : nat) (filePath : string) (memoryLimit : Z)
    (outputDir : string) (algorithm : InterpolationFunction) (quality : Z)
    (dryRun : bool) : M unit :=
  logFs (EvMkdirAll outputDir) ;;;
  match os_MkdirAll env outputDir with
  | Some err => Println2 "Error creating output directory:" err
  | None =>
      let outputPath := outputPathOf env filePath outputDir in
      st <- os_Stat env outputPath ;;
      match st with
      | inr _ =>
          Println2 "Skipping existing file:" outputPath ;;;
          Increment
      | inl _ =>
          if dryRun then
            Println2 "Dry run: Skipping save for" filePath ;;;
            Increment
          else
            Println2 "Processing file:" filePath ;;;
            err <- resizeImage fuel filePath outputPath memoryLimit
                     algorithm quality ;;
            match err with
            | Some e => Println2 "Error resizing image:" e
            | None => Println2 "Image resized and saved as:" outputPath
            end ;;;
            Increment
      end
  end.

Fixpoint processEach (fuel : nat) (files : list string) (memoryLimit : Z)
    (outputDir : string) (algorithm : InterpolationFunction) (quality : Z)
    (dryRun : bool) : M unit :=
  match files with
  | [] => ret tt
  | file :: rest =>
      (if isValidImageExtension
            (strings_ToLower env (filepath_Ext env file))
       then processFile fuel file memoryLimit outputDir algorithm quality
              dryRun
       else ret tt) ;;;
      processEach fuel rest memoryLimit outputDir algorithm quality dryRun
  end.

Definition processPath (fuel : nat) (path : string) (memoryLimit : Z)
    (outputDir : string) (algorithm : InterpolationFunction) (quality : Z)
    (dryRun recursive : bool) : M unit :=
  info <- os_Stat env path ;;
  match info with
  | inl err => Println2 "Error accessing path:" err
  | inr isDir =>
      let files :=
        if isDir then collectFiles env path recursive else [path] in
      processEach fuel files memoryLimit outputDir algorithm quality dryRun
  end.

Fixpoint processPaths (fuel : nat) (paths : list string) (memoryLimit : Z)
    (outputDir : string) (algorithm : InterpolationFunction) (quality : Z)
    (dryRun recursive : bool) : M unit :=
  match paths with
  | [] => ret tt
  | path :: rest =>
      processPath fuel path memoryLimit outputDir algorithm quality dryRun
        recursive ;;;
      processPaths fuel rest memoryLimit outputDir algorithm quality dryRun
        recursive
  end.

Definition Action (fuel : nat) (c : Context) : M (option error) :=
  let memoryLimit := flag_memory c in
  let outputDir := flag_output c in
  let algorithm := getResizeAlgorithm env (flag_algorithm c) in
  let quality := flag_quality c in
  let dryRun := flag_dry_run c in
  let recursive := flag_recursive c in
  if Nat.eqb (List.length (Args c)) 0
  then ret (Some "no input files or directories provided")
  else
    processPaths fuel (Args c) memoryLimit outputDir algorithm quality
      dryRun recursive ;;;
    ret None.

Definition appRun (fuel : nat) (args : list string) : M (option error) :=
  match cli_Parse env args with
  | inl err => ret (Some err)
  | inr c => Action fuel c
  end.

Definition main (fuel : nat) (args : list string) : M Z :=
  if Nat.eqb (List.length args) 0 && StartedByExplorer env then
    Println "This application cannot be run by double-clicking it. Please run it from a console or drag your images onto the executable." ;;;
    Println "Press Enter to exit..." ;;;
    match fmt_Scanln env with
    | Some _ => ret 0
    | None => ret 1
    end
  else
    r <- appRun fuel args ;;
    match r with
    | Some err => Println2 "Error:" err ;;; ret 0
    | None => ret 0
    end.
End Pipeline.
End Legacy.

(** The first program, [main.go]: one file after the other, no
    goroutines; a directory is listed with [os.ReadDir] and not entered
    further; the output is named [-fixed] and written whether or not it
    exists. *)
Module Original.

(** An [os.DirEntry], as far as the program looks at it. *)
Record DirEntry : Type := { Name : string; IsDir : bool }.

Section Pipeline.
Variable undef_int : float64 -> Z.
Variable env : Env.
(** [os.ReadDir]: the entries of a directory, sorted by file name. *)
Variable os_ReadDir : string -> error + list DirEntry.

(** The quality [jpeg.Encode] uses when its options are [nil]. *)
Definition DefaultQuality : Z := 75.

Definition saveImage (img : Image) (outputPath format : string)
    : M (option error) :=
  logFs (EvCreate outputPath) ;;;
  match os_Create env outputPath with
  | Some err => ret (Some ("failed to create output file: " ++ err))
  | None =>
      if String.eqb format "png" then
        logFs (EvEncode outputPath format img DefaultQuality) ;;;
        ret (png_Encode env img)
      else if String.eqb format "jpeg" then
        logFs (EvEncode outputPath format img DefaultQuality) ;;;
        ret (jpeg_Encode env img DefaultQuality)
      else ret (Some ("unsupported output format: " ++ format))
  end.

Definition resizeImage (fuel : nat) (filePath outputPath : string)
    (memoryLimit : Z) : M (option error) :=
  logFs (EvOpen filePath) ;;;
  match os_Open env filePath with
  | Some err => ret (Some ("failed to open file: " ++ err))
  | None =>
  match image_Decode env filePath with
  | inl err => ret (Some ("failed to decode image: " ++ err))
  | inr (originalWidth, originalHeight, format) =>
      let img := Decoded filePath originalWidth originalHeight in
      pixelFormat <- lift (getPixelFormat env (filepath_Ext env filePath)) ;;
      r <- liftFuel (Plain.calculateMaxResolution undef_int fuel
                       originalWidth originalHeight pixelFormat 4
                       memoryLimit) ;;
      let '(newWidth, newHeight) := r in
      if Z.ltb newWidth originalWidth || Z.ltb newHeight originalHeight
      then
        let resized :=
          Resized (uint newWidth) (uint newHeight) img Lanczos3 in
        err <- saveImage resized outputPath format ;;
        match err with
        | Some e => ret (Some e)
        | None => ret None
        end
      else ret None
  end end.

Definition outputPathOf (filePath outputDir : string) : string :=
  let outputFileName :=
    TrimSuffix (filepath_Base env filePath) (filepath_Ext env filePath)
    ++ "-fixed" ++ filepath_Ext env filePath in
  filepath_Join env outputDir outputFileName.

Definition processFile (fuel : nat) (filePath : string) (memoryLimit : Z)
    (outputDir : string) : M unit :=
  logFs (EvMkdirAll outputDir) ;;;
  match os_MkdirAll env outputDir with
  | Some err => Println2 "Error creating output directory:" err
  | None =>
      let outputPath := outputPathOf filePath outputDir in
      Println2 "Processing file:" filePath ;;;
      err <- resizeImage fuel filePath outputPath memoryLimit ;;
      match err with
      | Some e => Println2 "Error resizing image:" e
      | None => Println2 "Image resized and saved as:" outputPath
      end
  end.

Definition processSingleFile (fuel : nat) (path : string) (memoryLimit : Z)
    (outputDir : string) : M unit :=
  let ext := strings_ToLower env (filepath_Ext env path) in
  if isValidImageExtension ext
  then processFile fuel path memoryLimit outputDir
  else Println2 "Unsupported file type:" path.

(** The first loop of [processDirectory]. *)
Definition imageFilesOf (files : list DirEntry) : list DirEntry :=
  filter
    (fun file =>
       negb (IsDir file)
       && isValidImageExtension
            (strings_ToLower env (filepath_Ext env (Name file))))
    files.

(** The second loop of [processDirectory]. *)
Fixpoint processImageFiles (fuel : nat) (path : string)
    (imageFiles : list DirEntry) (memoryLimit : Z) (outputDir : string)
    : M unit :=
  match imageFiles with
  | [] => ret tt
  | file :: rest =>
      processFile fuel (filepath_Join env path (Name file)) memoryLimit
        outputDir ;;;
      Increment ;;;
      processImageFiles fuel path rest memoryLimit outputDir
  end.

Definition processDirectory (fuel : nat) (path : string) (memoryLimit : Z)
    (outputDir : string) : M unit :=
  match os_ReadDir path with
  | inl err => Println2 "Error reading directory:" err
  | inr files =>
      processImageFiles fuel path (imageFilesOf files) memoryLimit outputDir
  end.

Definition processPath (fuel : nat) (path : string) (memoryLimit : Z)
    (outputDir : string) : M unit :=
  info <- os_Stat env path ;;
  match info with
  | inl err => Println2 "Error accessing path:" err
  | inr isDir =>
      if isDir then processDirectory fuel path memoryLimit outputDir
      else
        processSingleFile fuel path memoryLimit outputDir ;;;
        Increment
  end.

Fixpoint processPaths (fuel : nat) (paths : list string) (memoryLimit : Z)
    (outputDir : string) : M unit :=
  match paths with
  | [] => ret tt
  | path :: rest =>
      processPath fuel path memoryLimit outputDir ;;;
      processPaths fuel rest memoryLimit outputDir
  end.

Definition Action (fuel : nat) (c : Context) : M (option error) :=
  let memoryLimit := flag_memory c in
  let outputDir := flag_output c in
  if Nat.eqb (List.length (Args c)) 0
  then ret (Some "no input files or directories provided")
  else
    processPaths fuel (Args c) memoryLimit outputDir ;;;
    ret None.

Definition appRun (fuel : nat) (args : list string) : M (option error) :=
  match cli_Parse env args with
  | inl err => ret (Some err)
  | inr c => Action fuel c
  end.

(** [main]; the value is the exit status. *)
Definition main (fuel : nat) (args : list string) : M Z :=
  r <- appRun fuel args ;;
  match r with
  | Some err => Println2 "Error:" err ;;; ret 0
  | None => ret 0
  end.
End Pipeline.
End Original.

(** ** A concrete environment

    One 6000x4000 PNG, [photo.png], whose EXIF block gives 300 dpi across
    and 72 dpi down; nothing fails; the program is started from a console
    and every argument is a positional one. *)

Definition lastDot (s : string) : string :=
  (fix go (s : string) (acc : string) : string :=
     match s with
     | EmptyString => acc
     | String c rest =>
         if Ascii.eqb c "." then go rest (String c rest) else go rest acc
     end) s "".

Definition sampleExif : Exif :=
  {| XResolution := inr {| Rat2 := inr (300, 1) |};
     YResolution := inr {| Rat2 := inr (72, 1) |} |}.

Definition sampleContext (args : list string) : Context :=
  {| flag_memory := 2 * 1024 * 1024 * 1024; flag_output := ".";
     flag_algorithm := "lanczos"; flag_quality := 75; flag_dry_run := false;
     flag_recursive := false; flag_dpi := 0; Args := args |}.

Definition sampleEnv : Env :=
  {| os_Open := fun _ => None;
     os_StatInitial := fun p =>
       if String.eqb p "photo.png" then inr false else inl "no such file";
     os_MkdirAll := fun _ => None;
     os_Create := fun _ => None;
     exif_Decode := fun _ => inr sampleExif;
     image_Decode := fun _ => inr (6000, 4000, "png");
     png_Encode := fun _ => None;
     jpeg_Encode := fun _ _ => None;
     file_Write := fun _ => None;
     filepath_WalkDir := fun d => Entry d d true [];
     filepath_Ext := lastDot;
     filepath_Base := fun p => p;
     filepath_Join := fun d f => d ++ "/" ++ f;
     strings_ToLower := fun s => s;
     StartedByExplorer := false;
     fmt_Scanln := None;
     cli_Parse := fun args => inr (sampleContext args) |}.

(** The same file without an EXIF block. *)
Definition noExifEnv : Env :=
  {| os_Open := os_Open sampleEnv;
     os_StatInitial := os_StatInitial sampleEnv;
     os_MkdirAll := os_MkdirAll sampleEnv;
     os_Create := os_Create sampleEnv;
     exif_Decode := fun _ => inl "EOF";
     image_Decode := image_Decode sampleEnv;
     png_Encode := png_Encode sampleEnv;
     jpeg_Encode := jpeg_Encode sampleEnv;
     file_Write := file_Write sampleEnv;
     filepath_WalkDir := filepath_WalkDir sampleEnv;
     filepath_Ext := filepath_Ext sampleEnv;
     filepath_Base := filepath_Base sampleEnv;
     filepath_Join := filepath_Join sampleEnv;
     strings_ToLower := strings_ToLower sampleEnv;
     StartedByExplorer := StartedByExplorer sampleEnv;
     fmt_Scanln := fmt_Scanln sampleEnv;
     cli_Parse := cli_Parse sampleEnv |}.

(** The same file with an EXIF block whose resolutions are 0/1. *)
Definition zeroExif : Exif :=
  {| XResolution := inr {| Rat2 := inr (0, 1) |};
     YResolution := inr {| Rat2 := inr (0, 1) |} |}.

Definition zeroDpiEnv : Env :=
  {| os_Open := os_Open sampleEnv;
     os_StatInitial := os_StatInitial sampleEnv;
     os_MkdirAll := os_MkdirAll sampleEnv;
     os_Create := os_Create sampleEnv;
     exif_Decode := fun _ => inr zeroExif;
     image_Decode := image_Decode sampleEnv;
     png_Encode := png_Encode sampleEnv;
     jpeg_Encode := jpeg_Encode sampleEnv;
     file_Write := file_Write sampleEnv;
     filepath_WalkDir := filepath_WalkDir sampleEnv;
     filepath_Ext := filepath_Ext sampleEnv;
     filepath_Base := filepath_Base sampleEnv;
     filepath_Join := filepath_Join sampleEnv;
     strings_ToLower := strings_ToLower sampleEnv;
     StartedByExplorer := StartedByExplorer sampleEnv;
     fmt_Scanln := fmt_Scanln sampleEnv;
     cli_Parse := cli_Parse sampleEnv |}.

(** What [int(f)] yields on the amd64 build when [f] has no [int] value:
    the "integer indefinite" value of the conversion instruction. *)
Definition indefinite : float64 -> Z := fun _ => Int64.min_int.

(** * Observers used by the statements *)

Local Open Scope Z_scope.

(** Whether a run of the solver handed back a width and a height. *)
Definition returned {A : Type} (r : option (outcome A)) : bool :=
match r with
| Some (Done _) => true
| _ => false
end.

(** The bytes of a row of [width] pixels padded to a multiple of
    [alignment]: [ceil(width * bpp / alignment) * alignment], over the
    integers. *)
Definition paddedRow (bytesPerPixel alignment width : Z) : Z :=
(width * bytesPerPixel + alignment - 1) / alignment * alignment.

(** The bytes of a [width] x [height] bitmap whose rows are padded to a
    multiple of [alignment]: [ceil(width * bpp / alignment) * alignment *
    height], over the integers. *)
Definition paddedBytes (width bytesPerPixel alignment height : Z) : Z :=
(width * bytesPerPixel + alignment - 1) / alignment * alignment * height.

(** The candidates the solver's loop visits on an input, for at most
    [fuel] turns. *)
Definition solverTurns (undef_int : float64 -> Z) (fuel : nat)
  (originalWidth originalHeight : Z) (pixelFormat : PixelFormat)
  (alignment memoryLimit : Z) : list candidate :=
match getBytesPerPixel pixelFormat with
| Panicked _ => []
| Done bytesPerPixel =>
    let aspectRatio := div (of_int originalWidth) (of_int originalHeight) in
    turnsFrom undef_int fuel aspectRatio bytesPerPixel alignment memoryLimit
      (firstEstimate aspectRatio bytesPerPixel memoryLimit)
end.

(** From one turn to the next the height goes down and the stride does
    not go up. *)
Definition shrinks (c c' : candidate) : Prop :=
c_height c' < c_height c /\ c_stride c' <= c_stride c.

(** A run of appends on the sink. *)
Fixpoint appendAll (messages : list string) : M unit :=
match messages with
| [] => ret tt
| message :: rest => safePrint message ;;; appendAll rest
end.

(** What [fmt.Println] writes for each message of a list. *)
Definition printed (messages : list string) : list string :=
map (fun message => message ++ newline) messages.

(** The world after one more file-system call. *)
Definition logged (w : World) (e : FsEvent) : World :=
{| messageQueue := messageQueue w; stdout := stdout w;
   fsLog := (fsLog w ++ [e])%list; barDone := barDone w |}.

(** The world after one more queued message. *)
Definition queued (w : World) (message : string) : World :=
{| messageQueue := (messageQueue w ++ [message])%list; stdout := stdout w;
   fsLog := fsLog w; barDone := barDone w |}.

(** The ways the metadata of a file can fail to give the two resolutions. *)
Definition metadataUnreadable (env : Env) (filePath : string) : Prop :=
  (exists err, os_Open env filePath = Some err)
  \/ os_Open env filePath = None
     /\ ((exists err, exif_Decode env filePath = inl err)
         \/ exists e, exif_Decode env filePath = inr e
              /\ ((exists err, XResolution e = inl err)
                  \/ (exists err, YResolution e = inl err)
                  \/ (exists t err, XResolution e = inr t /\ Rat2 t = inl err)
                  \/ (exists t err, YResolution e = inr t /\ Rat2 t = inl err))).

(** ** A fixed-point reading of the floats of the solver *)

(** [f] is a positive float with a full significand, an exponent in
    [lo .. hi], and value [v / 2^200]. *)
Definition fnorm (lo hi : Z) (f : float64) (v : Z) : Prop :=
  exists (m : positive) (e : Z),
    f = S754_finite false m e
    /\ 2 ^ 52 <= Zpos m < 2 ^ 53
    /\ lo <= e <= hi
    /\ v = Zpos m * 2 ^ (e + 200).

(** The scale of the fixed-point reading, and the weight of the leading
    bit of a significand. *)
Definition S200 : Z := 2 ^ 200.
Definition U52 : Z := 2 ^ 52.


(** ** Observers of a run *)

(** A command keeps a relation between the world it starts in and the
    world it ends in, however it ends. *)
Definition keeps {A : Type} (R : World -> World -> Prop) (c : M A) : Prop :=
  forall w r w', c w = Some (r, w') -> R w w'.

(** A command never panics: when it ends, it ends with a value. *)
Definition returns {A : Type} (c : M A) : Prop :=
  forall w r w', c w = Some (r, w') -> exists a, r = Done a.

(** A command ends, from every world. *)
Definition ends {A : Type} (c : M A) : Prop :=
  forall w, exists r w', c w = Some (r, w').

(** The bar stands where it stood. *)
Definition sameBar (w w' : World) : Prop := barDone w' = barDone w.

(** Nothing was printed, and the queue only grew. *)
Definition onlyQueues (w w' : World) : Prop :=
  stdout w' = stdout w
  /\ exists more, messageQueue w' = (messageQueue w ++ more)%list.

(** The file-system calls made are all of one kind. *)
Definition onlyLogs (P : FsEvent -> Prop) (w w' : World) : Prop :=
  exists evs, fsLog w' = (fsLog w ++ evs)%list /\ Forall P evs.

(** A file-system call on the input file, the output directory or the
    output file of a call of [processFile]. *)
Definition touches (filePath outputDir outputPath : string) (e : FsEvent)
    : Prop :=
  match e with
  | EvOpen p => p = filePath
  | EvMkdirAll d => d = outputDir
  | EvCreate p => p = outputPath
  | EvEncode p _ _ _ => p = outputPath
  | EvWrite p _ _ => p = outputPath
  end.

(** Whether [os.Stat] finds [path] in a world. *)
Definition existsNow (env : Env) (w : World) (path : string) : bool :=
  match os_Stat env path w with
  | Some (Done (inr _), _) => true
  | _ => false
  end.

(** A world with more messages in its queue. *)
Definition queuedAll (w : World) (messages : list string) : World :=
  {| messageQueue := (messageQueue w ++ messages)%list; stdout := stdout w;
     fsLog := fsLog w; barDone := barDone w |}.

(** The world after one more piece of text on standard output. *)
Definition written (w : World) (text : string) : World :=
  {| messageQueue := messageQueue w; stdout := (stdout w ++ [text])%list;
     fsLog := fsLog w; barDone := barDone w |}.

(** ** Observers of a directory walk *)


(** The entry at the top of a tree, and the trees below it. *)
Definition topOf (t : DirTree) : string * string * bool :=
  match t with
  | Entry path name isDir _ => (path, name, isDir)
  end.

Definition childrenOf (t : DirTree) : list DirTree :=
  match t with
  | Entry _ _ _ children => children
  end.

(** The test of the callback of [collectFiles] on an entry. *)
Definition isImageEntry (env : Env) (e : string * string * bool) : bool :=
  let '(_, name, isDir) := e in
  negb isDir
  && isValidImageExtension (strings_ToLower env (filepath_Ext env name)).

Definition pathOf (e : string * string * bool) : string := fst (fst e).

(** ** More sample environments and runs *)

(** The sample environment when the program is started from Explorer. *)
Definition explorerEnv : Env :=
  {| os_Open := os_Open sampleEnv;
     os_StatInitial := os_StatInitial sampleEnv;
     os_MkdirAll := os_MkdirAll sampleEnv;
     os_Create := os_Create sampleEnv;
     exif_Decode := exif_Decode sampleEnv;
     image_Decode := image_Decode sampleEnv;
     png_Encode := png_Encode sampleEnv;
     jpeg_Encode := jpeg_Encode sampleEnv;
     file_Write := file_Write sampleEnv;
     filepath_WalkDir := filepath_WalkDir sampleEnv;
     filepath_Ext := filepath_Ext sampleEnv;
     filepath_Base := filepath_Base sampleEnv;
     filepath_Join := filepath_Join sampleEnv;
     strings_ToLower := strings_ToLower sampleEnv;
     StartedByExplorer := true;
     fmt_Scanln := fmt_Scanln sampleEnv;
     cli_Parse := cli_Parse sampleEnv |}.

(** A directory [pics] with an image, a directory with an image of its own,
    and a text file. *)
Definition sampleFolder : list DirTree :=
  [ Entry "pics/a.png" "a.png" false [];
    Entry "pics/sub" "sub" true [Entry "pics/sub/b.jpg" "b.jpg" false []];
    Entry "pics/notes.txt" "notes.txt" false [] ].

Definition folderEnv : Env :=
  {| os_Open := os_Open sampleEnv;
     os_StatInitial := os_StatInitial sampleEnv;
     os_MkdirAll := os_MkdirAll sampleEnv;
     os_Create := os_Create sampleEnv;
     exif_Decode := exif_Decode sampleEnv;
     image_Decode := image_Decode sampleEnv;
     png_Encode := png_Encode sampleEnv;
     jpeg_Encode := jpeg_Encode sampleEnv;
     file_Write := file_Write sampleEnv;
     filepath_WalkDir := fun d => Entry d d true sampleFolder;
     filepath_Ext := filepath_Ext sampleEnv;
     filepath_Base := filepath_Base sampleEnv;
     filepath_Join := filepath_Join sampleEnv;
     strings_ToLower := strings_ToLower sampleEnv;
     StartedByExplorer := StartedByExplorer sampleEnv;
     fmt_Scanln := fmt_Scanln sampleEnv;
     cli_Parse := cli_Parse sampleEnv |}.

(** What [os.ReadDir] lists in that directory. *)
Definition sampleReadDir (path : string) : error + list Original.DirEntry :=
  inr [ {| Original.Name := "a.png"; Original.IsDir := false |};
        {| Original.Name := "notes.txt"; Original.IsDir := false |};
        {| Original.Name := "sub"; Original.IsDir := true |} ].

(** The world [processFile] leaves on the sample file with [--dpi 72], and
    the world [processPath] leaves there. *)
Definition sampleResized : World :=
  {| messageQueue :=
       ["Processing photo.png";
        "Resized photo.png to 1872x1248 with a DPI of 22"];
     stdout := [];
     fsLog :=
       [EvMkdirAll "."; EvOpen "photo.png"; EvCreate "./photo-resized.png";
        EvEncode "./photo-resized.png" "png"
          (Resized 1872 1248 (Decoded "photo.png" 6000 4000) Lanczos3) 75];
     barDone := 1 |}.


(** The world [processDirectory] of [main.go] leaves on that directory. *)
Definition sampleListed : World :=
  {| messageQueue := [];
     stdout :=
       ["Processing file: pics/a.png" ++ newline;
        "Image resized and saved as: ./pics/a-fixed.png" ++ newline];
     fsLog := [EvMkdirAll "."; EvOpen "pics/a.png"];
     barDone := 1 |}.

(** * Facts about binary64 *)

Module Float64Facts.

Lemma digits2_pos_size (p : positive) : digits2_pos p = Pos.size p.
Proof. induction p; simpl; congruence. Qed.

Lemma size_bounds (p : positive) :
  2 ^ (Zpos (Pos.size p) - 1) <= Zpos p < 2 ^ Zpos (Pos.size p).
Proof.
  pose proof (Pos.size_gt p) as Hgt. pose proof (Pos.size_le p) as Hle.
  apply Pos2Z.pos_lt_pos in Hgt. apply Pos2Z.pos_le_pos in Hle.
  rewrite Pos2Z.inj_pow in Hgt, Hle.
  change (Z.pos p~0) with (2 * Z.pos p) in Hle.
  replace (2 ^ Z.pos (Pos.size p))
    with (2 * 2 ^ (Z.pos (Pos.size p) - 1)) in Hle.
  2:{ rewrite <- Z.pow_succ_r by lia. f_equal. lia. }
  lia.
Qed.

(** A positive number between [2^(d-1)] and [2^d] has [d] binary digits. *)
Lemma digits_bounds (p : positive) (d : Z) :
  2 ^ (d - 1) <= Zpos p < 2 ^ d -> 0 < d -> Zpos (digits2_pos p) = d.
Proof.
  intros [Hlo Hhi] Hd. rewrite digits2_pos_size.
  pose proof (size_bounds p) as [Slo Shi].
  remember (Zpos (Pos.size p)) as s eqn:Hs.
  assert (0 < s) by lia.
  destruct (Z.lt_trichotomy s d) as [Hlt | [Heq | Hgt]];
    [ exfalso | exact Heq | exfalso ].
  - assert (2 ^ s <= 2 ^ (d - 1)) by (apply Z.pow_le_mono_r; lia). lia.
  - assert (2 ^ d <= 2 ^ (s - 1)) by (apply Z.pow_le_mono_r; lia). lia.
Qed.

Lemma fexp_53 (e : Z) : -1074 <= e -> fexp prec emax (53 + e) = e.
Proof. unfold fexp, emin, prec, emax. lia. Qed.

(** A 53-bit significand is not shifted. *)
Lemma shr_fexp_53 (q : positive) (e : Z) (l : location) :
  2 ^ 52 <= Zpos q < 2 ^ 53 -> -1074 <= e ->
  shr_fexp prec emax (Zpos q) e l = (shr_record_of_loc (Zpos q) l, e).
Proof.
  intros Hq He. unfold shr_fexp, Zdigits2.
  rewrite (digits_bounds q 53) by (simpl; lia).
  rewrite fexp_53 by lia. rewrite Z.sub_diag. reflexivity.
Qed.

(** A 54-bit significand is shifted by one bit. *)
Lemma shr_fexp_54 (q : positive) (e : Z) (l : location) :
  2 ^ 53 <= Zpos q < 2 ^ 54 -> -1075 <= e ->
  shr_fexp prec emax (Zpos q) e l
  = (shr_1 (shr_record_of_loc (Zpos q) l), e + 1).
Proof.
  intros Hq He. unfold shr_fexp, Zdigits2.
  rewrite (digits_bounds q 54) by (simpl; lia).
  replace (54 + e) with (53 + (e + 1)) by lia.
  rewrite fexp_53 by lia.
  replace (e + 1 - e) with 1 by lia. reflexivity.
Qed.

Lemma shr_m_of_loc (m : Z) (l : location) :
  shr_m (shr_record_of_loc m l) = m.
Proof. destruct l as [|[]]; reflexivity. Qed.

Lemma loc_of_shr_of_loc (m : Z) (l : location) :
  loc_of_shr_record (shr_record_of_loc m l) = l.
Proof. destruct l as [|[]]; reflexivity. Qed.

Lemma shr_1_m (m : Z) (r s : bool) :
  0 <= m -> shr_m (shr_1 (Build_shr_record m r s)) = m / 2.
Proof.
  intros Hm. destruct m as [|p|p]; [reflexivity | | lia].
  destruct p; simpl.
  - rewrite Pos2Z.inj_xI. apply Z.div_unique with 1; lia.
  - rewrite Pos2Z.inj_xO. apply Z.div_unique with 0; lia.
  - reflexivity.
Qed.

Lemma round_nearest_even_cases (m : Z) (l : location) :
  round_nearest_even m l = m \/ round_nearest_even m l = m + 1.
Proof. destruct l as [|[]]; simpl; auto. destruct (Z.even m); auto. Qed.

Ltac no_overflow :=
  match goal with
  | |- context [?e <=? emax - prec] =>
      replace (e <=? emax - prec) with true
        by (symmetry; apply Z.leb_le; unfold emax, prec; lia)
  end.

(** Rounding a 53-bit significand [q] that stands for a value in
    [[q, q+1)] units of [2^e]: the result is within one unit of it. *)
Lemma binary_round_aux_53 (q : positive) (e : Z) (l : location) :
  2 ^ 52 <= Zpos q < 2 ^ 53 -> -1074 <= e <= 969 ->
  exists (mz : positive) (n : Z),
    binary_round_aux prec emax false (Zpos q) e l
    = S754_finite false mz (e + n)
    /\ 0 <= n <= 2
    /\ 2 ^ 52 <= Zpos mz < 2 ^ 53
    /\ (Zpos mz - 1) * 2 ^ n <= Zpos q
    /\ Zpos q + 1 <= (Zpos mz + 1) * 2 ^ n.
Proof.
  intros Hq He. unfold binary_round_aux.
  rewrite shr_fexp_53 by lia.
  rewrite shr_m_of_loc, loc_of_shr_of_loc.
  destruct (round_nearest_even_cases (Zpos q) l) as [-> | ->].
  - rewrite shr_fexp_53 by lia. simpl shr_m. no_overflow.
    exists q, 0. rewrite Z.add_0_r. repeat split; lia.
  - destruct (Z.eq_dec (Zpos q + 1) (2 ^ 53)) as [Heq | Hne].
    + rewrite Heq. change (2 ^ 53) with (Zpos (2 ^ 53)%positive).
      rewrite shr_fexp_54 by (simpl; lia). simpl shr_m. no_overflow.
      exists (2 ^ 52)%positive, 1. repeat split; lia.
    + replace (Zpos q + 1) with (Zpos (q + 1)) by lia.
      rewrite shr_fexp_53 by lia. simpl shr_m. no_overflow.
      exists (q + 1)%positive, 0. rewrite Z.add_0_r. repeat split; lia.
Qed.

(** The same for a 54-bit significand. *)
Lemma binary_round_aux_54 (q : positive) (e : Z) (l : location) :
  2 ^ 53 <= Zpos q < 2 ^ 54 -> -1075 <= e <= 968 ->
  exists (mz : positive) (n : Z),
    binary_round_aux prec emax false (Zpos q) e l
    = S754_finite false mz (e + n)
    /\ 0 <= n <= 2
    /\ 2 ^ 52 <= Zpos mz < 2 ^ 53
    /\ (Zpos mz - 1) * 2 ^ n <= Zpos q
    /\ Zpos q + 1 <= (Zpos mz + 1) * 2 ^ n.
Proof.
  intros Hq He. unfold binary_round_aux.
  rewrite shr_fexp_54 by lia.
  set (mrs := shr_1 (shr_record_of_loc (Zpos q) l)).
  assert (Hm1 : shr_m mrs = Zpos q / 2).
  { unfold mrs. destruct l as [|[]]; simpl shr_record_of_loc;
      apply shr_1_m; lia. }
  assert (Hdiv : 2 * (Zpos q / 2) <= Zpos q < 2 * (Zpos q / 2) + 2).
  { pose proof (Z.div_mod (Zpos q) 2 ltac:(lia)).
    pose proof (Z.mod_pos_bound (Zpos q) 2 ltac:(lia)). lia. }
  remember (Zpos q / 2) as m1 eqn:Em1.
  assert (Hm1r : 2 ^ 52 <= m1 < 2 ^ 53).
  { change (2 ^ 54) with (2 * 2 ^ 53) in Hq.
    change (2 ^ 53) with (2 * 2 ^ 52) in Hq at 1. lia. }
  rewrite Hm1.
  destruct m1 as [|m1p|]; try lia.
  destruct (round_nearest_even_cases (Zpos m1p) (loc_of_shr_record mrs))
    as [-> | ->].
  - rewrite shr_fexp_53 by lia. simpl shr_m. no_overflow.
    exists m1p, 1. repeat split; lia.
  - destruct (Z.eq_dec (Zpos m1p + 1) (2 ^ 53)) as [Heq | Hne].
    + rewrite Heq. change (2 ^ 53) with (Zpos (2 ^ 53)%positive).
      rewrite shr_fexp_54 by (simpl; lia). simpl shr_m. no_overflow.
      exists (2 ^ 52)%positive, 2. replace (e + 2) with (e + 1 + 1) by lia.
      repeat split; lia.
    + replace (Zpos m1p + 1) with (Zpos (m1p + 1)) by lia.
      rewrite shr_fexp_53 by lia. simpl shr_m. no_overflow.
      exists (m1p + 1)%positive, 1. repeat split; lia.
Qed.

(** An exact 53-bit significand is kept. *)
Lemma binary_round_aux_exact (q : positive) (e : Z) :
  2 ^ 52 <= Zpos q < 2 ^ 53 -> -1074 <= e <= 971 ->
  binary_round_aux prec emax false (Zpos q) e loc_Exact
  = S754_finite false q e.
Proof.
  intros Hq He. unfold binary_round_aux.
  rewrite shr_fexp_53 by lia. simpl.
  rewrite shr_fexp_53 by lia. simpl.
  destruct (Z.leb_spec e 971); [reflexivity | lia].
Qed.

(** [float64(z)] is exact below [2^53], with a full significand. *)
Lemma of_int_exact (z : Z) :
  0 < z < 2 ^ 53 ->
  exists (m : positive) (a : Z),
    of_int z = S754_finite false m (- a)
    /\ 0 <= a <= 52 /\ 2 ^ 52 <= Zpos m < 2 ^ 53 /\ Zpos m = z * 2 ^ a.
Proof.
  intros Hz. destruct z as [|p|p]; try lia.
  unfold of_int, binary_normalize, binary_round.
  remember (Zpos (digits2_pos p)) as d eqn:Ed.
  assert (Hd : 2 ^ (d - 1) <= Zpos p < 2 ^ d).
  { subst d. rewrite digits2_pos_size. apply size_bounds. }
  assert (Hd53 : 1 <= d <= 53).
  { split; [subst d; lia|].
    destruct (Z_le_gt_dec d 53); [assumption|].
    assert (2 ^ 53 <= 2 ^ (d - 1)) by (apply Z.pow_le_mono_r; lia). lia. }
  replace (fexp prec emax (d + 0)) with (d - 53)
    by (unfold fexp, emin, prec, emax; lia).
  unfold shl_align.
  destruct (Z.eq_dec d 53) as [E53 | N53].
  - rewrite E53 in Hd. change (2 ^ (53 - 1)) with (2 ^ 52) in Hd.
    rewrite E53. simpl Z.sub. cbv iota beta zeta.
    rewrite binary_round_aux_exact by lia.
    exists p, 0. repeat split; lia.
  - destruct (d - 53 - 0) as [|k|k] eqn:Ek; try lia.
    cbv iota beta zeta.
    change (PosDef.Pos.iter xO p k) with (shift_pos k p).
    assert (Hs : Zpos (shift_pos k p) = Zpos p * 2 ^ (53 - d)).
    { rewrite shift_pos_correct. rewrite Z.pow_pos_fold.
      replace (Zpos k) with (53 - d) by lia. lia. }
    assert (Hr : 2 ^ 52 <= Zpos (shift_pos k p) < 2 ^ 53).
    { rewrite Hs.
      replace (2 ^ 52) with (2 ^ (d - 1) * 2 ^ (53 - d)).
      2:{ rewrite <- Z.pow_add_r by lia. f_equal. lia. }
      replace (2 ^ 53) with (2 ^ d * 2 ^ (53 - d)).
      2:{ rewrite <- Z.pow_add_r by lia. f_equal. lia. }
      assert (0 < 2 ^ (53 - d)) by (apply Z.pow_pos_nonneg; lia).
      nia. }
    rewrite binary_round_aux_exact by lia.
    exists (shift_pos k p), (53 - d).
    replace (- (53 - d)) with (d - 53) by lia.
    repeat split; lia.
Qed.

(** The quotient of two floats with full significands: the result
    [mz * 2^(ex - ey - 53 + n)] is within one unit in the last place of
    the exact quotient. *)
Lemma div_normal (mx my : positive) (ex ey : Z) :
  2 ^ 52 <= Zpos mx < 2 ^ 53 -> 2 ^ 52 <= Zpos my < 2 ^ 53 ->
  -1021 <= ex - ey <= 1021 ->
  exists (mz : positive) (n : Z),
    div (S754_finite false mx ex) (S754_finite false my ey)
    = S754_finite false mz (ex - ey - 53 + n)
    /\ 0 <= n <= 2
    /\ 2 ^ 52 <= Zpos mz < 2 ^ 53
    /\ (Zpos mz - 1) * 2 ^ n * Zpos my <= Zpos mx * 2 ^ 53
    /\ Zpos mx * 2 ^ 53 < (Zpos mz + 1) * 2 ^ n * Zpos my.
Proof.
  intros Hx Hy He.
  unfold div, SFdiv, SFdiv_core_binary, Zdigits2.
  rewrite (digits_bounds mx 53), (digits_bounds my 53) by (simpl; lia).
  replace (Z.min (fexp prec emax (53 + ex - (53 + ey))) (ex - ey))
    with (ex - ey - 53) by (unfold fexp, emin, prec, emax; lia).
  replace (ex - ey - (ex - ey - 53)) with 53 by lia.
  cbv iota beta.
  rewrite Z.shiftl_mul_pow2 by lia.
  pose proof (Z_div_mod (Zpos mx * 2 ^ 53) (Zpos my) ltac:(lia)) as Hdm.
  destruct (Z.div_eucl (Zpos mx * 2 ^ 53) (Zpos my)) as [q r].
  destruct Hdm as [Hq Hr].
  assert (Hqr : 2 ^ 52 <= q < 2 ^ 54).
  { change (2 ^ 54) with (2 * 2 ^ 53). change (2 ^ 53) with (2 * 2 ^ 52) in *.
    split; nia. }
  simpl xorb.
  destruct q as [|qp|]; try lia.
  destruct (Z_lt_ge_dec (Zpos qp) (2 ^ 53)) as [H53 | H54].
  - destruct (binary_round_aux_53 qp (ex - ey - 53)
                (new_location (Zpos my) r))
      as (mz & n & E & Hn & Hmz & Hlo & Hhi); try lia.
    pose proof (Z.mul_le_mono_nonneg_r _ _ (Zpos my) ltac:(lia) Hlo).
    pose proof (Z.mul_le_mono_nonneg_r _ _ (Zpos my) ltac:(lia) Hhi).
    exists mz, n. rewrite E. repeat split; lia.
  - destruct (binary_round_aux_54 qp (ex - ey - 53)
                (new_location (Zpos my) r))
      as (mz & n & E & Hn & Hmz & Hlo & Hhi); try lia.
    pose proof (Z.mul_le_mono_nonneg_r _ _ (Zpos my) ltac:(lia) Hlo).
    pose proof (Z.mul_le_mono_nonneg_r _ _ (Zpos my) ltac:(lia) Hhi).
    exists mz, n. rewrite E. repeat split; lia.
Qed.

Lemma in_range_zero : Int64.in_range 0 = true.
Proof. vm_compute. reflexivity. Qed.

Lemma to_int_zero (undef_int : float64 -> Z) (s : bool) :
  to_int undef_int (S754_zero s) = 0.
Proof. unfold to_int, truncate. rewrite in_range_zero. reflexivity. Qed.

Lemma div_zero_finite (m : positive) (e : Z) :
  div (of_int 0) (S754_finite false m e) = S754_zero false.
Proof. reflexivity. Qed.

(** ** Rounding a quotient, a product and a square root *)

(** Shifting right by one, and by [p], bit positions. *)
Lemma shr_1_nonneg (mrs : shr_record) :
  0 <= shr_m mrs -> shr_m (shr_1 mrs) = shr_m mrs / 2.
Proof. destruct mrs as [m r s]. apply shr_1_m. Qed.

Lemma iter_shr_m (p : positive) (mrs : shr_record) :
  0 <= shr_m mrs ->
  shr_m (iter_pos shr_1 p mrs) = shr_m mrs / 2 ^ Zpos p.
Proof.
  revert mrs. induction p as [p IH | p IH |]; intros mrs Hm.
  - simpl iter_pos.
    assert (H1 : 0 <= shr_m (shr_1 mrs)).
    { rewrite shr_1_nonneg by assumption. apply Z.div_pos; lia. }
    assert (H2 : 0 <= shr_m (iter_pos shr_1 p (shr_1 mrs))).
    { rewrite IH by assumption. apply Z.div_pos; [assumption|].
      apply Z.pow_pos_nonneg; lia. }
    rewrite IH by assumption. rewrite IH by assumption.
    rewrite shr_1_nonneg by assumption.
    assert (0 < 2 ^ Zpos p) by (apply Z.pow_pos_nonneg; lia).
    rewrite !Z.div_div by lia.
    f_equal. rewrite Pos2Z.inj_xI.
    replace (2 * Zpos p + 1) with (Zpos p + Zpos p + 1) by lia.
    rewrite !Z.pow_add_r by lia. change (2 ^ 1) with 2. ring.
  - simpl iter_pos.
    assert (H2 : 0 <= shr_m (iter_pos shr_1 p mrs)).
    { rewrite IH by assumption. apply Z.div_pos; [assumption|].
      apply Z.pow_pos_nonneg; lia. }
    rewrite IH by assumption. rewrite IH by assumption.
    assert (0 < 2 ^ Zpos p) by (apply Z.pow_pos_nonneg; lia).
    rewrite Z.div_div by lia.
    f_equal. rewrite <- Z.pow_add_r by lia. f_equal. lia.
  - simpl iter_pos. rewrite shr_1_nonneg by assumption. reflexivity.
Qed.

(** Rounding a significand [q] of [d >= 53] bits. *)
Lemma binary_round_aux_bounds (q : positive) (d e : Z) (l : location) :
  2 ^ (d - 1) <= Zpos q < 2 ^ d -> 53 <= d ->
  -1074 <= e + d - 53 <= 969 ->
  exists (mz : positive) (n : Z),
    binary_round_aux prec emax false (Zpos q) e l
    = S754_finite false mz (e + n)
    /\ d - 53 <= n <= d - 52
    /\ 2 ^ 52 <= Zpos mz < 2 ^ 53
    /\ (Zpos mz - 1) * 2 ^ n <= Zpos q
    /\ Zpos q + 1 <= (Zpos mz + 1) * 2 ^ n.
Proof.
  intros Hq Hd He.
  destruct (Z.eq_dec d 53) as [-> | Hne].
  - change (2 ^ (53 - 1)) with (2 ^ 52) in Hq.
    destruct (binary_round_aux_53 q e l) as (mz & n & E & Hn & Hmz & Hlo & Hhi);
      [lia | lia |].
    exists mz, n. repeat split; try lia; try assumption.
    (* n <= 1 *)
    destruct (Z.eq_dec n 2) as [-> | ]; [|lia].
    change (2 ^ 2) with 4 in *. lia.
  - unfold binary_round_aux.
    assert (Esh : shr_fexp prec emax (Zpos q) e l
                  = (iter_pos shr_1 (Z.to_pos (d - 53))
                       (shr_record_of_loc (Zpos q) l), e + (d - 53))).
    { unfold shr_fexp, Zdigits2. rewrite (digits_bounds q d) by lia.
      replace (fexp prec emax (d + e)) with (e + (d - 53))
        by (unfold fexp, emin, prec, emax; lia).
      replace (e + (d - 53) - e) with (d - 53) by lia.
      unfold shr. destruct (d - 53) as [|k|k] eqn:Ek; try lia. reflexivity. }
    rewrite Esh.
    set (mrs := iter_pos shr_1 (Z.to_pos (d - 53)) (shr_record_of_loc (Zpos q) l)).
    assert (Hm1 : shr_m mrs = Zpos q / 2 ^ (d - 53)).
    { unfold mrs. rewrite iter_shr_m by (rewrite shr_m_of_loc; lia).
      rewrite shr_m_of_loc. rewrite Z2Pos.id by lia. reflexivity. }
    assert (P : 0 < 2 ^ (d - 53)) by (apply Z.pow_pos_nonneg; lia).
    pose proof (Z.div_mod (Zpos q) (2 ^ (d - 53)) ltac:(lia)) as Hdm.
    pose proof (Z.mod_pos_bound (Zpos q) (2 ^ (d - 53)) P) as Hmb.
    remember (Zpos q / 2 ^ (d - 53)) as m1 eqn:Em1.
    assert (E1 : 2 ^ (d - 1) = 2 ^ 52 * 2 ^ (d - 53)).
    { rewrite <- Z.pow_add_r by lia. f_equal. lia. }
    assert (E2 : 2 ^ d = 2 ^ 53 * 2 ^ (d - 53)).
    { rewrite <- Z.pow_add_r by lia. f_equal. lia. }
    assert (Hm1r : 2 ^ 52 <= m1 < 2 ^ 53) by nia.
    rewrite Hm1.
    destruct m1 as [|m1p|]; try lia.
    destruct (round_nearest_even_cases (Zpos m1p) (loc_of_shr_record mrs))
      as [-> | ->].
    + rewrite shr_fexp_53 by lia. simpl shr_m. no_overflow.
      exists m1p, (d - 53). repeat split; try lia; nia.
    + destruct (Z.eq_dec (Zpos m1p + 1) (2 ^ 53)) as [Heq | Hne'].
      * rewrite Heq. change (2 ^ 53) with (Zpos (2 ^ 53)%positive).
        rewrite shr_fexp_54 by (simpl; lia). simpl shr_m. no_overflow.
        exists (2 ^ 52)%positive, (d - 52).
        replace (e + (d - 52)) with (e + (d - 53) + 1) by lia.
        assert (E3 : 2 ^ (d - 52) = 2 * 2 ^ (d - 53)).
        { replace (d - 52) with (1 + (d - 53)) by lia.
          rewrite Z.pow_add_r by lia. reflexivity. }
        rewrite E3. repeat split; try lia; nia.
      * replace (Zpos m1p + 1) with (Zpos (m1p + 1)) by lia.
        rewrite shr_fexp_53 by lia. simpl shr_m. no_overflow.
        exists (m1p + 1)%positive, (d - 53). repeat split; try lia; nia.
Qed.

(** The product of two floats with full significands. *)
Lemma mul_normal (mx my : positive) (ex ey : Z) :
  2 ^ 52 <= Zpos mx < 2 ^ 53 -> 2 ^ 52 <= Zpos my < 2 ^ 53 ->
  -1126 <= ex + ey <= 916 ->
  exists (mz : positive) (n : Z),
    mul (S754_finite false mx ex) (S754_finite false my ey)
    = S754_finite false mz (ex + ey + n)
    /\ 52 <= n <= 54
    /\ 2 ^ 52 <= Zpos mz < 2 ^ 53
    /\ (Zpos mz - 1) * 2 ^ n <= Zpos mx * Zpos my
    /\ Zpos mx * Zpos my + 1 <= (Zpos mz + 1) * 2 ^ n.
Proof.
  intros Hx Hy He. unfold mul, SFmul. simpl xorb.
  assert (HP : 2 ^ 104 <= Zpos (mx * my) < 2 ^ 106).
  { rewrite Pos2Z.inj_mul.
    change (2 ^ 104) with (2 ^ 52 * 2 ^ 52).
    change (2 ^ 106) with (2 ^ 53 * 2 ^ 53). nia. }
  destruct (Z_lt_ge_dec (Zpos (mx * my)) (2 ^ 105)) as [Hlt | Hge].
  - destruct (binary_round_aux_bounds (mx * my) 105 (ex + ey) loc_Exact)
      as (mz & n & E & Hn & Hmz & Hlo & Hhi);
      [change (2 ^ (105 - 1)) with (2 ^ 104); lia | lia | lia |].
    exists mz, n. rewrite <- Pos2Z.inj_mul. repeat split; try lia; assumption.
  - destruct (binary_round_aux_bounds (mx * my) 106 (ex + ey) loc_Exact)
      as (mz & n & E & Hn & Hmz & Hlo & Hhi);
      [change (2 ^ (106 - 1)) with (2 ^ 105); lia | lia | lia |].
    exists mz, n. rewrite <- Pos2Z.inj_mul. repeat split; try lia; assumption.
Qed.

(** The square root of a float with a full significand: the square of
    the result [mz * 2^(e' + n)] brackets the argument [mx * 2^(2 e' + s)]. *)
Lemma sqrt_normal (mx : positive) (ex : Z) :
  2 ^ 52 <= Zpos mx < 2 ^ 53 -> -2000 <= ex <= 1900 ->
  exists (mz : positive) (n s e' : Z),
    Sqrt (S754_finite false mx ex) = S754_finite false mz (e' + n)
    /\ ex = 2 * e' + s /\ 52 <= s <= 53 /\ 0 <= n <= 2
    /\ 2 ^ 52 <= Zpos mz < 2 ^ 53
    /\ ((Zpos mz - 1) * 2 ^ n) * ((Zpos mz - 1) * 2 ^ n) <= Zpos mx * 2 ^ s
    /\ Zpos mx * 2 ^ s < ((Zpos mz + 1) * 2 ^ n) * ((Zpos mz + 1) * 2 ^ n).
Proof.
  intros Hx He. unfold Sqrt, SFsqrt, SFsqrt_core_binary, Zdigits2.
  rewrite (digits_bounds mx 53) by (simpl; lia).
  rewrite !Z.div2_div.
  pose proof (Z.div_mod ex 2 ltac:(lia)) as Hdm.
  pose proof (Z.mod_pos_bound ex 2 ltac:(lia)) as Hmb.
  remember (ex / 2) as h eqn:Eh.
  replace ((53 + ex + 1) / 2) with (27 + h).
  2:{ subst h. replace (53 + ex + 1) with (ex + 27 * 2) by lia.
      rewrite Z.div_add by lia. lia. }
  replace (Z.min (fexp prec emax (27 + h)) h) with (h - 26)
    by (unfold fexp, emin, prec, emax; lia).
  remember (ex - 2 * (h - 26)) as s eqn:Es.
  assert (Hs : 52 <= s <= 53) by lia.
  assert (Em' : match s with
                | 0 => Zpos mx
                | Zpos _ => Z.shiftl (Zpos mx) s
                | Zneg _ => 0
                end = Zpos mx * 2 ^ s).
  { destruct s; try lia. apply Z.shiftl_mul_pow2. lia. }
  rewrite Em'.
  assert (Hm' : 2 ^ 104 <= Zpos mx * 2 ^ s < 2 ^ 106).
  { assert (2 ^ 52 <= 2 ^ s) by (apply Z.pow_le_mono_r; lia).
    assert (2 ^ s <= 2 ^ 53) by (apply Z.pow_le_mono_r; lia).
    change (2 ^ 104) with (2 ^ 52 * 2 ^ 52).
    change (2 ^ 106) with (2 ^ 53 * 2 ^ 53). nia. }
  pose proof (Z.sqrtrem_spec (Zpos mx * 2 ^ s) ltac:(lia)) as Hsq.
  destruct (Z.sqrtrem (Zpos mx * 2 ^ s)) as [q r].
  destruct Hsq as [Hq Hr].
  assert (Hqr : 2 ^ 52 <= q < 2 ^ 53).
  { change (2 ^ 104) with (2 ^ 52 * 2 ^ 52) in Hm'.
    change (2 ^ 106) with (2 ^ 53 * 2 ^ 53) in Hm'. nia. }
  destruct q as [|qp|]; try lia.
  destruct (binary_round_aux_53 qp (h - 26)
              (if r =? 0 then loc_Exact
               else loc_Inexact (if r <=? Zpos qp then Lt else Gt)))
    as (mz & n & E & Hn & Hmz & Hlo & Hhi); [lia | lia |].
  exists mz, n, s, (h - 26). rewrite E.
  assert (Pn : 0 < 2 ^ n) by (apply Z.pow_pos_nonneg; lia).
  assert (H0 : 0 <= (Zpos mz - 1) * 2 ^ n)
    by (apply Z.mul_nonneg_nonneg; lia).
  pose proof (Z.mul_le_mono_nonneg _ _ _ _ H0 Hlo H0 Hlo).
  pose proof (Z.mul_le_mono_nonneg (Zpos qp + 1) _ (Zpos qp + 1) _
                ltac:(lia) Hhi ltac:(lia) Hhi).
  repeat split; lia.
Qed.


End Float64Facts.

(** * The floats of the solver as scaled integers *)

Module FixedPoint.
Import Float64Facts.

Lemma S200_pos : 0 < S200.
Proof. unfold S200. lia. Qed.

(** The window of the exponent can be widened. *)
Lemma fnorm_weaken (lo hi lo' hi' : Z) (f : float64) (v : Z) :
  fnorm lo hi f v -> lo' <= lo -> hi <= hi' -> fnorm lo' hi' f v.
Proof.
  intros (m & e & E & Hm & He & Hv) Hlo Hhi.
  exists m, e. repeat split; try assumption; lia.
Qed.

(** The scaled value of such a float is a positive integer. *)
Lemma fnorm_pos (lo hi : Z) (f : float64) (v : Z) :
  fnorm lo hi f v -> -200 <= lo -> 0 < v.
Proof.
  intros (m & e & E & Hm & He & Hv) Hlo. subst v.
  assert (0 < 2 ^ (e + 200)) by (apply Z.pow_pos_nonneg; lia). nia.
Qed.

(** A bound on the value bounds the exponent. *)
Lemma fnorm_exponent (lo hi : Z) (f : float64) (v k : Z) :
  fnorm lo hi f v -> -200 <= lo -> 0 <= k -> v < 2 ^ k * S200 ->
  fnorm lo (Z.min hi (k - 53)) f v.
Proof.
  intros (m & e & E & Hm & He & Hv) Hlo Hk Hb.
  exists m, e. repeat split; try assumption; try lia.
  apply Z.min_glb; [lia|].
  subst v. unfold S200 in Hb.
  rewrite <- Z.pow_add_r in Hb by lia.
  assert (P : 0 < 2 ^ (e + 200)) by (apply Z.pow_pos_nonneg; lia).
  assert (H1 : 2 ^ (52 + (e + 200)) < 2 ^ (k + 200)).
  { rewrite Z.pow_add_r by lia. nia. }
  apply Z.pow_lt_mono_r_iff in H1; lia.
Qed.

(** [float64(z)] is exact for a positive [z] below [2^53]. *)
Lemma of_int_fnorm (z : Z) :
  0 < z < 2 ^ 53 -> fnorm (-52) 0 (of_int z) (z * S200).
Proof.
  intros Hz.
  destruct (of_int_exact z Hz) as (m & a & E & Ha & Hm & Hv).
  exists m, (- a). repeat split; try assumption; try lia.
  rewrite Hv. unfold S200.
  replace 200 with (a + (- a + 200)) at 1 by lia.
  rewrite Z.pow_add_r by lia. ring.
Qed.

(** A quotient: [vz / S200] is [vx / vy] up to a factor between
    [(U52 - 1) / U52] and [(U52 + 1) / U52]. *)
Lemma div_fnorm (lo1 hi1 lo2 hi2 : Z) (x y : float64) (vx vy : Z) :
  fnorm lo1 hi1 x vx -> fnorm lo2 hi2 y vy ->
  -200 <= lo1 -> hi1 <= 200 -> -200 <= lo2 -> hi2 <= 200 ->
  -147 <= lo1 - hi2 ->
  exists vz,
    fnorm (lo1 - hi2 - 53) (hi1 - lo2 - 51) (div x y) vz
    /\ (U52 - 1) * (vz * vy) <= U52 * (vx * S200)
    /\ U52 * (vx * S200) <= (U52 + 1) * (vz * vy).
Proof.
  intros (mx & ex & -> & Hmx & Hex & ->) (my & ey & -> & Hmy & Hey & ->)
    L1 H1 L2 H2 L.
  destruct (div_normal mx my ex ey) as (mz & n & E & Hn & Hmz & Hlo & Hhi);
    [lia | lia | lia |].
  exists (Zpos mz * 2 ^ (ex - ey - 53 + n + 200)).
  split.
  - exists mz, (ex - ey - 53 + n). repeat split; try assumption; lia.
  - unfold S200, U52.
    set (G := 2 ^ (ex + 400 - 53)).
    assert (PG : 0 < G) by (apply Z.pow_pos_nonneg; lia).
    assert (Pn : 0 < 2 ^ n) by (apply Z.pow_pos_nonneg; lia).
    assert (E1 : Zpos mz * 2 ^ (ex - ey - 53 + n + 200)
                 * (Zpos my * 2 ^ (ey + 200))
                 = Zpos mz * 2 ^ n * Zpos my * G).
    { unfold G.
      replace (ex + 400 - 53)
        with ((ex - ey - 53 + n + 200) + (ey + 200) - n) by lia.
      assert (2 ^ (ex - ey - 53 + n + 200 + (ey + 200))
              = 2 ^ n * 2 ^ (ex - ey - 53 + n + 200 + (ey + 200) - n)).
      { rewrite <- Z.pow_add_r by lia. f_equal. lia. }
      rewrite Z.pow_add_r in H by lia. nia. }
    assert (E2 : Zpos mx * 2 ^ (ex + 200) * 2 ^ 200
                 = Zpos mx * 2 ^ 53 * G).
    { assert (HH : 2 ^ (ex + 200) * 2 ^ 200 = 2 ^ 53 * G).
      { unfold G. rewrite <- !Z.pow_add_r by lia. f_equal. lia. }
      rewrite <- Z.mul_assoc, HH. ring. }
    rewrite E1, E2.
    assert (A1 : (Zpos mz - 1) * 2 ^ n * Zpos my * G
                 <= Zpos mx * 2 ^ 53 * G)
      by (apply Z.mul_le_mono_nonneg_r; lia).
    assert (A2 : Zpos mx * 2 ^ 53 * G
                 <= (Zpos mz + 1) * 2 ^ n * Zpos my * G)
      by (apply Z.mul_le_mono_nonneg_r; lia).
    assert (0 < 2 ^ n * Zpos my * G) by nia.
    remember (2 ^ n * Zpos my * G) as Q eqn:EQ.
    replace (Zpos mz * 2 ^ n * Zpos my * G) with (Zpos mz * Q) by (subst Q; ring).
    replace ((Zpos mz - 1) * 2 ^ n * Zpos my * G) with ((Zpos mz - 1) * Q) in A1
      by (subst Q; ring).
    replace ((Zpos mz + 1) * 2 ^ n * Zpos my * G) with ((Zpos mz + 1) * Q) in A2
      by (subst Q; ring).
    remember (Zpos mx * 2 ^ 53 * G) as X eqn:EX.
    clear - A1 A2 H Hmz. split; nia.
Qed.

(** A product, with the same relative error. *)
Lemma mul_fnorm (lo1 hi1 lo2 hi2 : Z) (x y : float64) (vx vy : Z) :
  fnorm lo1 hi1 x vx -> fnorm lo2 hi2 y vy ->
  -200 <= lo1 -> hi1 <= 200 -> -200 <= lo2 -> hi2 <= 200 ->
  -252 <= lo1 + lo2 ->
  exists vz,
    fnorm (lo1 + lo2 + 52) (hi1 + hi2 + 54) (mul x y) vz
    /\ (U52 - 1) * (vz * S200) <= U52 * (vx * vy)
    /\ U52 * (vx * vy) <= (U52 + 1) * (vz * S200).
Proof.
  intros (mx & ex & -> & Hmx & Hex & ->) (my & ey & -> & Hmy & Hey & ->)
    L1 H1 L2 H2 L.
  destruct (mul_normal mx my ex ey) as (mz & n & E & Hn & Hmz & Hlo & Hhi);
    [lia | lia | lia |].
  exists (Zpos mz * 2 ^ (ex + ey + n + 200)).
  split.
  - exists mz, (ex + ey + n). repeat split; try assumption; lia.
  - unfold S200, U52.
    set (G := 2 ^ (ex + ey + 400)).
    assert (PG : 0 < G) by (apply Z.pow_pos_nonneg; lia).
    assert (Pn : 0 < 2 ^ n) by (apply Z.pow_pos_nonneg; lia).
    assert (E1 : Zpos mz * 2 ^ (ex + ey + n + 200) * 2 ^ 200
                 = Zpos mz * 2 ^ n * G).
    { assert (HH : 2 ^ (ex + ey + n + 200) * 2 ^ 200 = 2 ^ n * G).
      { unfold G. rewrite <- !Z.pow_add_r by lia. f_equal. lia. }
      rewrite <- Z.mul_assoc, HH. ring. }
    assert (E2 : Zpos mx * 2 ^ (ex + 200) * (Zpos my * 2 ^ (ey + 200))
                 = Zpos mx * Zpos my * G).
    { assert (HH : 2 ^ (ex + 200) * 2 ^ (ey + 200) = G).
      { unfold G. rewrite <- !Z.pow_add_r by lia. f_equal. lia. }
      rewrite <- HH. ring. }
    rewrite E1, E2.
    assert (A1 : (Zpos mz - 1) * 2 ^ n * G <= Zpos mx * Zpos my * G)
      by (apply Z.mul_le_mono_nonneg_r; lia).
    assert (A2 : Zpos mx * Zpos my * G <= (Zpos mz + 1) * 2 ^ n * G)
      by (apply Z.mul_le_mono_nonneg_r; lia).
    assert (0 < 2 ^ n * G) by nia.
    remember (2 ^ n * G) as Q eqn:EQ.
    replace (Zpos mz * 2 ^ n * G) with (Zpos mz * Q) by (subst Q; ring).
    replace ((Zpos mz - 1) * 2 ^ n * G) with ((Zpos mz - 1) * Q) in A1
      by (subst Q; ring).
    replace ((Zpos mz + 1) * 2 ^ n * G) with ((Zpos mz + 1) * Q) in A2
      by (subst Q; ring).
    remember (Zpos mx * Zpos my * G) as X eqn:EX.
    clear - A1 A2 H Hmz. split; nia.
Qed.

(** A square root: the square of the result is the argument up to the
    square of that factor. *)
Lemma sqrt_fnorm (lo hi lo' hi' : Z) (x : float64) (vx : Z) :
  fnorm lo hi x vx ->
  -200 <= lo -> hi <= 200 -> 2 * lo' <= lo - 53 -> hi - 48 <= 2 * hi' ->
  -200 <= lo' ->
  exists vz,
    fnorm lo' hi' (Sqrt x) vz
    /\ (U52 - 1) * (U52 - 1) * (vz * vz) <= U52 * U52 * (vx * S200)
    /\ U52 * U52 * (vx * S200) <= (U52 + 1) * (U52 + 1) * (vz * vz).
Proof.
  intros (mx & ex & -> & Hmx & Hex & ->) L H Hlo' Hhi' L'.
  destruct (sqrt_normal mx ex)
    as (mz & n & s & e' & E & Eex & Hs & Hn & Hmz & Hlo & Hhi); [lia | lia |].
  exists (Zpos mz * 2 ^ (e' + n + 200)).
  split.
  - exists mz, (e' + n). repeat split; try assumption; lia.
  - unfold S200, U52.
    set (G := 2 ^ (2 * e' + 400)).
    assert (PG : 0 < G) by (apply Z.pow_pos_nonneg; lia).
    assert (Pn : 0 < 2 ^ n) by (apply Z.pow_pos_nonneg; lia).
    assert (E1 : Zpos mz * 2 ^ (e' + n + 200) * (Zpos mz * 2 ^ (e' + n + 200))
                 = (Zpos mz * 2 ^ n) * (Zpos mz * 2 ^ n) * G).
    { assert (HH : 2 ^ (e' + n + 200) = 2 ^ n * 2 ^ (e' + 200)).
      { rewrite <- !Z.pow_add_r by lia. f_equal. lia. }
      assert (HG : G = 2 ^ (e' + 200) * 2 ^ (e' + 200)).
      { unfold G. rewrite <- !Z.pow_add_r by lia. f_equal. lia. }
      rewrite HH, HG. ring. }
    assert (E2 : Zpos mx * 2 ^ (ex + 200) * 2 ^ 200 = Zpos mx * 2 ^ s * G).
    { assert (HH : 2 ^ (ex + 200) * 2 ^ 200 = 2 ^ s * G).
      { unfold G. rewrite <- !Z.pow_add_r by lia. f_equal. lia. }
      rewrite <- Z.mul_assoc, HH. ring. }
    rewrite E1, E2.
    remember (Zpos mz * 2 ^ n) as Z0 eqn:EZ0.
    remember (Zpos mx * 2 ^ s) as X eqn:EX.
    assert (Hlo2 : (Z0 - 2 ^ n) * (Z0 - 2 ^ n) <= X).
    { replace (Z0 - 2 ^ n) with ((Zpos mz - 1) * 2 ^ n) by (subst Z0; ring).
      exact Hlo. }
    assert (Hhi2 : X < (Z0 + 2 ^ n) * (Z0 + 2 ^ n)).
    { replace (Z0 + 2 ^ n) with ((Zpos mz + 1) * 2 ^ n) by (subst Z0; ring).
      exact Hhi. }
    assert (HZ0 : 2 ^ 52 * 2 ^ n <= Z0) by (subst Z0; nia).
    remember (2 ^ n) as N eqn:EN.
    assert (A1 : (2 ^ 52 - 1) * Z0 <= 2 ^ 52 * (Z0 - N)) by nia.
    assert (A2 : 2 ^ 52 * (Z0 + N) <= (2 ^ 52 + 1) * Z0) by nia.
    assert (B1 : ((2 ^ 52 - 1) * Z0) * ((2 ^ 52 - 1) * Z0)
                 <= (2 ^ 52 * (Z0 - N)) * (2 ^ 52 * (Z0 - N))).
    { apply Z.mul_le_mono_nonneg; nia. }
    assert (B2 : (2 ^ 52 * (Z0 + N)) * (2 ^ 52 * (Z0 + N))
                 <= ((2 ^ 52 + 1) * Z0) * ((2 ^ 52 + 1) * Z0)).
    { apply Z.mul_le_mono_nonneg; nia. }
    clear - B1 B2 Hlo2 Hhi2 PG.
    split.
    + replace ((2 ^ 52 - 1) * (2 ^ 52 - 1) * (Z0 * Z0 * G))
        with (((2 ^ 52 - 1) * Z0) * ((2 ^ 52 - 1) * Z0) * G) by ring.
      replace (2 ^ 52 * 2 ^ 52 * (X * G)) with ((2 ^ 52 * 2 ^ 52 * X) * G) by ring.
      apply Z.mul_le_mono_nonneg_r; [lia|]. nia.
    + replace ((2 ^ 52 + 1) * (2 ^ 52 + 1) * (Z0 * Z0 * G))
        with (((2 ^ 52 + 1) * Z0) * ((2 ^ 52 + 1) * Z0) * G) by ring.
      replace (2 ^ 52 * 2 ^ 52 * (X * G)) with ((2 ^ 52 * 2 ^ 52 * X) * G) by ring.
      apply Z.mul_le_mono_nonneg_r; [lia|]. nia.
Qed.

Section Integers.
Variable undef_int : float64 -> Z.

(** Non-negative values below [2^63] are [int64] values. *)
Lemma in_range_small (z : Z) : 0 <= z < 2 ^ 63 -> Int64.in_range z = true.
Proof.
  intros Hz. unfold Int64.in_range, Int64.min_int, Int64.max_int.
  apply andb_true_intro. split; apply Z.leb_le; lia.
Qed.

(** [int(float64(z))] is [z] below [2^53]. *)
Lemma to_int_of_int (z : Z) :
  0 <= z < 2 ^ 53 -> to_int undef_int (of_int z) = z.
Proof.
  intros Hz. destruct (Z.eq_dec z 0) as [-> | Hne].
  - apply to_int_zero.
  - destruct (of_int_exact z) as (m & a & E & Ha & Hm & Hv); [lia|].
    rewrite E. unfold to_int, truncate, cond_Zopp.
    assert (Pa : 0 < 2 ^ a) by (apply Z.pow_pos_nonneg; lia).
    destruct (Z.leb_spec 0 (- a)).
    + assert (a = 0) by lia. subst a. simpl Z.opp.
      rewrite Z.shiftl_0_r. rewrite Hv. rewrite Z.pow_0_r, Z.mul_1_r.
      rewrite in_range_small by lia. reflexivity.
    + rewrite Z.opp_involutive. rewrite Z.shiftr_div_pow2 by lia.
      rewrite Hv. rewrite Z.div_mul by lia.
      rewrite in_range_small by lia. reflexivity.
Qed.

(** [int(math.Floor(f))] and [int(f)] are the integer part of a positive
    float below [2^62]. *)
Lemma floor_fnorm (lo hi : Z) (f : float64) (v : Z) :
  fnorm lo hi f v -> -200 <= lo -> hi <= 9 ->
  exists k,
    to_int undef_int (Floor f) = k /\ to_int undef_int f = k
    /\ 0 <= k < 2 ^ 62 /\ k * S200 <= v < (k + 1) * S200.
Proof.
  intros (m & e & -> & Hm & He & ->) L H.
  unfold Floor, S200.
  destruct (Z.leb_spec 0 e) as [Hge | Hlt].
  - exists (Zpos m * 2 ^ e).
    assert (Pe : 0 < 2 ^ e) by (apply Z.pow_pos_nonneg; lia).
    assert (He9 : 2 ^ e <= 2 ^ 9) by (apply Z.pow_le_mono_r; lia).
    assert (Hk : 0 <= Zpos m * 2 ^ e < 2 ^ 62).
    { change (2 ^ 62) with (2 ^ 53 * 2 ^ 9). nia. }
    assert (T : to_int undef_int (S754_finite false m e) = Zpos m * 2 ^ e).
    { unfold to_int, truncate, cond_Zopp.
      destruct (Z.leb_spec 0 e); [|lia].
      rewrite Z.shiftl_mul_pow2 by lia.
      rewrite in_range_small by lia. reflexivity. }
    repeat split; try assumption; try lia.
    + rewrite Z.pow_add_r by lia. lia.
    + rewrite Z.pow_add_r by lia. nia.
  - set (z := Zpos m / 2 ^ (- e)).
    assert (Pe : 0 < 2 ^ (- e)) by (apply Z.pow_pos_nonneg; lia).
    pose proof (Z.div_mod (Zpos m) (2 ^ (- e)) ltac:(lia)) as Hdm.
    pose proof (Z.mod_pos_bound (Zpos m) (2 ^ (- e)) Pe) as Hmb.
    fold z in Hdm.
    assert (Hz0 : 0 <= z) by (apply Z.div_pos; lia).
    assert (Hz : z < 2 ^ 53) by nia.
    exists z.
    assert (T : to_int undef_int (S754_finite false m e) = z).
    { unfold to_int, truncate, cond_Zopp.
      destruct (Z.leb_spec 0 e); [lia|].
      rewrite Z.shiftr_div_pow2 by lia. fold z.
      rewrite in_range_small by lia. reflexivity. }
    assert (F : binary_normalize prec emax
                  (Z.shiftr (cond_Zopp false (Zpos m)) (- e)) 0 false
                = of_int z).
    { unfold of_int, cond_Zopp. rewrite Z.shiftr_div_pow2 by lia.
      reflexivity. }
    rewrite F, to_int_of_int by lia.
    assert (ES : 2 ^ 200 = 2 ^ (- e) * 2 ^ (e + 200)).
    { rewrite <- Z.pow_add_r by lia. f_equal. lia. }
    assert (P2 : 0 < 2 ^ (e + 200)) by (apply Z.pow_pos_nonneg; lia).
    repeat split; try assumption; try lia.
    + rewrite ES. nia.
    + rewrite ES. nia.
Qed.

End Integers.

End FixedPoint.

(** * Integer inequalities of the solver *)

(** The steps of the loop read over the integers.  [S] is the scale of the
    fixed-point reading and [U] the weight of the leading bit of a
    significand, so that a rounded operation is off by a factor between
    [(U - 1) / U] and [(U + 1) / U]; [vr], [vp], [vq], [vd] and [ve] are
    the scaled values of the aspect ratio, of a product, of a quotient, of
    a denominator and of an estimate. *)

Module SolverArith.

(** A positive common factor cancels. *)
Lemma le_cancel_r (a b c : Z) : 0 < c -> a * c <= b * c -> a <= b.
Proof. intros Hc H. nia. Qed.

Lemma lt_cancel_r (a b c : Z) : 0 < c -> a * c < b * c -> a < b.
Proof. intros Hc H. nia. Qed.

(** The width [w] of a candidate of height [h] is at most
    [(W / H) * h], up to two roundings. *)
Lemma width_bound (U S vr vp W H h w : Z) :
  1 < U -> 0 < S -> 0 < H -> 0 <= W -> 0 <= h -> 0 <= w -> 0 <= vr ->
  (U - 1) * vp <= U * (vr * h) ->
  (U - 1) * (vr * H) <= U * (W * S) ->
  w * S <= vp ->
  w * H * ((U - 1) * (U - 1)) <= U * U * (W * h).
Proof.
  intros HU HS HH HW Hh Hw Hvr M R F.
  apply le_cancel_r with (c := S); [assumption|].
  assert (L1 : w * S * (H * ((U - 1) * (U - 1)))
               <= vp * (H * ((U - 1) * (U - 1))))
    by (apply Z.mul_le_mono_nonneg_r; nia).
  assert (L2 : (U - 1) * vp * (H * (U - 1))
               <= U * (vr * h) * (H * (U - 1)))
    by (apply Z.mul_le_mono_nonneg_r; nia).
  assert (L3 : (U - 1) * (vr * H) * (U * h) <= U * (W * S) * (U * h))
    by (apply Z.mul_le_mono_nonneg_r; nia).
  nia.
Qed.

(** A candidate whose height is within the bound of the first estimate
    takes, before padding, at most four times the budget. *)
Lemma area_bound (U W H h w bpp B : Z) :
  4 <= U -> 0 < H -> 0 <= W -> 0 <= h -> 0 <= w -> 0 < bpp -> 0 <= B ->
  w * H * ((U - 1) * (U - 1)) <= U * U * (W * h) ->
  h * h * bpp * W <= 2 * B * H ->
  w * bpp * h < 4 * B + 1.
Proof.
  intros HU HH HW Hh Hw Hb HB A I.
  assert (L1 : w * H * ((U - 1) * (U - 1)) * (bpp * h)
               <= U * U * (W * h) * (bpp * h))
    by (apply Z.mul_le_mono_nonneg_r; nia).
  assert (L2 : U * U * (h * h * bpp * W) <= U * U * (2 * B * H))
    by (apply Z.mul_le_mono_nonneg_l; nia).
  assert (L3 : (w * bpp * h) * ((U - 1) * (U - 1)) * H
               <= (2 * B * (U * U)) * H) by nia.
  apply le_cancel_r in L3; [|assumption].
  assert (L4 : U * U < 2 * ((U - 1) * (U - 1))) by nia.
  assert (P : 0 < (U - 1) * (U - 1)) by nia.
  remember ((U - 1) * (U - 1)) as c eqn:Ec.
  remember (U * U) as c2 eqn:Ec2.
  remember (w * bpp * h) as x eqn:Ex.
  assert (0 <= x) by (subst x; nia).
  clear - L3 L4 P HB H0. nia.
Qed.

(** The height computed from a snapped width [nw <= w] is at most the
    height [h] of the candidate. *)
Lemma snapped_height_bound (U S vr vp vq h w nw nh : Z) :
  4 <= U -> 0 < S -> 0 < vr -> 0 <= h -> 2 * h < U - 1 ->
  0 <= nw <= w -> 0 <= nh ->
  (U - 1) * (vq * vr) <= U * (nw * S * S) ->
  w * S <= vp ->
  (U - 1) * vp <= U * (vr * h) ->
  nh * S <= vq ->
  nh <= h.
Proof.
  intros HU HS Hvr Hh Hh2 Hnw Hnh D F M T.
  assert (L1 : nh * S * (vr * ((U - 1) * (U - 1)))
               <= vq * (vr * ((U - 1) * (U - 1))))
    by (apply Z.mul_le_mono_nonneg_r; nia).
  assert (L2 : (U - 1) * (vq * vr) * (U - 1)
               <= U * (nw * S * S) * (U - 1))
    by (apply Z.mul_le_mono_nonneg_r; nia).
  assert (L3 : U * (nw * S * S) * (U - 1) <= U * (w * S * S) * (U - 1)).
  { apply Z.mul_le_mono_nonneg_r; [lia|].
    apply Z.mul_le_mono_nonneg_l; [lia|]. nia. }
  assert (L4 : U * S * (w * S) * (U - 1) <= U * S * vp * (U - 1)).
  { apply Z.mul_le_mono_nonneg_r; [lia|].
    apply Z.mul_le_mono_nonneg_l; nia. }
  assert (L5 : U * S * ((U - 1) * vp) <= U * S * (U * (vr * h)))
    by (apply Z.mul_le_mono_nonneg_l; nia).
  assert (L6 : (nh * ((U - 1) * (U - 1))) * (S * vr)
               <= (U * U * h) * (S * vr)) by nia.
  apply le_cancel_r in L6; [|nia].
  (* nh (U-1)^2 <= U^2 h < (h+1) (U-1)^2 *)
  assert (L7 : U * U * h < (h + 1) * ((U - 1) * (U - 1))) by nia.
  assert (P : 0 < (U - 1) * (U - 1)) by nia.
  remember ((U - 1) * (U - 1)) as c eqn:Ec.
  clear - L6 L7 P. nia.
Qed.

(** After a candidate of height [h] whose [s * h] bytes are above the
    budget, the next estimate gives a smaller height. *)
Lemma next_height_smaller (S ve vq vd h h' s bpp B : Z) :
  let U := 2 ^ 52 in
  0 < S -> 1 <= h -> 1 <= s < 2 ^ 49 -> 1 <= bpp -> 0 <= h' -> 0 < vd ->
  0 <= vq -> 0 <= ve ->
  B < s * h ->
  U * (s * bpp * S) <= (U + 1) * vd ->
  (U - 1) * (vq * vd) <= U * (B * S * S) ->
  (U - 1) * (U - 1) * (ve * ve) <= U * U * (vq * S) ->
  h' * S <= ve ->
  h' < h.
Proof.
  intros U HS Hh Hs Hb Hh' Hvd Hvq Hve Hrej Md Dq Sq F.
  destruct (Z_lt_ge_dec h' h) as [|Hge]; [assumption|exfalso].
  assert (HU : U = 2 ^ 52) by reflexivity.
  clearbody U.
  (* h^2 S^2 <= ve^2 *)
  assert (L0 : h * S <= ve) by nia.
  assert (L1 : (h * S) * (h * S) <= ve * ve)
    by (apply Z.mul_le_mono_nonneg; nia).
  (* chain to B *)
  assert (P1 : 0 <= (U - 1) * (U - 1)) by nia.
  assert (L2 : (U - 1) * (U - 1) * ((h * S) * (h * S))
               <= U * U * (vq * S)) by nia.
  assert (L3 : (U - 1) * (U - 1) * ((h * S) * (h * S)) * ((U - 1) * vd)
               <= U * U * (vq * S) * ((U - 1) * vd))
    by (apply Z.mul_le_mono_nonneg_r; nia).
  assert (L4 : U * U * S * ((U - 1) * (vq * vd))
               <= U * U * S * (U * (B * S * S)))
    by (apply Z.mul_le_mono_nonneg_l; nia).
  assert (L5 : (U - 1) * (U - 1) * (U - 1) * (h * h) * vd * (S * S)
               <= (U * U * U * B * S) * (S * S)) by nia.
  apply le_cancel_r in L5; [|nia].
  assert (L6 : (U - 1) * (U - 1) * (U - 1) * (h * h) * (U * (s * bpp * S))
               <= (U - 1) * (U - 1) * (U - 1) * (h * h) * ((U + 1) * vd))
    by (apply Z.mul_le_mono_nonneg_l; nia).
  assert (L7 : ((U - 1) * (U - 1) * (U - 1) * (h * h) * (s * bpp)) * (U * S)
               <= (U * U * (U + 1) * B) * (U * S)) by nia.
  apply le_cancel_r in L7; [|nia].
  assert (L8 : (U - 1) * (U - 1) * (U - 1) * (h * h) * s
               <= (U - 1) * (U - 1) * (U - 1) * (h * h) * (s * bpp)).
  { apply Z.mul_le_mono_nonneg_l; nia. }
  assert (L9 : U * U * (U + 1) * B <= U * U * (U + 1) * (s * h - 1))
    by (apply Z.mul_le_mono_nonneg_l; nia).
  assert (K : (U - 1) * (U - 1) * (U - 1) * (h * h) * s
              <= U * U * (U + 1) * (s * h - 1)) by lia.
  clear - K Hh Hs HU. subst U.
  destruct (Z.eq_dec h 1) as [-> | Hne].
  - lia.
  - assert (2 <= h) by lia.
    assert (2 * (s * h) <= h * h * s) by nia.
    remember (s * h) as sh. remember (h * h * s) as hhs.
    assert (0 < sh) by nia.
    replace ((2 ^ 52 - 1) * (2 ^ 52 - 1) * (2 ^ 52 - 1) * (h * h) * s)
      with ((2 ^ 52 - 1) * (2 ^ 52 - 1) * (2 ^ 52 - 1) * hhs) in K by (subst hhs; ring).
    lia.
Qed.

(** The height [h] of the first estimate: [h^2 * bpp * W / H] is at most
    twice the budget. *)
Lemma first_height_bound (S vr vd vq ve W H h bpp B : Z) :
  let U := 2 ^ 52 in
  0 < S -> 0 < W -> 0 < H -> 0 <= h -> 1 <= bpp -> 0 <= B ->
  0 < vr -> 0 < vd -> 0 <= vq -> 0 <= ve ->
  U * (W * S) <= (U + 1) * (vr * H) ->
  U * (bpp * vr) <= (U + 1) * vd ->
  (U - 1) * (vq * vd) <= U * (B * S * S) ->
  (U - 1) * (U - 1) * (ve * ve) <= U * U * (vq * S) ->
  h * S <= ve ->
  h * h * bpp * W <= 2 * B * H.
Proof.
  intros U HS HW HH Hh Hb HB Hvr Hvd Hvq Hve R Md Dq Sq F.
  assert (HU : U = 2 ^ 52) by reflexivity.
  assert (HU4 : 4 <= U) by (subst U; lia).
  clearbody U.
  assert (L1 : (h * S) * (h * S) <= ve * ve)
    by (apply Z.mul_le_mono_nonneg; nia).
  assert (L2 : (U - 1) * (U - 1) * ((h * S) * (h * S))
               <= U * U * (vq * S)) by nia.
  assert (L3 : (U - 1) * (U - 1) * ((h * S) * (h * S)) * ((U - 1) * vd)
               <= U * U * (vq * S) * ((U - 1) * vd))
    by (apply Z.mul_le_mono_nonneg_r; nia).
  assert (L4 : U * U * S * ((U - 1) * (vq * vd))
               <= U * U * S * (U * (B * S * S)))
    by (apply Z.mul_le_mono_nonneg_l; nia).
  assert (L5 : (U - 1) * (U - 1) * (U - 1) * (h * h) * vd * (S * S)
               <= (U * U * U * B * S) * (S * S)) by nia.
  apply le_cancel_r in L5; [|nia].
  (* vd >= U bpp vr / (U+1) *)
  assert (L6 : (U - 1) * (U - 1) * (U - 1) * (h * h) * (U * (bpp * vr))
               <= (U - 1) * (U - 1) * (U - 1) * (h * h) * ((U + 1) * vd))
    by (apply Z.mul_le_mono_nonneg_l; nia).
  assert (L7 : ((U - 1) * (U - 1) * (U - 1) * (h * h) * bpp * vr) * U
               <= (U * U * (U + 1) * B * S) * U) by nia.
  apply le_cancel_r in L7; [|lia].
  (* vr H >= U W S / (U+1) *)
  assert (L8 : (U - 1) * (U - 1) * (U - 1) * (h * h) * bpp * (U * (W * S))
               <= (U - 1) * (U - 1) * (U - 1) * (h * h) * bpp * ((U + 1) * (vr * H)))
    by (apply Z.mul_le_mono_nonneg_l; nia).
  assert (L9 : ((U - 1) * (U - 1) * (U - 1) * (h * h) * bpp * vr) * ((U + 1) * H)
               <= (U * U * (U + 1) * B * S) * ((U + 1) * H))
    by (apply Z.mul_le_mono_nonneg_r; nia).
  assert (L10 : ((U - 1) * (U - 1) * (U - 1) * (h * h * bpp * W)) * (U * S)
                <= (U * (U + 1) * (U + 1) * B * H) * (U * S)) by nia.
  apply le_cancel_r in L10; [|nia].
  assert (L11 : U * (U + 1) * (U + 1) <= 2 * ((U - 1) * (U - 1) * (U - 1))) by nia.
  assert (P : 0 < (U - 1) * (U - 1) * (U - 1)) by nia.
  remember ((U - 1) * (U - 1) * (U - 1)) as c eqn:Ec.
  remember (U * (U + 1) * (U + 1)) as c2 eqn:Ec2.
  remember (h * h * bpp * W) as x eqn:Ex.
  assert (0 <= B * H) by nia.
  assert (L12 : c * x <= c2 * (B * H)) by lia.
  remember (B * H) as y.
  assert (L13 : c * x <= c * (2 * y)) by nia.
  assert (L14 : x <= 2 * y) by (clear - L13 P; nia).
  subst x y. lia.
Qed.

(** A smaller height gives a width that is not larger. *)
Lemma width_monotone (U S vr vp vp' h h' w w' : Z) :
  4 <= U -> 0 < S -> 0 < vr -> 0 <= h' -> h' < h -> 2 * h <= U ->
  0 <= w -> 0 <= w' ->
  w' * S <= vp' ->
  (U - 1) * vp' <= U * (vr * h') ->
  vp < (w + 1) * S ->
  U * (vr * h) <= (U + 1) * vp ->
  w' <= w.
Proof.
  intros HU HS Hvr Hh' Hlt Hh Hw Hw' F' M' F M.
  assert (L1 : w' * S * ((U - 1) * (U + 1)) <= vp' * ((U - 1) * (U + 1)))
    by (apply Z.mul_le_mono_nonneg_r; nia).
  assert (L2 : (U - 1) * vp' * (U + 1) <= U * (vr * h') * (U + 1))
    by (apply Z.mul_le_mono_nonneg_r; nia).
  assert (L3 : U * (vr * h') * (U + 1) <= U * (vr * h) * (U - 1)).
  { assert (h' * (U + 1) <= h * (U - 1)) by nia.
    assert (U * vr * (h' * (U + 1)) <= U * vr * (h * (U - 1)))
      by (apply Z.mul_le_mono_nonneg_l; nia).
    lia. }
  assert (L4 : U * (vr * h) * (U - 1) <= (U + 1) * vp * (U - 1))
    by (apply Z.mul_le_mono_nonneg_r; nia).
  assert (L5 : vp * ((U + 1) * (U - 1)) < (w + 1) * S * ((U + 1) * (U - 1)))
    by (apply Z.mul_lt_mono_pos_r; nia).
  assert (L6 : w' * (S * ((U - 1) * (U + 1))) < (w + 1) * (S * ((U - 1) * (U + 1))))
    by lia.
  apply lt_cancel_r in L6; [lia | nia].
Qed.

(** The quotient of a snapped width by the aspect ratio is at most the
    height of the candidate, up to three roundings. *)
Lemma quotient_value_bound (U S vr vp vq h w nw : Z) :
  4 <= U -> 0 < S -> 0 < vr -> 0 <= h ->
  0 <= nw <= w -> 0 <= vq ->
  (U - 1) * (vq * vr) <= U * (nw * S * S) ->
  w * S <= vp ->
  (U - 1) * vp <= U * (vr * h) ->
  vq * ((U - 1) * (U - 1)) <= U * U * (h * S).
Proof.
  intros HU HS Hvr Hh Hnw Hvq D F M.
  assert (L2 : (U - 1) * (vq * vr) * (U - 1)
               <= U * (nw * S * S) * (U - 1))
    by (apply Z.mul_le_mono_nonneg_r; nia).
  assert (L3 : U * (nw * S * S) * (U - 1) <= U * (w * S * S) * (U - 1)).
  { apply Z.mul_le_mono_nonneg_r; [lia|].
    apply Z.mul_le_mono_nonneg_l; [lia|]. nia. }
  assert (L4 : U * S * (w * S) * (U - 1) <= U * S * vp * (U - 1)).
  { apply Z.mul_le_mono_nonneg_r; [lia|].
    apply Z.mul_le_mono_nonneg_l; nia. }
  assert (L5 : U * S * ((U - 1) * vp) <= U * S * (U * (vr * h)))
    by (apply Z.mul_le_mono_nonneg_l; nia).
  assert (L6 : (vq * ((U - 1) * (U - 1))) * vr
               <= (U * U * (h * S)) * vr) by nia.
  apply le_cancel_r in L6; assumption.
Qed.

(** Padding a row never shrinks it and adds less than one alignment. *)
Lemma padded_row_bounds (x a : Z) :
  0 <= x -> 0 < a -> x <= (x + a - 1) / a * a <= x + a - 1.
Proof.
  intros Hx Ha.
  pose proof (Z.div_mod (x + a - 1) a ltac:(lia)) as Hdm.
  pose proof (Z.mod_pos_bound (x + a - 1) a Ha) as Hmb.
  nia.
Qed.

(** Padding keeps the order of the rows. *)
Lemma padded_row_monotone (x y a : Z) :
  0 <= x <= y -> 0 < a -> (x + a - 1) / a * a <= (y + a - 1) / a * a.
Proof.
  intros Hxy Ha.
  apply Z.mul_le_mono_nonneg_r; [lia|].
  apply Z.div_le_mono; lia.
Qed.

End SolverArith.

(** * The solver on inputs of ordinary size *)

Module BoundedSolver.
Import Float64Facts FixedPoint SolverArith.

(** An [int64] operation whose exact result is in range does not wrap. *)
Lemma wrap_small (z : Z) : - 2 ^ 63 <= z < 2 ^ 63 -> Int64.wrap z = z.
Proof.
  intros Hz. unfold Int64.wrap.
  rewrite Z.mod_small by (change (2 ^ 64) with (2 ^ 63 + 2 ^ 63); lia). lia.
Qed.

(** The original is below [2^31] pixels in each dimension, a pixel takes
    1 or 4 bytes, rows are padded to at most [2^20] bytes, the budget is
    below [2^46] bytes; [r], of scaled value [vr], is the aspect ratio as
    the solver computes it. *)
Section Bounded.
Variable undef_int : float64 -> Z.
Variables W H bpp a B dpi : Z.
Hypothesis HW : 0 < W < 2 ^ 31.
Hypothesis HH : 0 < H < 2 ^ 31.
Hypothesis Hbpp : bpp = 1 \/ bpp = 4.
Hypothesis Ha : 0 < a <= 2 ^ 20.
Hypothesis HB : 0 < B < 2 ^ 46.
Hypothesis Hdpi : 1 <= dpi < 2 ^ 63.
Variable r : float64.
Variable vr : Z.
Hypothesis Hr : fnorm (-105) 1 r vr.
Hypothesis R1 : (U52 - 1) * (vr * H) <= U52 * (W * S200).

Lemma vr_pos : 0 < vr.
Proof. apply (fnorm_pos _ _ _ _ Hr). lia. Qed.

Lemma U52_val : U52 = 2 ^ 52.
Proof. reflexivity. Qed.

(** A height within the bound of the first estimate is below [2^39]. *)
Lemma height_small (h : Z) :
  0 <= h -> h * h * bpp * W <= 2 * B * H -> h < 2 ^ 39.
Proof.
  intros Hh I.
  assert (Hb : 1 <= bpp) by lia.
  assert (L1 : h * h * 1 <= h * h * (bpp * W))
    by (apply Z.mul_le_mono_nonneg_l; nia).
  assert (L2 : 2 * B * H < 2 * 2 ^ 46 * 2 ^ 31) by nia.
  destruct (Z_lt_ge_dec h (2 ^ 39)) as [|Hge]; [assumption|exfalso].
  assert (L3 : 2 ^ 39 * 2 ^ 39 <= h * h)
    by (apply Z.mul_le_mono_nonneg; lia).
  change (2 ^ 39 * 2 ^ 39) with (2 * 2 ^ 46 * 2 ^ 31) in L3. lia.
Qed.

(** The width of the candidate of height [h]. *)
Lemma width_facts (h : Z) :
  0 <= h -> h * h * bpp * W <= 2 * B * H ->
  exists w vp,
    to_int undef_int (Floor (mul r (of_int h))) = w
    /\ 0 <= w /\ 0 <= vp
    /\ w * S200 <= vp < (w + 1) * S200
    /\ (U52 - 1) * vp <= U52 * (vr * h)
    /\ U52 * (vr * h) <= (U52 + 1) * vp.
Proof.
  intros Hh I.
  pose proof S200_pos as HS. pose proof vr_pos as Hvr.
  destruct (Z.eq_dec h 0) as [-> | Hne].
  - exists 0, 0.
    destruct Hr as (m & e & -> & _).
    change (Floor (mul (S754_finite false m e) (of_int 0)))
      with (S754_zero false).
    rewrite to_int_zero. repeat split; lia.
  - pose proof (height_small h Hh I) as Hsmall.
    assert (Hfh : fnorm (-52) 0 (of_int h) (h * S200))
      by (apply of_int_fnorm; lia).
    destruct (mul_fnorm _ _ _ _ _ _ _ _ Hr Hfh) as (vp & Hp & M1 & M2);
      try lia.
    assert (M1' : (U52 - 1) * vp <= U52 * (vr * h)).
    { apply le_cancel_r with (c := S200); [assumption|]. nia. }
    assert (M2' : U52 * (vr * h) <= (U52 + 1) * vp).
    { apply le_cancel_r with (c := S200); [assumption|]. nia. }
    assert (Hvp : 0 < vp) by (apply (fnorm_pos _ _ _ _ Hp); lia).
    (* value bound *)
    assert (Hb : 1 <= bpp) by lia.
    assert (Bd : vp < 2 ^ 48 * S200).
    { assert (L1 : (U52 - 1) * vp * ((U52 - 1) * H)
                   <= U52 * (vr * h) * ((U52 - 1) * H))
        by (apply Z.mul_le_mono_nonneg_r; [unfold U52; lia | exact M1']).
      assert (L2 : (U52 - 1) * (vr * H) * (U52 * h)
                   <= U52 * (W * S200) * (U52 * h))
        by (apply Z.mul_le_mono_nonneg_r; [unfold U52; lia | exact R1]).
      assert (L3 : W * h <= h * h * bpp * W).
      { replace (h * h * bpp * W) with ((W * h) * (h * bpp)) by ring.
        rewrite <- (Z.mul_1_r (W * h)) at 1.
        apply Z.mul_le_mono_nonneg_l; nia. }
      assert (L4 : U52 * U52 * S200 * (W * h)
                   <= U52 * U52 * S200 * (2 * B * H))
        by (apply Z.mul_le_mono_nonneg_l; [unfold U52; lia | lia]).
      assert (L5 : ((U52 - 1) * (U52 - 1) * vp) * H
                   <= (U52 * U52 * S200 * (2 * B)) * H) by nia.
      apply le_cancel_r in L5; [|lia].
      assert (L6 : U52 * U52 * S200 * (2 * B)
                   < U52 * U52 * S200 * (2 * 2 ^ 46))
        by (apply Z.mul_lt_mono_pos_l; [unfold U52; lia | lia]).
      assert (L7 : U52 * U52 * (2 * 2 ^ 46)
                   < (U52 - 1) * (U52 - 1) * 2 ^ 48)
        by (unfold U52; lia).
      assert (L8 : U52 * U52 * (2 * 2 ^ 46) * S200
                   < (U52 - 1) * (U52 - 1) * 2 ^ 48 * S200)
        by (apply Z.mul_lt_mono_pos_r; assumption).
      assert (L9 : vp * ((U52 - 1) * (U52 - 1))
                   < (2 ^ 48 * S200) * ((U52 - 1) * (U52 - 1))) by lia.
      apply lt_cancel_r in L9; [assumption | unfold U52; lia]. }
    pose proof (fnorm_exponent _ _ _ _ 48 Hp ltac:(lia) ltac:(lia) Bd) as Hp'.
    destruct (floor_fnorm undef_int _ _ _ _ Hp') as (w & Ew & _ & Hw & Fw);
      [lia | lia |].
    exists w, vp. repeat split; try assumption; lia.
Qed.


Lemma strideOf_exact (w : Z) :
  0 <= w -> w * bpp < 2 ^ 48 ->
  strideOf w bpp a = Done (paddedRow bpp a w).
Proof.
  intros Hw Hwb. unfold strideOf, paddedRow.
  destruct (Z.eqb_spec a 0) as [|_]; [lia|].
  assert (Hb : 1 <= bpp <= 4) by lia.
  pose proof (padded_row_bounds (w * bpp) a ltac:(nia) ltac:(lia)) as Hp.
  unfold Int64.mul, Int64.add, Int64.sub, Int64.quo.
  rewrite (wrap_small (w * bpp)) by nia.
  rewrite (wrap_small (w * bpp + a)) by nia.
  rewrite (wrap_small (w * bpp + a - 1)) by nia.
  rewrite Z.quot_div_nonneg by nia.
  assert (0 <= (w * bpp + a - 1) / a) by (apply Z.div_pos; nia).
  assert ((w * bpp + a - 1) / a <= w * bpp + a - 1).
  { apply Z.div_le_upper_bound; nia. }
  rewrite (wrap_small ((w * bpp + a - 1) / a)) by nia.
  rewrite wrap_small by nia. reflexivity.
Qed.

(** The candidate of an estimate whose height is within the bound of the
    first estimate: nothing wraps, and the total is the padded size. *)
Lemma candidate_facts (est : float64) (ve : Z) :
  fnorm (-107) 3 est ve ->
  let h := to_int undef_int (Floor est) in
  h * h * bpp * W <= 2 * B * H ->
  exists w vp,
    candidateOf undef_int r bpp a est
    = Done {| c_height := h; c_width := w; c_stride := paddedRow bpp a w;
              c_total := paddedRow bpp a w * h |}
    /\ 0 <= h < 2 ^ 39 /\ h * S200 <= ve < (h + 1) * S200
    /\ to_int undef_int (Floor (mul r (of_int h))) = w
    /\ 0 <= w /\ w * bpp < 2 ^ 48 /\ w * bpp * h < 4 * B + 1
    /\ 0 <= vp
    /\ w * S200 <= vp < (w + 1) * S200
    /\ (U52 - 1) * vp <= U52 * (vr * h)
    /\ U52 * (vr * h) <= (U52 + 1) * vp.
Proof.
  intros He h I.
  pose proof S200_pos as HS. pose proof vr_pos as Hvr.
  destruct (floor_fnorm undef_int _ _ _ _ He) as (k & Ek & _ & Hk & Fk);
    [lia | lia |].
  fold h in Ek. subst k.
  pose proof (height_small h ltac:(lia) I) as Hsmall.
  destruct (width_facts h ltac:(lia) I) as (w & vp & Ew & Hw & Hvp & Fw & M1 & M2).
  assert (Hb : 1 <= bpp <= 4) by lia.
  assert (HU : 4 <= U52) by (unfold U52; lia).
  assert (A : w * H * ((U52 - 1) * (U52 - 1)) <= U52 * U52 * (W * h)).
  { apply (width_bound U52 S200 vr vp W H h w); try lia. }
  assert (Ar : w * bpp * h < 4 * B + 1).
  { apply (area_bound U52 W H h w bpp B); try lia. }
  assert (Hwb : w * bpp < 2 ^ 48).
  { destruct (Z.eq_dec h 0) as [E0 | Hne].
    - rewrite E0 in M1. rewrite Z.mul_0_r, Z.mul_0_r in M1.
      assert (vp <= 0) by nia. assert (w = 0) by nia. subst w. lia.
    - assert (w * bpp * 1 <= w * bpp * h)
        by (apply Z.mul_le_mono_nonneg_l; nia). lia. }
  exists w, vp.
  split.
  - unfold candidateOf. fold h. rewrite Ew.
    rewrite strideOf_exact by assumption.
    unfold Int64.mul.
    pose proof (padded_row_bounds (w * bpp) a ltac:(nia) ltac:(lia)) as Hp.
    fold (paddedRow bpp a w) in Hp.
    rewrite wrap_small; [reflexivity|].
    assert (paddedRow bpp a w * h <= (w * bpp + a - 1) * h)
      by (apply Z.mul_le_mono_nonneg_r; lia).
    assert (a * h <= 2 ^ 20 * 2 ^ 39) by (apply Z.mul_le_mono_nonneg; lia).
    assert (0 <= paddedRow bpp a w * h) by nia.
    nia.
  - repeat split; try assumption; lia.
Qed.


(** An accepted candidate: the snapped width and the height computed
    from it stay within the candidate, hence within the budget. *)
Lemma accepted_facts (h w vp : Z) :
  0 <= h < 2 ^ 39 -> 0 <= w -> w * bpp < 2 ^ 48 -> 0 <= vp ->
  w * S200 <= vp < (w + 1) * S200 ->
  (U52 - 1) * vp <= U52 * (vr * h) ->
  paddedRow bpp a w * h <= B ->
  exists nw nh,
    snapToDPI undef_int r w dpi = Done (nw, nh)
    /\ 0 <= nw <= w /\ 0 <= nh <= h
    /\ paddedBytes nw bpp a nh <= B.
Proof.
  intros Hh Hw Hwb Hvp Fw M1 Hacc.
  pose proof S200_pos as HS. pose proof vr_pos as Hvr.
  assert (Hb : 1 <= bpp <= 4) by lia.
  assert (HU : 4 <= U52) by (unfold U52; lia).
  unfold snapToDPI.
  destruct (Z.eqb_spec dpi 0) as [|_]; [lia|].
  unfold Int64.sub, Int64.rem.
  pose proof (Z.rem_nonneg w dpi ltac:(lia) Hw) as Hr0.
  assert (Hrle : Z.rem w dpi <= w).
  { destruct (Z_lt_ge_dec w dpi).
    - rewrite Z.rem_small by lia. lia.
    - pose proof (Z.rem_bound_pos w dpi Hw ltac:(lia)). lia. }
  assert (Hw48 : w < 2 ^ 48) by nia.
  rewrite wrap_small by lia.
  set (nw := w - Z.rem w dpi).
  assert (Hnw : 0 <= nw <= w) by (unfold nw; lia).
  assert (Hnh : exists nh, to_int undef_int (div (of_int nw) r) = nh
                           /\ 0 <= nh <= h).
  { destruct (Z.eq_dec nw 0) as [E0 | Hne].
    - rewrite E0. destruct Hr as (m & e & -> & _).
      rewrite div_zero_finite, to_int_zero. exists 0. split; [reflexivity|lia].
    - assert (Hfn : fnorm (-52) 0 (of_int nw) (nw * S200))
        by (apply of_int_fnorm; lia).
      destruct (div_fnorm _ _ _ _ _ _ _ _ Hfn Hr) as (vq & Hq & D1 & D2);
        try lia.
      assert (Hvq : 0 < vq) by (apply (fnorm_pos _ _ _ _ Hq); lia).
      assert (Q : vq * ((U52 - 1) * (U52 - 1)) <= U52 * U52 * (h * S200)).
      { apply (quotient_value_bound U52 S200 vr vp vq h w nw); try lia. }
      assert (Bd : vq < 2 ^ 40 * S200).
      { assert (L1 : U52 * U52 * (h * S200) <= U52 * U52 * (2 ^ 39 * S200)).
        { apply Z.mul_le_mono_nonneg_l; [unfold U52; lia|].
          apply Z.mul_le_mono_nonneg_r; lia. }
        assert (L2 : U52 * U52 * 2 ^ 39 < (U52 - 1) * (U52 - 1) * 2 ^ 40)
          by (unfold U52; lia).
        assert (L3 : U52 * U52 * 2 ^ 39 * S200
                     < (U52 - 1) * (U52 - 1) * 2 ^ 40 * S200)
          by (apply Z.mul_lt_mono_pos_r; assumption).
        assert (L4 : vq * ((U52 - 1) * (U52 - 1))
                     < (2 ^ 40 * S200) * ((U52 - 1) * (U52 - 1))) by lia.
        apply lt_cancel_r in L4; [assumption | unfold U52; lia]. }
      pose proof (fnorm_exponent _ _ _ _ 40 Hq ltac:(lia) ltac:(lia) Bd) as Hq'.
      destruct (floor_fnorm undef_int _ _ _ _ Hq') as (nh & _ & Enh & Hnh & Fnh);
        [lia | lia |].
      exists nh. split; [assumption|]. split; [lia|].
      apply (snapped_height_bound U52 S200 vr vp vq h w nw nh); try lia.
      unfold U52. lia. }
  destruct Hnh as (nh & Enh & Hnh).
  exists nw, nh. rewrite Enh.
  split; [reflexivity|]. split; [assumption|]. split; [assumption|].
  unfold paddedBytes.
  pose proof (padded_row_monotone (nw * bpp) (w * bpp) a ltac:(nia) ltac:(lia))
    as Hmono.
  pose proof (padded_row_bounds (nw * bpp) a ltac:(nia) ltac:(lia)) as Hp.
  fold (paddedRow bpp a w) in Hmono.
  assert ((nw * bpp + a - 1) / a * a * nh <= paddedRow bpp a w * h)
    by (apply Z.mul_le_mono_nonneg; nia).
  lia.
Qed.

(** A rejected candidate: the next estimate is a float of the same kind
    and its height is smaller. *)
Lemma rejected_facts (h w : Z) :
  0 <= h < 2 ^ 39 -> 0 <= w -> w * bpp < 2 ^ 48 ->
  B < paddedRow bpp a w * h ->
  exists ve',
    fnorm (-107) 3 (nextEstimate B (paddedRow bpp a w) bpp) ve'
    /\ 0 <= to_int undef_int (Floor (nextEstimate B (paddedRow bpp a w) bpp)) < h.
Proof.
  intros Hh Hw Hwb Hrej.
  pose proof S200_pos as HS.
  assert (Hb : 1 <= bpp <= 4) by lia.
  pose proof (padded_row_bounds (w * bpp) a ltac:(nia) ltac:(lia)) as Hp.
  fold (paddedRow bpp a w) in Hp.
  set (s := paddedRow bpp a w) in *.
  assert (Hs : 1 <= s < 2 ^ 49) by nia.
  assert (Hh1 : 1 <= h) by nia.
  unfold nextEstimate.
  assert (Hfs : fnorm (-52) 0 (of_int s) (s * S200))
    by (apply of_int_fnorm; lia).
  assert (Hfb : fnorm (-52) 0 (of_int bpp) (bpp * S200))
    by (apply of_int_fnorm; lia).
  assert (HfB : fnorm (-52) 0 (of_int B) (B * S200))
    by (apply of_int_fnorm; lia).
  destruct (mul_fnorm _ _ _ _ _ _ _ _ Hfs Hfb) as (vd & Hd & M1 & M2);
    try lia.
  simpl Z.add in Hd.
  assert (Hvd : 0 < vd) by (apply (fnorm_pos _ _ _ _ Hd); lia).
  assert (M2' : U52 * (s * bpp * S200) <= (U52 + 1) * vd).
  { apply le_cancel_r with (c := S200); [assumption|]. nia. }
  destruct (div_fnorm _ _ _ _ _ _ _ _ HfB Hd) as (vq & Hq & D1 & D2);
    try lia.
  simpl Z.sub in Hq.
  assert (Hvq : 0 < vq) by (apply (fnorm_pos _ _ _ _ Hq); lia).
  destruct (sqrt_fnorm _ _ (-106) (-23) _ _ Hq) as (ve' & He' & S1 & S2);
    try lia.
  assert (Hve : 0 < ve') by (apply (fnorm_pos _ _ _ _ He'); lia).
  exists ve'. split; [apply (fnorm_weaken _ _ _ _ _ _ He'); lia|].
  destruct (floor_fnorm undef_int _ _ _ _ He') as (h' & Eh' & _ & Hh' & Fh');
    [lia | lia |].
  rewrite Eh'. split; [lia|].
  apply (next_height_smaller S200 ve' vq vd h h' s bpp B); try lia.
  - exact M2'.
  - exact D1.
  - exact S1.
Qed.


(** From any estimate of the right kind the loop ends, within budget, and
    its candidates shrink from turn to turn. *)
Lemma loop_from (n : nat) :
  forall (est : float64) (ve : Z) (c : candidate),
    fnorm (-107) 3 est ve ->
    to_int undef_int (Floor est) * to_int undef_int (Floor est) * bpp * W
    <= 2 * B * H ->
    (Z.to_nat (to_int undef_int (Floor est)) < n)%nat ->
    candidateOf undef_int r bpp a est = Done c ->
    exists fuel nw nh rest,
      solverLoop undef_int fuel r bpp a B dpi est = Some (Done (nw, nh))
      /\ 0 <= nw /\ 0 <= nh
      /\ paddedBytes nw bpp a nh <= B
      /\ turnsFrom undef_int fuel r bpp a B est = c :: rest
      /\ Sorted shrinks (c :: rest)
      /\ exists pw ph,
           Plain.solverLoop undef_int fuel r bpp a B est
           = Some (Done (pw, ph))
           /\ 0 <= pw /\ 0 <= ph
           /\ paddedBytes pw bpp a ph <= B.
Proof.
  induction n as [|n IH]; intros est ve c He I Hn Hc; [lia|].
  destruct (candidate_facts est ve He I)
    as (w & vp & Ec & Hh & Fh & Ew & Hw & Hwb & Ar & Hvp & Fw & M1 & M2).
  set (h := to_int undef_int (Floor est)) in *.
  rewrite Ec in Hc. injection Hc as <-.
  destruct (Z_le_gt_dec (paddedRow bpp a w * h) B) as [Hacc | Hrej].
  - destruct (accepted_facts h w vp Hh Hw Hwb Hvp Fw M1 Hacc)
      as (nw & nh & Es & Hnw & Hnh & Hbud).
    exists 1%nat, nw, nh, [].
    split; [|split; [lia|split; [lia|split; [assumption|split; [|split]]]]].
    + cbn [solverLoop]. unfold loopBody. rewrite Ec. cbn [c_total c_width].
      replace (paddedRow bpp a w * h <=? B) with true
        by (symmetry; apply Z.leb_le; assumption).
      rewrite Es. reflexivity.
    + cbn [turnsFrom]. rewrite Ec. cbn [c_total].
      replace (paddedRow bpp a w * h <=? B) with true
        by (symmetry; apply Z.leb_le; assumption).
      reflexivity.
    + constructor; constructor.
    + exists w, h. split; [|split; [lia|split; [lia|exact Hacc]]].
      cbn [Plain.solverLoop]. rewrite Ec. cbn [c_total c_width c_height].
      replace (paddedRow bpp a w * h <=? B) with true
        by (symmetry; apply Z.leb_le; assumption).
      reflexivity.
  - destruct (rejected_facts h w Hh Hw Hwb ltac:(lia)) as (ve' & He' & Hh').
    set (est' := nextEstimate B (paddedRow bpp a w) bpp) in *.
    set (h' := to_int undef_int (Floor est')) in *.
    assert (I' : h' * h' * bpp * W <= 2 * B * H).
    { assert (h' * h' <= h * h) by (apply Z.mul_le_mono_nonneg; lia).
      assert (h' * h' * (bpp * W) <= h * h * (bpp * W))
        by (apply Z.mul_le_mono_nonneg_r; nia).
      lia. }
    destruct (candidate_facts est' ve' He' I')
      as (w' & vp' & Ec' & _ & _ & _ & Hw' & Hwb' & _ & Hvp' & Fw' & M1' & _).
    fold h' in Ec', Fw', M1'.
    set (c' := {| c_height := h'; c_width := w'; c_stride := paddedRow bpp a w';
                  c_total := paddedRow bpp a w' * h' |}) in *.
    destruct (IH est' ve' c' He' I' ltac:(fold h'; lia) Ec')
      as (fuel & nw & nh & rest & El & Hnw & Hnh & Hbud & Et & Hsorted
          & pw & ph & Ep & Hpw & Hph & Hpbud).
    exists (S fuel), nw, nh, (c' :: rest).
    split; [|split; [lia|split; [lia|split; [assumption|split; [|split]]]]].
    + cbn [solverLoop]. unfold loopBody. rewrite Ec. cbn [c_total c_stride].
      replace (paddedRow bpp a w * h <=? B) with false
        by (symmetry; apply Z.leb_gt; lia).
      exact El.
    + cbn [turnsFrom]. rewrite Ec. cbn [c_total c_stride].
      replace (paddedRow bpp a w * h <=? B) with false
        by (symmetry; apply Z.leb_gt; lia).
      fold est'. rewrite Et. reflexivity.
    + constructor; [exact Hsorted|]. constructor.
      unfold shrinks, c'. cbn [c_height c_stride]. split; [lia|].
      assert (Hww : w' <= w).
      { pose proof S200_pos. pose proof vr_pos.
        apply (width_monotone U52 S200 vr vp vp' h h' w w'); try lia;
          unfold U52; lia. }
      apply padded_row_monotone; nia.
    + exists pw, ph. split; [|split; [lia|split; [lia|exact Hpbud]]].
      cbn [Plain.solverLoop]. rewrite Ec. cbn [c_total c_stride].
      replace (paddedRow bpp a w * h <=? B) with false
        by (symmetry; apply Z.leb_gt; lia).
      exact Ep.
Qed.

End Bounded.

(** Runs of the loop with different fuel agree when both end. *)
Lemma solverLoop_agree (undef_int : float64 -> Z) (f1 f2 : nat)
    (r : float64) (bpp a B dpi : Z) (est : float64)
    (r1 r2 : outcome (Z * Z)) :
  solverLoop undef_int f1 r bpp a B dpi est = Some r1 ->
  solverLoop undef_int f2 r bpp a B dpi est = Some r2 ->
  r1 = r2.
Proof.
  revert f2 est. induction f1 as [|f1 IH]; intros f2 est H1 H2;
    [discriminate|].
  destruct f2 as [|f2]; [discriminate|].
  cbn [solverLoop] in H1, H2.
  destruct (loopBody undef_int r bpp a B dpi est) as [o | e].
  - congruence.
  - eapply IH; eassumption.
Qed.

(** Within the bounds the solver ends, within budget, with shrinking
    candidates. *)
Lemma solver_within_bounds (undef_int : float64 -> Z)
    (W H pixelFormat a B dpi : Z) :
  0 < W < 2 ^ 31 -> 0 < H < 2 ^ 31 -> 0 <= pixelFormat <= 2 ->
  0 < a <= 2 ^ 20 -> 0 < B < 2 ^ 46 -> 1 <= dpi < 2 ^ 63 ->
  exists fuel nw nh bpp,
    getBytesPerPixel pixelFormat = Done bpp
    /\ calculateMaxResolution undef_int fuel W H pixelFormat a B dpi
       = Some (Done (nw, nh))
    /\ 0 <= nw /\ 0 <= nh
    /\ paddedBytes nw bpp a nh <= B
    /\ Sorted shrinks (solverTurns undef_int fuel W H pixelFormat a B)
    /\ exists pw ph,
         Plain.calculateMaxResolution undef_int fuel W H pixelFormat a B
         = Some (Done (pw, ph))
         /\ 0 <= pw /\ 0 <= ph
         /\ paddedBytes pw bpp a ph <= B.
Proof.
  intros HW HH Hpf Ha HB Hdpi.
  assert (Hbpp : exists bpp, getBytesPerPixel pixelFormat = Done bpp
                             /\ (bpp = 1 \/ bpp = 4)).
  { unfold getBytesPerPixel, Format8bppIndexed, Format24bppRgb,
      Format32bppArgb.
    destruct (Z.eqb_spec pixelFormat 0); [eexists; split; [reflexivity|lia]|].
    destruct (Z.eqb_spec pixelFormat 1); [eexists; split; [reflexivity|lia]|].
    destruct (Z.eqb_spec pixelFormat 2); [eexists; split; [reflexivity|lia]|].
    lia. }
  destruct Hbpp as (bpp & Eb & Hbpp).
  pose proof S200_pos as HS.
  (* the ratio *)
  assert (HfW : fnorm (-52) 0 (of_int W) (W * S200))
    by (apply of_int_fnorm; lia).
  assert (HfH : fnorm (-52) 0 (of_int H) (H * S200))
    by (apply of_int_fnorm; lia).
  destruct (div_fnorm _ _ _ _ _ _ _ _ HfW HfH) as (vr & Hr & R1 & R2);
    try lia.
  simpl Z.sub in Hr.
  assert (Hvr : 0 < vr) by (apply (fnorm_pos _ _ _ _ Hr); lia).
  assert (R1' : (U52 - 1) * (vr * H) <= U52 * (W * S200)).
  { apply le_cancel_r with (c := S200); [assumption|]. nia. }
  assert (R2' : U52 * (W * S200) <= (U52 + 1) * (vr * H)).
  { apply le_cancel_r with (c := S200); [assumption|]. nia. }
  set (r := div (of_int W) (of_int H)) in *.
  (* the first estimate *)
  assert (Hfb : fnorm (-52) 0 (of_int bpp) (bpp * S200))
    by (apply of_int_fnorm; lia).
  assert (HfB : fnorm (-52) 0 (of_int B) (B * S200))
    by (apply of_int_fnorm; lia).
  destruct (mul_fnorm _ _ _ _ _ _ _ _ Hfb Hr) as (vd & Hd & M1 & M2);
    try lia.
  simpl Z.add in Hd.
  assert (Hvd : 0 < vd) by (apply (fnorm_pos _ _ _ _ Hd); lia).
  assert (M2' : U52 * (bpp * vr) <= (U52 + 1) * vd).
  { apply le_cancel_r with (c := S200); [assumption|]. nia. }
  destruct (div_fnorm _ _ _ _ _ _ _ _ HfB Hd) as (vq & Hq & D1 & D2);
    try lia.
  simpl Z.sub in Hq.
  assert (Hvq : 0 < vq) by (apply (fnorm_pos _ _ _ _ Hq); lia).
  destruct (sqrt_fnorm _ _ (-107) 3 _ _ Hq) as (ve & He & S1 & S2);
    try lia.
  assert (Hve : 0 < ve) by (apply (fnorm_pos _ _ _ _ He); lia).
  fold (firstEstimate r bpp B) in He.
  set (est := firstEstimate r bpp B) in *.
  destruct (floor_fnorm undef_int _ _ _ _ He) as (h & Eh & _ & Hh & Fh);
    [lia | lia |].
  assert (I : to_int undef_int (Floor est) * to_int undef_int (Floor est)
              * bpp * W <= 2 * B * H).
  { rewrite Eh.
    apply (first_height_bound S200 vr vd vq ve W H h bpp B); try lia.
    - exact R2'.
    - exact M2'.
    - exact D1.
    - exact S1. }
  destruct (candidate_facts undef_int W H bpp a B HW HH Hbpp Ha HB r vr Hr
              R1' est ve He I)
    as (w & vp & Ec & _).
  destruct (loop_from undef_int W H bpp a B dpi HW HH Hbpp Ha HB Hdpi r vr
              Hr R1' (S (Z.to_nat (to_int undef_int (Floor est))))
              est ve _ He I ltac:(lia) Ec)
    as (fuel & nw & nh & rest & El & Hnw & Hnh & Hbud & Et & Hsorted
        & pw & ph & Ep & Hpw & Hph & Hpbud).
  exists fuel, nw, nh, bpp.
  split; [assumption|]. split.
  - unfold calculateMaxResolution. rewrite Eb. fold r. exact El.
  - split; [assumption|]. split; [assumption|]. split; [assumption|].
    split.
    + unfold solverTurns. rewrite Eb. fold r. fold est. rewrite Et.
      exact Hsorted.
    + exists pw, ph. split; [|split; [lia|split; [lia|exact Hpbud]]].
      unfold Plain.calculateMaxResolution. rewrite Eb. fold r. exact Ep.
Qed.

(** Runs of the solver without the dpi parameter agree as well. *)
Lemma Plain_solverLoop_agree (undef_int : float64 -> Z) (f1 f2 : nat)
    (r : float64) (bpp a B : Z) (est : float64)
    (r1 r2 : outcome (Z * Z)) :
  Plain.solverLoop undef_int f1 r bpp a B est = Some r1 ->
  Plain.solverLoop undef_int f2 r bpp a B est = Some r2 ->
  r1 = r2.
Proof.
  revert f2 est. induction f1 as [|f1 IH]; intros f2 est H1 H2;
    [discriminate|].
  destruct f2 as [|f2]; [discriminate|].
  cbn [Plain.solverLoop] in H1, H2.
  destruct (candidateOf undef_int r bpp a est) as [c | e]; [|congruence].
  destruct (c_total c <=? B); [congruence|].
  eapply IH; eassumption.
Qed.

(** When the loop hands back a pair, its last candidate passed the test
    against the budget. *)
Lemma turnsFrom_accepted (undef_int : float64 -> Z) (fuel : nat)
    (r : float64) (bpp a B dpi : Z) (est : float64) (p : Z * Z) :
  solverLoop undef_int fuel r bpp a B dpi est = Some (Done p) ->
  Exists (fun c => c_total c <= B) (turnsFrom undef_int fuel r bpp a B est).
Proof.
  revert est. induction fuel as [|fuel IH]; intros est Hl; [discriminate|].
  cbn [solverLoop] in Hl. unfold loopBody in Hl. cbn [turnsFrom].
  destruct (candidateOf undef_int r bpp a est) as [c | e]; [|discriminate].
  destruct (Z.leb_spec (c_total c) B) as [Hle | Hgt].
  - apply Exists_cons_hd. exact Hle.
  - apply Exists_cons_tl. apply IH. exact Hl.
Qed.

End BoundedSolver.

(** * Diagnostic Sink *)

Section SinkFacts.

Lemma appendAll_queue (messages : list string) (w : World) :
  appendAll messages w
  = Some (Done tt,
          {| messageQueue := (messageQueue w ++ messages)%list;
             stdout := stdout w; fsLog := fsLog w; barDone := barDone w |}).
Proof.
  revert w. induction messages as [|m rest IH]; intros w.
  - simpl. unfold ret. rewrite app_nil_r. destruct w; reflexivity.
  - simpl. unfold bind, safePrint. rewrite IH. simpl.
    rewrite <- app_assoc. reflexivity.
Qed.

Lemma printAll_stdout (queue : list string) (w : World) :
  printAll queue w
  = Some (Done tt,
          {| messageQueue := messageQueue w;
             stdout := (stdout w ++ printed queue)%list;
             fsLog := fsLog w; barDone := barDone w |}).
Proof.
  revert w. induction queue as [|m rest IH]; intros w.
  - simpl. unfold ret. rewrite app_nil_r. destruct w; reflexivity.
  - simpl. unfold bind, Println, write. rewrite IH. simpl.
    rewrite <- app_assoc. reflexivity.
Qed.

Lemma flushMessages_drains (w : World) :
  flushMessages w
  = Some (Done tt,
          {| messageQueue := [];
             stdout := (stdout w ++ printed (messageQueue w))%list;
             fsLog := fsLog w; barDone := barDone w |}).
Proof.
  unfold flushMessages, bind. rewrite printAll_stdout. reflexivity.
Qed.

(** Whatever the queue held before, a flush prints the old content and
    then the appended messages, in order. *)
Lemma flush_after_appends (messages : list string) (w : World) :
  (appendAll messages ;;; flushMessages) w
  = Some (Done tt,
          {| messageQueue := [];
             stdout :=
               (stdout w ++ printed (messageQueue w ++ messages))%list;
             fsLog := fsLog w; barDone := barDone w |}).
Proof.
  unfold bind. rewrite appendAll_queue, flushMessages_drains. reflexivity.
Qed.

End SinkFacts.

(** C9.  An append puts its message at the end of the buffer and prints
    nothing.  So, starting from an empty buffer, a run of appends leaves
    exactly the appended messages in the buffer, in the order they were
    appended, and the output as it was; the flush that follows prints
    exactly these messages, each on a line of its own, in that order, and
    leaves the buffer empty; a second flush right after it prints nothing
    and changes nothing.  In any world a flush prints what the buffer
    holds, oldest message first, and empties it. *)
Theorem flush_prints_appended_in_order :
  forall (messages out : list string) (log : list FsEvent) (n : nat),
    let w0 := {| messageQueue := []; stdout := out; fsLog := log;
                 barDone := n |} in
    let w1 := {| messageQueue := messages; stdout := out; fsLog := log;
                 barDone := n |} in
    let w2 := {| messageQueue := [];
                 stdout := (out ++ printed messages)%list;
                 fsLog := log; barDone := n |} in
    appendAll messages w0 = Some (Done tt, w1)
    /\ flushMessages w1 = Some (Done tt, w2)
    /\ (appendAll messages ;;; flushMessages) w0 = Some (Done tt, w2)
    /\ flushMessages w2 = Some (Done tt, w2)
    /\ (forall (w : World) (message : string),
          safePrint message w = Some (Done tt, queued w message))
    /\ (forall w : World,
          flushMessages w
          = Some (Done tt,
                  {| messageQueue := [];
                     stdout := (stdout w ++ printed (messageQueue w))%list;
                     fsLog := fsLog w; barDone := barDone w |})).
Proof.
  intros messages out log n w0 w1 w2.
  split; [|split; [|split; [|split; [|split]]]].
  - unfold w0, w1. rewrite appendAll_queue. reflexivity.
  - unfold w1, w2. rewrite flushMessages_drains. reflexivity.
  - unfold w0, w2. rewrite flush_after_appends. reflexivity.
  - unfold w2. rewrite flushMessages_drains. simpl.
    rewrite app_nil_r. reflexivity.
  - intros w message. reflexivity.
  - apply flushMessages_drains.
Qed.

(** * DPI Resolver *)

Section DPIFacts.
Variable undef_int : float64 -> Z.
Variable env : Env.

(** A nonzero override is handed on; nothing is read, nothing is queued. *)
Lemma resolveDPI_override (filePath : string) (overrideDPI : Z) (w : World) :
  overrideDPI <> 0 ->
  resolveDPI undef_int env filePath overrideDPI w = Some (Done overrideDPI, w).
Proof.
  intros H. unfold resolveDPI.
  destruct (Z.eqb_spec overrideDPI 0); [contradiction | reflexivity].
Qed.

(** [extractDPI] opens the file first, and never panics. *)
Lemma extractDPI_total (filePath : string) (w : World) :
  exists r, extractDPI undef_int env filePath w
            = Some (Done r, logged w (EvOpen filePath)).
Proof.
  unfold extractDPI, bind, logFs, ret.
  destruct (os_Open env filePath); [eexists; reflexivity|].
  destruct (exif_Decode env filePath) as [|e]; [eexists; reflexivity|].
  destruct (XResolution e) as [|xt]; [eexists; reflexivity|].
  destruct (YResolution e) as [|yt]; [eexists; reflexivity|].
  destruct (Rat2 xt) as [|[xNum xDen]]; [eexists; reflexivity|].
  destruct (Rat2 yt) as [|[yNum yDen]]; [eexists; reflexivity|].
  destruct (SFeqb _ _); eexists; reflexivity.
Qed.

(** With no override, a failed extraction gives 72 and queues the reason. *)
Lemma resolveDPI_fallback (filePath : string) (w w1 : World) (v : Z)
    (err : error) :
  extractDPI undef_int env filePath w = Some (Done (v, Some err), w1) ->
  resolveDPI undef_int env filePath 0 w
  = Some (Done 72,
          queued w1 ("Failed to extract DPI for " ++ filePath ++ ": " ++ err)).
Proof.
  intros H. unfold resolveDPI. simpl. unfold bind. rewrite H. reflexivity.
Qed.

(** With no override, a successful extraction gives the extracted value. *)
Lemma resolveDPI_extracted (filePath : string) (w w1 : World) (v : Z) :
  extractDPI undef_int env filePath w = Some (Done (v, None), w1) ->
  resolveDPI undef_int env filePath 0 w
  = Some (Done v,
          queued w1 ("Extracted DPI for " ++ filePath ++ ": " ++ fmt_d v)).
Proof.
  intros H. unfold resolveDPI. simpl. unfold bind. rewrite H. reflexivity.
Qed.

Lemma extractDPI_unreadable (filePath : string) (w : World) :
  metadataUnreadable env filePath ->
  exists err, extractDPI undef_int env filePath w
              = Some (Done (0, Some err), logged w (EvOpen filePath)).
Proof.
  unfold extractDPI, bind, logFs, ret.
  intros [[err H] | [Ho [[err H] | (e & He & H)]]].
  - rewrite H. eexists; reflexivity.
  - rewrite Ho, H. eexists; reflexivity.
  - rewrite Ho, He.
    destruct (XResolution e) as [|xt] eqn:Ex; [eexists; reflexivity|].
    destruct (YResolution e) as [|yt] eqn:Ey; [eexists; reflexivity|].
    destruct (Rat2 xt) as [|[xNum xDen]] eqn:Rx; [eexists; reflexivity|].
    destruct (Rat2 yt) as [|[yNum yDen]] eqn:Ry; [eexists; reflexivity|].
    exfalso.
    destruct H as [[? H] | [[? H] | [(t & ? & H1 & H2) | (t & ? & H1 & H2)]]];
      congruence.
Qed.

(** When both tags are there and readable, the X resolution is returned
    without an error, whether or not the Y resolution agrees with it. *)
Lemma extractDPI_readable (filePath : string) (w : World) (e : Exif)
    (xt yt : Tag) (xNum xDen yNum yDen : Z) :
  os_Open env filePath = None ->
  exif_Decode env filePath = inr e ->
  XResolution e = inr xt -> YResolution e = inr yt ->
  Rat2 xt = inr (xNum, xDen) -> Rat2 yt = inr (yNum, yDen) ->
  extractDPI undef_int env filePath w
  = Some (Done (to_int undef_int (div (of_int xNum) (of_int xDen)), None),
          logged w (EvOpen filePath)).
Proof.
  intros Ho He Ex Ey Rx Ry.
  unfold extractDPI, bind, logFs, ret.
  rewrite Ho, He, Ex, Ey, Rx, Ry.
  destruct (SFeqb _ _); reflexivity.
Qed.

End DPIFacts.

(** C10.  When the EXIF block yields both resolutions and their values
    differ, extraction succeeds with the integer part of the X resolution
    and no error, and the caller uses that value, not the default. *)
Theorem extractDPI_mismatch_succeeds :
  forall (undef_int : float64 -> Z) (env : Env) (filePath : string)
         (w : World) (e : Exif) (xt yt : Tag) (xNum xDen yNum yDen : Z),
    os_Open env filePath = None ->
    exif_Decode env filePath = inr e ->
    XResolution e = inr xt -> YResolution e = inr yt ->
    Rat2 xt = inr (xNum, xDen) -> Rat2 yt = inr (yNum, yDen) ->
    SFeqb (div (of_int xNum) (of_int xDen)) (div (of_int yNum) (of_int yDen))
    = false ->
    let x := to_int undef_int (div (of_int xNum) (of_int xDen)) in
    extractDPI undef_int env filePath w
    = Some (Done (x, None), logged w (EvOpen filePath))
    /\ resolveDPI undef_int env filePath 0 w
       = Some (Done x,
               queued (logged w (EvOpen filePath))
                 ("Extracted DPI for " ++ filePath ++ ": " ++ fmt_d x)).
Proof.
  intros undef_int env filePath w e xt yt xNum xDen yNum yDen
    Ho He Ex Ey Rx Ry _ x.
  assert (H : extractDPI undef_int env filePath w
              = Some (Done (x, None), logged w (EvOpen filePath)))
    by (eapply extractDPI_readable; eassumption).
  split; [exact H|].
  apply resolveDPI_extracted. exact H.
Qed.

Lemma extractDPI_mismatch_witness :
  SFeqb (div (of_int 300) (of_int 1)) (div (of_int 72) (of_int 1)) = false
  /\ extractDPI indefinite sampleEnv "photo.png" initialWorld
     = Some (Done (300, None), logged initialWorld (EvOpen "photo.png")).
Proof.
  split; [reflexivity|].
  exact (proj1 (extractDPI_mismatch_succeeds indefinite sampleEnv "photo.png"
                  initialWorld sampleExif _ _ 300 1 72 1
                  eq_refl eq_refl eq_refl eq_refl eq_refl eq_refl eq_refl)).
Defined.

(** C6, as the claim states it, fails: 300 dpi across and 72 dpi down is
    a mismatch, yet the resolver answers 300, not 72. *)
Lemma mismatch_does_not_fall_back :
  SFeqb (div (of_int 300) (of_int 1)) (div (of_int 72) (of_int 1)) = false
  /\ option_map fst (resolveDPI indefinite sampleEnv "photo.png" 0 initialWorld)
     = Some (Done 300)
  /\ 300 <> 72.
Proof. split; [reflexivity | split; [reflexivity | discriminate]]. Qed.

(** C6, amended.  A nonzero override is used and the file is not read.
    With the override unset, every failure to read the metadata (the file
    cannot be opened, the EXIF block is absent or corrupt, a resolution
    tag is missing or unreadable) gives 72.  The resolver always returns a
    value: it neither panics nor hands an error to its caller. *)
Theorem resolveDPI_override_or_fallback :
  forall (undef_int : float64 -> Z) (env : Env) (filePath : string)
         (overrideDPI : Z) (w : World),
    (overrideDPI <> 0 ->
     resolveDPI undef_int env filePath overrideDPI w
     = Some (Done overrideDPI, w))
    /\ (metadataUnreadable env filePath ->
        exists err,
          resolveDPI undef_int env filePath 0 w
          = Some (Done 72,
                  queued (logged w (EvOpen filePath))
                    ("Failed to extract DPI for " ++ filePath ++ ": " ++ err)))
    /\ (exists dpi w',
          resolveDPI undef_int env filePath overrideDPI w
          = Some (Done dpi, w')).
Proof.
  intros undef_int env filePath overrideDPI w. repeat split.
  - apply resolveDPI_override.
  - intros H.
    destruct (extractDPI_unreadable undef_int env filePath w H) as [err E].
    exists err. eapply resolveDPI_fallback. exact E.
  - destruct (Z.eq_dec overrideDPI 0) as [-> | Hne].
    + destruct (extractDPI_total undef_int env filePath w) as [[v [err|]] E].
      * eexists _, _. eapply resolveDPI_fallback. exact E.
      * eexists _, _. eapply resolveDPI_extracted. exact E.
    + eexists _, _. apply resolveDPI_override. exact Hne.
Qed.

Lemma resolveDPI_override_or_fallback_witness :
  resolveDPI indefinite sampleEnv "photo.png" 96 initialWorld
  = Some (Done 96, initialWorld)
  /\ exists err,
       resolveDPI indefinite noExifEnv "photo.png" 0 initialWorld
       = Some (Done 72,
               queued (logged initialWorld (EvOpen "photo.png"))
                 ("Failed to extract DPI for photo.png: " ++ err)).
Proof.
  split.
  - apply (proj1 (resolveDPI_override_or_fallback indefinite sampleEnv
                    "photo.png" 96 initialWorld)).
    discriminate.
  - apply (proj1 (proj2 (resolveDPI_override_or_fallback indefinite noExifEnv
                           "photo.png" 0 initialWorld))).
    right. split; [reflexivity|]. left. exists "EOF". reflexivity.
Defined.

(** * The command line *)

Section MainFacts.
Variable undef_int : float64 -> Z.
Variable env : Env.

(** Without positional arguments [Action] only builds an error value. *)
Lemma Action_no_arguments (fuel : nat) (c : Context) (w : World) :
  Args c = [] ->
  Action undef_int env fuel c w
  = Some (Done (Some "no input files or directories provided"), w).
Proof. intros H. unfold Action. rewrite H. reflexivity. Qed.

(** Started from a console, or with flags only, a command line without
    positional arguments ends [main] with status 0; the error text is
    left in the queue, nothing is printed and no file is touched. *)
Lemma main_no_arguments (fuel : nat) (args : list string) (c : Context)
    (w : World) :
  cli_Parse env args = inr c -> Args c = [] ->
  (StartedByExplorer env = false \/ args <> []) ->
  main undef_int env fuel args w
  = Some (Done 0, queued w "Error: no input files or directories provided").
Proof.
  intros Hp Ha Hs. unfold main.
  replace (Nat.eqb (List.length args) 0 && StartedByExplorer env) with false.
  - unfold bind, appRun. rewrite Hp. rewrite Action_no_arguments by exact Ha.
    reflexivity.
  - destruct Hs as [-> | Hne].
    + rewrite andb_false_r. reflexivity.
    + destruct args; [contradiction | reflexivity].
Qed.

End MainFacts.

(** C7, on the code.  Run from a console with no argument at all, the
    program ends with exit status 0 and prints nothing: the usage error is
    appended to the message queue, which nothing flushes afterwards.  No
    file is touched. *)
Theorem main_zero_arguments_exit_zero_unprinted :
  forall fuel : nat,
    main indefinite sampleEnv fuel [] initialWorld
    = Some (Done 0,
            {| messageQueue :=
                 ["Error: no input files or directories provided"];
               stdout := []; fsLog := []; barDone := 0 |}).
Proof. intros fuel. reflexivity. Qed.

(** * Dry run *)

Section DryRunFacts.
Variable undef_int : float64 -> Z.
Variable env : Env.

(** In the queue-based pipeline [resizeImage] never reads [dryRun]. *)
Lemma resizeImage_ignores_dryRun (fuel : nat) (filePath outputPath : string)
    (memoryLimit : Z) (algorithm : InterpolationFunction) (quality dpi : Z) :
  resizeImage undef_int env fuel filePath outputPath true memoryLimit
    algorithm quality dpi
  = resizeImage undef_int env fuel filePath outputPath false memoryLimit
      algorithm quality dpi.
Proof. reflexivity. Qed.

(** In the console-based pipeline a dry run opens the input and does
    nothing else to the file system. *)
Lemma Direct_resizeImage_dry_run (fuel : nat) (filePath outputPath : string)
    (memoryLimit : Z) (algorithm : InterpolationFunction) (quality dpi : Z)
    (w w' : World) (r : outcome (option error)) :
  Direct.resizeImage undef_int env fuel filePath outputPath true memoryLimit
    algorithm quality dpi w = Some (r, w') ->
  fsLog w' = (fsLog w ++ [EvOpen filePath])%list.
Proof.
  unfold Direct.resizeImage, bind, logFs, ret, lift, liftFuel, write.
  destruct (os_Open env filePath); [intros [= <- <-]; reflexivity|].
  destruct (image_Decode env filePath) as [|[[W H] format]];
    [intros [= <- <-]; reflexivity|].
  destruct (getPixelFormat env (filepath_Ext env filePath)) as [pf|];
    [|intros [= <- <-]; reflexivity].
  destruct (calculateMaxResolution undef_int fuel W H pf 4 memoryLimit dpi)
    as [[[nw nh]|]|]; [| intros [= <- <-]; reflexivity | discriminate].
  destruct (Z.ltb nw W || Z.ltb nh H); simpl;
    intros [= <- <-]; reflexivity.
Qed.

End DryRunFacts.

(** C8, on the code.  With the dry-run flag set, the queue-based
    [resizeImage] still creates and encodes the output file. *)
Theorem dry_run_still_writes :
  resizeImage indefinite sampleEnv 1 "photo.png" "out/photo-resized.png" true
    10000000 Lanczos3 75 72 initialWorld
  = Some (Done None,
          {| messageQueue :=
               ["Resized photo.png to 1872x1248 with a DPI of 22"];
             stdout := [];
             fsLog :=
               [EvOpen "photo.png"; EvCreate "out/photo-resized.png";
                EvEncode "out/photo-resized.png" "png"
                  (Resized 1872 1248 (Decoded "photo.png" 6000 4000) Lanczos3)
                  75];
             barDone := 0 |}).
Proof. vm_compute. reflexivity. Qed.

(** * Resolution Solver: what the code does on particular inputs *)

(** C1, as the claim states it, fails.  For a 2x1 image in the ARGB
    format, alignment 4, the largest [int64] as budget and dpi 1, the
    accepted candidate is 2147483648 x 1073741824: its padded size is
    [2^63], one byte above the budget; the product wrapped to [-2^63] and
    passed the test.  The solver without the dpi parameter returns the
    same pair. *)
Lemma budget_exceeded_at_largest_budget :
  calculateMaxResolution indefinite 1 2 1 Format32bppArgb 4 (2 ^ 63 - 1) 1
  = Some (Done (2147483648, 1073741824))
  /\ Plain.calculateMaxResolution indefinite 1 2 1 Format32bppArgb 4
       (2 ^ 63 - 1)
     = Some (Done (2147483648, 1073741824))
  /\ paddedBytes 2147483648 4 4 1073741824 = 2 ^ 63
  /\ Int64.mul (4 * 2147483648) 1073741824 = - 2 ^ 63
  /\ 2 ^ 63 - 1 < paddedBytes 2147483648 4 4 1073741824.
Proof. repeat split; vm_compute; reflexivity. Qed.

(** C1, amended.  For an original below [2^31] pixels in each dimension,
    one of the three pixel formats, an alignment of at most [2^20] and a
    budget below [2^46] bytes, with [dpi >= 1], the solver returns a pair
    (the same one however many turns it is allowed), and the padded size
    of that pair, [ceil(width * bpp / alignment) * alignment * height]
    with [bpp] 1 for the indexed format and 4 for the two others, is
    within the budget.  The same holds for the solver without the dpi
    parameter. *)
Theorem budget_respected_within_bounds
    (undef_int : float64 -> Z) (W H pixelFormat a B dpi : Z) :
  0 < W < 2 ^ 31 -> 0 < H < 2 ^ 31 -> 0 <= pixelFormat <= 2 ->
  0 < a <= 2 ^ 20 -> 0 < B < 2 ^ 46 -> 1 <= dpi < 2 ^ 63 ->
  exists (fuel : nat) (bpp nw nh pw ph : Z),
    bpp = (if pixelFormat =? Format8bppIndexed then 1 else 4)
    /\ calculateMaxResolution undef_int fuel W H pixelFormat a B dpi
       = Some (Done (nw, nh))
    /\ (forall n r,
          calculateMaxResolution undef_int n W H pixelFormat a B dpi = Some r ->
          r = Done (nw, nh))
    /\ paddedBytes nw bpp a nh <= B
    /\ Plain.calculateMaxResolution undef_int fuel W H pixelFormat a B
       = Some (Done (pw, ph))
    /\ (forall n r,
          Plain.calculateMaxResolution undef_int n W H pixelFormat a B
          = Some r ->
          r = Done (pw, ph))
    /\ paddedBytes pw bpp a ph <= B.
Proof.
  intros HW HH Hpf Ha HB Hdpi.
  destruct (BoundedSolver.solver_within_bounds undef_int W H pixelFormat a B
              dpi HW HH Hpf Ha HB Hdpi)
    as (fuel & nw & nh & bpp & Eb & El & _ & _ & Hbud & _
        & pw & ph & Ep & _ & _ & Hpbud).
  exists fuel, bpp, nw, nh, pw, ph.
  split.
  { revert Eb. unfold getBytesPerPixel, Format8bppIndexed, Format24bppRgb,
      Format32bppArgb.
    destruct (pixelFormat =? 0); [congruence|].
    destruct ((pixelFormat =? 1) || (pixelFormat =? 2))%bool;
      [congruence|discriminate]. }
  split; [exact El|]. split.
  { intros n r Hn. revert El Hn. unfold calculateMaxResolution.
    rewrite Eb. intros El Hn.
    exact (BoundedSolver.solverLoop_agree _ _ _ _ _ _ _ _ _ _ _ Hn El). }
  split; [exact Hbud|]. split; [exact Ep|]. split; [|exact Hpbud].
  intros n r Hn. revert Ep Hn. unfold Plain.calculateMaxResolution.
  rewrite Eb. intros Ep Hn.
  exact (BoundedSolver.Plain_solverLoop_agree _ _ _ _ _ _ _ _ _ _ Hn Ep).
Qed.

Lemma budget_respected_within_bounds_witness :
  exists (fuel : nat) (bpp nw nh pw ph : Z),
    bpp = (if Format32bppArgb =? Format8bppIndexed then 1 else 4)
    /\ calculateMaxResolution indefinite fuel 6000 4000 Format32bppArgb 4
         10000000 72
       = Some (Done (nw, nh))
    /\ (forall n r,
          calculateMaxResolution indefinite n 6000 4000 Format32bppArgb 4
            10000000 72 = Some r ->
          r = Done (nw, nh))
    /\ paddedBytes nw bpp 4 nh <= 10000000
    /\ Plain.calculateMaxResolution indefinite fuel 6000 4000
         Format32bppArgb 4 10000000
       = Some (Done (pw, ph))
    /\ (forall n r,
          Plain.calculateMaxResolution indefinite n 6000 4000
            Format32bppArgb 4 10000000
          = Some r ->
          r = Done (pw, ph))
    /\ paddedBytes pw bpp 4 ph <= 10000000.
Proof.
  apply (budget_respected_within_bounds indefinite 6000 4000
           Format32bppArgb 4 10000000 72);
    unfold Format32bppArgb; lia.
Defined.


Section SolverFacts.
Variable undef_int : float64 -> Z.

Lemma snapToDPI_zero (aspectRatio : float64) (width : Z) :
  snapToDPI undef_int aspectRatio width 0 = Panicked DivideByZero.
Proof. reflexivity. Qed.

Lemma solverLoop_zero_dpi (fuel : nat) (aspectRatio : float64)
    (bytesPerPixel alignment memoryLimit : Z) (estimatedHeight : float64) :
  returned (solverLoop undef_int fuel aspectRatio bytesPerPixel alignment
              memoryLimit 0 estimatedHeight) = false.
Proof.
  revert estimatedHeight. induction fuel as [|fuel IH]; intros est.
  - reflexivity.
  - simpl. unfold loopBody.
    destruct (candidateOf undef_int aspectRatio bytesPerPixel alignment est)
      as [c|p]; [|reflexivity].
    destruct (c_total c <=? memoryLimit); [reflexivity | apply IH].
Qed.

(** The height a returning run hands back is computed from the width it
    hands back. *)
Lemma solverLoop_height (fuel : nat) (aspectRatio : float64)
    (bytesPerPixel alignment memoryLimit dpi : Z) (estimatedHeight : float64)
    (newWidth newHeight : Z) :
  solverLoop undef_int fuel aspectRatio bytesPerPixel alignment memoryLimit
    dpi estimatedHeight = Some (Done (newWidth, newHeight)) ->
  newHeight = to_int undef_int (div (of_int newWidth) aspectRatio).
Proof.
  revert estimatedHeight. induction fuel as [|fuel IH]; intros est.
  - discriminate.
  - simpl. unfold loopBody.
    destruct (candidateOf undef_int aspectRatio bytesPerPixel alignment est)
      as [c|p]; [|discriminate].
    destruct (c_total c <=? memoryLimit); [|apply IH].
    unfold snapToDPI. destruct (dpi =? 0); [discriminate|].
    intros [= <- <-]. reflexivity.
Qed.

End SolverFacts.

(** ** dpi 0 *)

Module ZeroDPI.
Import Float64Facts FixedPoint.

Section Solver.
Variable undef_int : float64 -> Z.

(** A candidate that is accepted with some dpi is accepted with dpi 0
    too, and there the snap divides by zero. *)
Lemma solverLoop_zero_dpi_panics (fuel : nat) (aspectRatio : float64)
    (bytesPerPixel alignment memoryLimit dpi : Z) (estimatedHeight : float64)
    (p : Z * Z) :
  solverLoop undef_int fuel aspectRatio bytesPerPixel alignment memoryLimit
    dpi estimatedHeight = Some (Done p) ->
  solverLoop undef_int fuel aspectRatio bytesPerPixel alignment memoryLimit
    0 estimatedHeight = Some (Panicked DivideByZero).
Proof.
  revert estimatedHeight.
  induction fuel as [|fuel IH]; intros estimatedHeight Hl; [discriminate|].
  cbn [solverLoop] in Hl |- *. unfold loopBody in Hl |- *.
  destruct (candidateOf undef_int aspectRatio bytesPerPixel alignment
              estimatedHeight) as [c | q]; [|discriminate].
  destruct (Z.leb (c_total c) memoryLimit).
  - reflexivity.
  - apply IH. exact Hl.
Qed.

(** On an image of ordinary size the loop reaches its accepting branch,
    so with dpi 0 the solver ends in the division by zero. *)
Lemma solver_panics_on_zero_dpi_within_bounds (W H pixelFormat a B : Z) :
  0 < W < 2 ^ 31 -> 0 < H < 2 ^ 31 -> 0 <= pixelFormat <= 2 ->
  0 < a <= 2 ^ 20 -> 0 < B < 2 ^ 46 ->
  exists fuel,
    calculateMaxResolution undef_int fuel W H pixelFormat a B 0
    = Some (Panicked DivideByZero).
Proof.
  intros HW HH Hpf Ha HB.
  destruct (BoundedSolver.solver_within_bounds undef_int W H pixelFormat a B
              1 HW HH Hpf Ha HB ltac:(lia))
    as (fuel & nw & nh & bpp & Eb & El & _).
  exists fuel. revert El. unfold calculateMaxResolution. rewrite Eb.
  apply solverLoop_zero_dpi_panics.
Qed.

(** [int(float64(xNum) / float64(xDen))] is 0 for a ratio below one. *)
Lemma to_int_quotient_below_one (xNum xDen : Z) :
  0 <= xNum < xDen -> xDen < 2 ^ 32 ->
  to_int undef_int (div (of_int xNum) (of_int xDen)) = 0.
Proof.
  intros Hn Hd.
  destruct (Z.eq_dec xNum 0) as [-> | Hnz].
  - destruct (of_int_exact xDen ltac:(lia)) as (m & e & E & _).
    rewrite E, div_zero_finite. apply to_int_zero.
  - pose proof S200_pos as HS.
    assert (Hx : fnorm (-52) 0 (of_int xNum) (xNum * S200))
      by (apply of_int_fnorm; lia).
    assert (Hy : fnorm (-52) 0 (of_int xDen) (xDen * S200))
      by (apply of_int_fnorm; lia).
    destruct (div_fnorm _ _ _ _ _ _ _ _ Hx Hy) as (vz & Hz & D1 & D2);
      try lia.
    simpl Z.sub in Hz.
    destruct (floor_fnorm undef_int _ _ _ _ Hz) as (k & _ & Ek & Hk & Fk);
      [lia | lia |].
    rewrite Ek.
    assert (U52_val : U52 = 2 ^ 52) by reflexivity.
    assert (Hvz : 0 <= vz) by lia.
    (* (U52 - 1) * vz * xDen <= U52 * xNum * S200 *)
    assert (D1' : (U52 - 1) * (vz * xDen) <= U52 * (xNum * S200)).
    { apply SolverArith.le_cancel_r with (c := S200); [assumption|]. lia. }
    destruct (Z.eq_dec k 0) as [|Hk0]; [assumption|exfalso].
    assert (Hk1 : 1 <= k) by lia.
    assert (S200 <= vz) by nia.
    assert ((U52 - 1) * (S200 * xDen) <= (U52 - 1) * (vz * xDen)).
    { apply Z.mul_le_mono_nonneg_l; [lia|].
      apply Z.mul_le_mono_nonneg_r; lia. }
    assert (Hc : (U52 - 1) * xDen * S200 <= U52 * xNum * S200) by lia.
    assert (Hc' : (U52 - 1) * xDen <= U52 * xNum).
    { apply SolverArith.le_cancel_r with (c := S200); assumption. }
    rewrite U52_val in Hc'. lia.
Qed.
End Solver.

Section Pipeline.
Variable undef_int : float64 -> Z.
Variable env : Env.

(** The extensions [isValidImageExtension] accepts are the ones
    [getPixelFormat] knows. *)
Lemma getPixelFormat_of_valid (fileExt : string) :
  isValidImageExtension (strings_ToLower env fileExt) = true ->
  getPixelFormat env fileExt = Done Format32bppArgb
  \/ getPixelFormat env fileExt = Done Format24bppRgb.
Proof.
  unfold isValidImageExtension, getPixelFormat.
  destruct (String.eqb (strings_ToLower env fileExt) ".png"); [auto|].
  destruct (String.eqb (strings_ToLower env fileExt) ".jpg"); [auto|].
  destruct (String.eqb (strings_ToLower env fileExt) ".jpeg"); [auto|].
  discriminate.
Qed.

(** With dpi 0, [resizeImage] on an image of ordinary size ends in the
    solver's division by zero, after opening the input. *)
Lemma resizeImage_panics_on_zero_dpi (filePath outputPath : string)
    (dryRun : bool) (memoryLimit : Z) (algorithm : InterpolationFunction)
    (quality : Z) (W H : Z) (format : string) (w : World) :
  os_Open env filePath = None ->
  image_Decode env filePath = inr (W, H, format) ->
  0 < W < 2 ^ 31 -> 0 < H < 2 ^ 31 ->
  isValidImageExtension (strings_ToLower env (filepath_Ext env filePath))
  = true ->
  0 < memoryLimit < 2 ^ 46 ->
  exists fuel,
    resizeImage undef_int env fuel filePath outputPath dryRun memoryLimit
      algorithm quality 0 w
    = Some (Panicked DivideByZero, logged w (EvOpen filePath)).
Proof.
  intros Ho Ed HW HH Hv HB.
  assert (Hpf : exists pf, getPixelFormat env (filepath_Ext env filePath)
                           = Done pf /\ 0 <= pf <= 2).
  { destruct (getPixelFormat_of_valid _ Hv) as [E | E]; rewrite E;
      eexists; (split; [reflexivity|]);
      unfold Format32bppArgb, Format24bppRgb; lia. }
  destruct Hpf as (pf & Ep & Hpf).
  destruct (solver_panics_on_zero_dpi_within_bounds undef_int W H pf 4
              memoryLimit HW HH Hpf ltac:(lia) HB) as [fuel Ef].
  exists fuel. unfold resizeImage. rewrite Ho, Ed, Ep.
  unfold bind, logFs, lift, liftFuel. rewrite Ef. reflexivity.
Qed.

(** Without an override, a file whose EXIF X resolution is below one
    (0/1, 1/2, ...) gets dpi 0, and [processFile] ends in the solver's
    division by zero; the deferred [bar.Increment()] still runs. *)
Lemma processFile_panics_on_zero_exif_dpi
    (filePath : string) (memoryLimit : Z) (outputDir : string)
    (algorithm : InterpolationFunction) (quality : Z) (dryRun : bool)
    (w : World) (err : error) (e : Exif) (xt yt : Tag)
    (xNum xDen yNum yDen W H : Z) (format : string) :
  os_MkdirAll env outputDir = None ->
  existsb (created env (outputPathOf env filePath outputDir)) (fsLog w)
  = false ->
  os_StatInitial env (outputPathOf env filePath outputDir) = inl err ->
  os_Open env filePath = None ->
  exif_Decode env filePath = inr e ->
  XResolution e = inr xt -> YResolution e = inr yt ->
  Rat2 xt = inr (xNum, xDen) -> Rat2 yt = inr (yNum, yDen) ->
  0 <= xNum < xDen -> xDen < 2 ^ 32 ->
  image_Decode env filePath = inr (W, H, format) ->
  0 < W < 2 ^ 31 -> 0 < H < 2 ^ 31 ->
  isValidImageExtension (strings_ToLower env (filepath_Ext env filePath))
  = true ->
  0 < memoryLimit < 2 ^ 46 ->
  exists fuel,
    processFile undef_int env fuel filePath memoryLimit outputDir algorithm
      quality dryRun 0 w
    = Some (Panicked DivideByZero,
            barIncrement
              (logged
                 (queued
                    (queued
                       (logged (logged w (EvMkdirAll outputDir))
                          (EvOpen filePath))
                       ("Extracted DPI for " ++ filePath ++ ": 0"))
                    ("Processing " ++ filePath))
                 (EvOpen filePath))).
Proof.
  intros Hm Hc Hs Ho Ee Ex Ey Rx Ry Hn Hd Ed HW HH Hv HB.
  set (w1 := logged w (EvMkdirAll outputDir)).
  set (w2 := logged w1 (EvOpen filePath)).
  set (w3 := queued w2 ("Extracted DPI for " ++ filePath ++ ": 0")).
  set (w4 := queued w3 ("Processing " ++ filePath)).
  destruct (resizeImage_panics_on_zero_dpi filePath
              (outputPathOf env filePath outputDir) dryRun memoryLimit
              algorithm quality W H format w4 Ho Ed HW HH Hv HB)
    as [fuel Er].
  exists fuel.
  assert (Edpi : resolveDPI undef_int env filePath 0 w1 = Some (Done 0, w3)).
  { pose proof (extractDPI_readable undef_int env filePath w1 e xt yt
                  xNum xDen yNum yDen Ho Ee Ex Ey Rx Ry) as E.
    rewrite (to_int_quotient_below_one undef_int xNum xDen Hn Hd) in E.
    rewrite (resolveDPI_extracted undef_int env filePath w1 _ 0 E).
    reflexivity. }
  unfold processFile, deferred.
  unfold bind at 1. cbn [logFs]. fold (logged w (EvMkdirAll outputDir)).
  fold w1. rewrite Hm.
  unfold bind at 1. unfold os_Stat at 1.
  replace (existsb (created env (outputPathOf env filePath outputDir))
             (fsLog w1)) with false.
  2:{ unfold w1. cbn [logged fsLog]. rewrite existsb_app, Hc. reflexivity. }
  rewrite Hs.
  unfold bind at 1. rewrite Edpi.
  unfold bind at 1. cbn [safePrint]. fold (queued w3 ("Processing " ++ filePath)).
  fold w4. unfold bind at 1. rewrite Er. reflexivity.
Qed.
End Pipeline.

End ZeroDPI.

(** C3, on the code.  The solver has no "no quantization" mode: with
    dpi 0 the accepting branch computes [width % dpi], an integer
    division by zero, so the scenario of the specification (6000x4000,
    ARGB, alignment 4, 10,000,000 bytes, dpi 0) ends in a panic, and no
    input with dpi 0 is answered by a width and a height.  The value 0
    does reach the solver: for a file whose EXIF block gives an X
    resolution of 0/1, [extractDPI] returns 0 without an error,
    [processFile] takes it as the dpi, and the run, [main] included, ends
    in the panic: two messages are queued, nothing is printed, no output
    is written. *)
Theorem dpi_zero_crashes_the_solver :
  calculateMaxResolution indefinite 1 6000 4000 Format32bppArgb 4 10000000 0
  = Some (Panicked DivideByZero)
  /\ (forall (undef_int : float64 -> Z) (fuel : nat)
             (originalWidth originalHeight : Z) (pixelFormat : PixelFormat)
             (alignment memoryLimit : Z),
        returned (calculateMaxResolution undef_int fuel originalWidth
                    originalHeight pixelFormat alignment memoryLimit 0)
        = false)
  /\ extractDPI indefinite zeroDpiEnv "photo.png" initialWorld
     = Some (Done (0, None), logged initialWorld (EvOpen "photo.png"))
  /\ processFile indefinite zeroDpiEnv 1 "photo.png" 10000000 "." Lanczos3
       75 false 0 initialWorld
     = Some (Panicked DivideByZero,
             {| messageQueue :=
                  ["Extracted DPI for photo.png: 0"; "Processing photo.png"];
                stdout := [];
                fsLog :=
                  [EvMkdirAll "."; EvOpen "photo.png"; EvOpen "photo.png"];
                barDone := 1 |})
  /\ main indefinite zeroDpiEnv 1 ["photo.png"] initialWorld
     = Some (Panicked DivideByZero,
             {| messageQueue :=
                  ["Processing 1 files"; "Extracted DPI for photo.png: 0";
                   "Processing photo.png"];
                stdout := [];
                fsLog :=
                  [EvMkdirAll "."; EvOpen "photo.png"; EvOpen "photo.png"];
                barDone := 1 |}).
Proof.
  split; [vm_compute; reflexivity|].
  split.
  { intros undef_int fuel originalWidth originalHeight pixelFormat alignment
      memoryLimit.
    unfold calculateMaxResolution.
    destruct (getBytesPerPixel pixelFormat); [|reflexivity].
    apply solverLoop_zero_dpi. }
  repeat split; vm_compute; reflexivity.
Qed.

(** For a [2^60] x 1 image in the indexed format, alignment 4 and a
    budget of [2^60 - 1] bytes, every turn of the loop has height 1, width
    [2^60] and a padded size of [2^60] bytes, one above the budget, and
    the next estimate is 1.0 again ([float64(2^60 - 1)] is [2^60]). *)
Lemma wide_indexed_image_turns (undef_int : float64 -> Z) (fuel : nat) :
  calculateMaxResolution undef_int fuel (2 ^ 60) 1 Format8bppIndexed 4
    (2 ^ 60 - 1) 1 = None
  /\ solverTurns undef_int fuel (2 ^ 60) 1 Format8bppIndexed 4
       (2 ^ 60 - 1)
     = repeat {| c_height := 1; c_width := 2 ^ 60; c_stride := 2 ^ 60;
                 c_total := 2 ^ 60 |} fuel.
Proof.
  set (ratio := div (of_int (2 ^ 60)) (of_int 1)).
  set (one := S754_finite false 4503599627370496 (-52)).
  assert (Hfirst : firstEstimate ratio 1 (2 ^ 60 - 1) = one)
    by (vm_compute; reflexivity).
  assert (Hcand : candidateOf undef_int ratio 1 4 one
                  = Done {| c_height := 1; c_width := 2 ^ 60;
                            c_stride := 2 ^ 60; c_total := 2 ^ 60 |})
    by (vm_compute; reflexivity).
  assert (Hnext : nextEstimate (2 ^ 60 - 1) (2 ^ 60) 1 = one)
    by (vm_compute; reflexivity).
  unfold calculateMaxResolution, solverTurns.
  change (getBytesPerPixel Format8bppIndexed) with (Done 1).
  cbv iota beta. fold ratio. rewrite Hfirst. clear Hfirst.
  assert (Hbody : loopBody undef_int ratio 1 4 (2 ^ 60 - 1) 1 one = Again one).
  { unfold loopBody. rewrite Hcand. cbn [c_total c_stride].
    change (2 ^ 60 <=? 2 ^ 60 - 1) with false. cbv iota.
    rewrite Hnext. reflexivity. }
  induction fuel as [|fuel [IH1 IH2]]; [split; reflexivity|].
  split.
  - cbn [solverLoop]. rewrite Hbody. exact IH1.
  - cbn [turnsFrom]. rewrite Hcand. cbn [c_total c_stride].
    change (2 ^ 60 <=? 2 ^ 60 - 1) with false. cbv iota.
    rewrite Hnext. cbn [repeat]. f_equal. exact IH2.
Qed.

(** C4, as the claim states it, fails.  On a [2^60] x 1 image in the
    indexed format with alignment 4, a budget of [2^60 - 1] bytes and dpi
    1 the loop does not end, however many turns it is given, and the
    height is 1 at every turn: it does not go down. *)
Lemma solver_never_ends_on_wide_indexed_image :
  (forall (undef_int : float64 -> Z) (fuel : nat),
     calculateMaxResolution undef_int fuel (2 ^ 60) 1 Format8bppIndexed 4
       (2 ^ 60 - 1) 1 = None)
  /\ (forall (undef_int : float64 -> Z) (fuel : nat),
        solverTurns undef_int fuel (2 ^ 60) 1 Format8bppIndexed 4
          (2 ^ 60 - 1)
        = repeat {| c_height := 1; c_width := 2 ^ 60; c_stride := 2 ^ 60;
                    c_total := 2 ^ 60 |} fuel)
  /\ ~ Sorted shrinks
        (solverTurns indefinite 2 (2 ^ 60) 1 Format8bppIndexed 4
           (2 ^ 60 - 1)).
Proof.
  split; [|split].
  - intros undef_int fuel. apply wide_indexed_image_turns.
  - intros undef_int fuel. apply wide_indexed_image_turns.
  - rewrite (proj2 (wide_indexed_image_turns indefinite 2)).
    cbn [repeat]. intros Hs.
    inversion Hs as [|c l _ Hhd]; subst.
    inversion Hhd as [|c' l' Hsh]; subst.
    destruct Hsh as [Hlt _]. cbn [c_height] in Hlt. lia.
Qed.

(** A run of two turns: a 7x3 image in the indexed format, rows padded to
    1000 bytes, 50000 bytes of budget.  The first candidate, 340 x 146,
    takes 146000 bytes; the second, 16 x 7, takes 7000 and is accepted. *)
Example solver_turns_of_small_image :
  solverTurns indefinite 5 7 3 Format8bppIndexed 1000 50000
  = [ {| c_height := 146; c_width := 340; c_stride := 1000;
         c_total := 146000 |};
      {| c_height := 7; c_width := 16; c_stride := 1000;
         c_total := 7000 |} ]
  /\ calculateMaxResolution indefinite 5 7 3 Format8bppIndexed 1000 50000 1
     = Some (Done (16, 6)).
Proof. split; vm_compute; reflexivity. Qed.

(** C4, amended.  For an original below [2^31] pixels in each dimension,
    one of the three pixel formats, an alignment of at most [2^20] and a
    budget below [2^46] bytes, with [dpi >= 1], the loop ends: some number
    of turns gives a width and a height, from each turn to the next the
    height goes down and the stride does not go up, and a candidate whose
    total is within the budget is reached.  The loop of the solver without
    the dpi parameter goes through the same candidates and ends too. *)
Theorem solver_ends_within_bounds
    (undef_int : float64 -> Z) (W H pixelFormat a B dpi : Z) :
  0 < W < 2 ^ 31 -> 0 < H < 2 ^ 31 -> 0 <= pixelFormat <= 2 ->
  0 < a <= 2 ^ 20 -> 0 < B < 2 ^ 46 -> 1 <= dpi < 2 ^ 63 ->
  exists (fuel : nat) (nw nh pw ph : Z),
    calculateMaxResolution undef_int fuel W H pixelFormat a B dpi
    = Some (Done (nw, nh))
    /\ Plain.calculateMaxResolution undef_int fuel W H pixelFormat a B
       = Some (Done (pw, ph))
    /\ Sorted shrinks (solverTurns undef_int fuel W H pixelFormat a B)
    /\ Exists (fun c => c_total c <= B)
         (solverTurns undef_int fuel W H pixelFormat a B).
Proof.
  intros HW HH Hpf Ha HB Hdpi.
  destruct (BoundedSolver.solver_within_bounds undef_int W H pixelFormat a B
              dpi HW HH Hpf Ha HB Hdpi)
    as (fuel & nw & nh & bpp & Eb & El & _ & _ & _ & Hsorted
        & pw & ph & Ep & _).
  exists fuel, nw, nh, pw, ph.
  split; [exact El|]. split; [exact Ep|]. split; [exact Hsorted|].
  revert El. unfold calculateMaxResolution, solverTurns. rewrite Eb.
  apply BoundedSolver.turnsFrom_accepted.
Qed.

Lemma solver_ends_within_bounds_witness :
  exists (fuel : nat) (nw nh pw ph : Z),
    calculateMaxResolution indefinite fuel 7 3 Format8bppIndexed 1000 50000 1
    = Some (Done (nw, nh))
    /\ Plain.calculateMaxResolution indefinite fuel 7 3 Format8bppIndexed
         1000 50000
       = Some (Done (pw, ph))
    /\ Sorted shrinks
         (solverTurns indefinite fuel 7 3 Format8bppIndexed 1000 50000)
    /\ Exists (fun c => c_total c <= 50000)
         (solverTurns indefinite fuel 7 3 Format8bppIndexed 1000 50000).
Proof.
  apply (solver_ends_within_bounds indefinite 7 3 Format8bppIndexed 1000
           50000 1);
    unfold Format8bppIndexed; lia.
Defined.

(** * The caller's guard *)



(** * Aspect ratio of the returned pair *)

Module AspectFacts.
Import Float64Facts.

(** The two chains of products behind the bound: [mr] and [mq] are the
    significands of the rounded ratio and of the rounded quotient, [T] is
    [2^50], and the other factors are powers of two. *)
Lemma chain_upper (T k W H nw mr mq A Bh C N1 N2 : Z) :
  0 < T -> 4 * T <= mr -> 4 * T <= mq ->
  0 < A -> 0 < Bh -> 0 < C -> 0 < N1 -> 0 < N2 ->
  0 < W -> 0 < H -> 0 <= nw -> 0 <= k ->
  (W * A) * (8 * T) < (mr + 1) * N1 * (H * Bh) ->
  (mq - 1) * N2 * mr <= (nw * C) * (8 * T) ->
  k * (C * Bh * N1) <= mq * (A * N2) ->
  k * W * T <= nw * H * (T + 1).
Proof.
  intros HT Hmr Hmq HA HB HC HN1 HN2 HW HH Hnw Hk H2 H3 H5.
  set (V := C * Bh * N1) in *.
  assert (HV : 0 < V) by (unfold V; nia).
  apply Z.mul_le_mono_pos_r with (p := 8 * T * V); [nia|].
  assert (L1 : k * W * T * (8 * T * V)
               <= mq * (A * N2) * W * T * (8 * T)).
  { replace (k * W * T * (8 * T * V))
      with ((k * V) * (W * T * (8 * T))) by ring.
    replace (mq * (A * N2) * W * T * (8 * T))
      with ((mq * (A * N2)) * (W * T * (8 * T))) by ring.
    apply Z.mul_le_mono_nonneg_r; [nia | exact H5]. }
  assert (L2 : mq * (A * N2) * W * T * (8 * T)
               <= mq * N2 * T * ((mr + 1) * N1 * (H * Bh))).
  { replace (mq * (A * N2) * W * T * (8 * T))
      with ((mq * N2 * T) * (W * A * (8 * T))) by ring.
    apply Z.mul_le_mono_nonneg_l; [nia | lia]. }
  assert (Key : mq * (mr + 1) * T <= (T + 1) * ((mq - 1) * mr)) by nia.
  assert (L3 : mq * N2 * T * ((mr + 1) * N1 * (H * Bh))
               <= (T + 1) * ((mq - 1) * mr) * (N2 * N1 * (H * Bh))).
  { replace (mq * N2 * T * ((mr + 1) * N1 * (H * Bh)))
      with ((mq * (mr + 1) * T) * (N2 * N1 * (H * Bh))) by ring.
    apply Z.mul_le_mono_nonneg_r; [nia | exact Key]. }
  assert (L4 : (T + 1) * ((mq - 1) * mr) * (N2 * N1 * (H * Bh))
               <= nw * H * (T + 1) * (8 * T * V)).
  { replace ((T + 1) * ((mq - 1) * mr) * (N2 * N1 * (H * Bh)))
      with (((mq - 1) * N2 * mr) * ((T + 1) * N1 * (H * Bh))) by ring.
    replace (nw * H * (T + 1) * (8 * T * V))
      with ((nw * C * (8 * T)) * ((T + 1) * N1 * (H * Bh)))
      by (unfold V; ring).
    apply Z.mul_le_mono_nonneg_r; [nia | exact H3]. }
  lia.
Qed.

Lemma chain_lower (T k W H nw mr mq A Bh C N1 N2 : Z) :
  0 < T -> 4 * T <= mr -> 4 * T <= mq ->
  0 < A -> 0 < Bh -> 0 < C -> 0 < N1 -> 0 < N2 ->
  0 < W -> 0 < H -> 0 <= nw -> 0 <= k ->
  (mr - 1) * N1 * (H * Bh) <= (W * A) * (8 * T) ->
  (nw * C) * (8 * T) < (mq + 1) * N2 * mr ->
  mq * (A * N2) < (k + 1) * (C * Bh * N1) ->
  nw * H * (T - 1) < (k + 1) * W * T.
Proof.
  intros HT Hmr Hmq HA HB HC HN1 HN2 HW HH Hnw Hk H1 H4 H5.
  set (V := C * Bh * N1) in *.
  assert (HV : 0 < V) by (unfold V; nia).
  apply Z.mul_lt_mono_pos_r with (p := 8 * T * V); [nia|].
  assert (L1 : nw * H * (T - 1) * (8 * T * V)
               <= (mq + 1) * N2 * mr * ((T - 1) * N1 * (H * Bh))).
  { replace (nw * H * (T - 1) * (8 * T * V))
      with ((nw * C * (8 * T)) * ((T - 1) * N1 * (H * Bh)))
      by (unfold V; ring).
    apply Z.mul_le_mono_nonneg_r; [nia | lia]. }
  assert (Key : (T - 1) * ((mq + 1) * mr) <= T * (mq * (mr - 1))) by nia.
  assert (L2 : (mq + 1) * N2 * mr * ((T - 1) * N1 * (H * Bh))
               <= T * (mq * (mr - 1)) * (N2 * N1 * (H * Bh))).
  { replace ((mq + 1) * N2 * mr * ((T - 1) * N1 * (H * Bh)))
      with (((T - 1) * ((mq + 1) * mr)) * (N2 * N1 * (H * Bh))) by ring.
    apply Z.mul_le_mono_nonneg_r; [nia | exact Key]. }
  assert (L3 : T * (mq * (mr - 1)) * (N2 * N1 * (H * Bh))
               <= mq * N2 * T * (W * A * (8 * T))).
  { replace (T * (mq * (mr - 1)) * (N2 * N1 * (H * Bh)))
      with ((mq * N2 * T) * ((mr - 1) * N1 * (H * Bh))) by ring.
    apply Z.mul_le_mono_nonneg_l; [nia | exact H1]. }
  assert (L4 : mq * N2 * T * (W * A * (8 * T))
               < (k + 1) * W * T * (8 * T * V)).
  { replace (mq * N2 * T * (W * A * (8 * T)))
      with ((mq * (A * N2)) * (W * T * (8 * T))) by ring.
    replace ((k + 1) * W * T * (8 * T * V))
      with (((k + 1) * V) * (W * T * (8 * T))) by ring.
    apply Z.mul_lt_mono_pos_r; [nia | exact H5]. }
  lia.
Qed.

(** The integer part of [m * 2^(u - v)]. *)
Lemma truncate_bounds (m : positive) (u v : Z) :
  0 <= u -> 0 <= v ->
  exists k : Z,
    truncate (S754_finite false m (u - v)) = Some k
    /\ 0 <= k
    /\ k * 2 ^ v <= Zpos m * 2 ^ u < (k + 1) * 2 ^ v.
Proof.
  intros Hu Hv. unfold truncate, cond_Zopp.
  assert (0 < 2 ^ u) by (apply Z.pow_pos_nonneg; lia).
  assert (0 < 2 ^ v) by (apply Z.pow_pos_nonneg; lia).
  destruct (Z.leb_spec 0 (u - v)) as [Hge | Hlt].
  - eexists. split; [reflexivity|].
    rewrite Z.shiftl_mul_pow2 by lia.
    assert (E : 2 ^ u = 2 ^ (u - v) * 2 ^ v).
    { rewrite <- Z.pow_add_r by lia. f_equal. lia. }
    assert (0 < 2 ^ (u - v)) by (apply Z.pow_pos_nonneg; lia).
    rewrite E. split; [nia|]. split; nia.
  - eexists. split; [reflexivity|].
    rewrite Z.shiftr_div_pow2 by lia.
    replace (- (u - v)) with (v - u) by lia.
    assert (E : 2 ^ v = 2 ^ (v - u) * 2 ^ u).
    { rewrite <- Z.pow_add_r by lia. f_equal. lia. }
    assert (P : 0 < 2 ^ (v - u)) by (apply Z.pow_pos_nonneg; lia).
    pose proof (Z.div_mod (Zpos m) (2 ^ (v - u)) ltac:(lia)) as Hdm.
    pose proof (Z.mod_pos_bound (Zpos m) (2 ^ (v - u)) P) as Hmb.
    assert (0 <= Zpos m / 2 ^ (v - u)) by (apply Z.div_pos; lia).
    rewrite E. split; [assumption|]. split; nia.
Qed.

Section Height.
Variable undef_int : float64 -> Z.

(** The height computed from a width [nw] for an original of [W] x [H]
    pixels is [nw * H / W], cut to an integer, up to a relative error of
    [2^-50] from the two float divisions. *)
Lemma height_of_width (W H nw : Z) :
  0 < W < 2 ^ 31 -> 0 < H < 2 ^ 31 -> 0 <= nw < 2 ^ 31 ->
  let nh := to_int undef_int (div (of_int nw) (div (of_int W) (of_int H))) in
  0 <= nh
  /\ nh * W * 2 ^ 50 <= nw * H * (2 ^ 50 + 1)
  /\ nw * H * (2 ^ 50 - 1) < (nh + 1) * W * 2 ^ 50.
Proof.
  intros HW HH Hnw.
  destruct (of_int_exact W) as (mW & aW & EW & HaW & HmW & VW); [lia|].
  destruct (of_int_exact H) as (mH & aH & EH & HaH & HmH & VH); [lia|].
  destruct (div_normal mW mH (- aW) (- aH)) as (mr & n1 & Er & Hn1 & Hmr & R1 & R2);
    [lia | lia | lia |].
  rewrite EW, EH, Er.
  destruct (Z.eq_dec nw 0) as [-> | Hpos].
  - rewrite div_zero_finite, to_int_zero. cbv zeta. lia.
  - destruct (of_int_exact nw) as (mN & aN & EN & HaN & HmN & VN); [lia|].
    destruct (div_normal mN mr (- aN) (- aW - - aH - 53 + n1))
      as (mq & n2 & Eq & Hn2 & Hmq & Q1 & Q2); [lia | lia | lia |].
    rewrite EN, Eq.
    replace (- aN - (- aW - - aH - 53 + n1) - 53 + n2)
      with ((aW + n2) - (aN + aH + n1)) by lia.
    destruct (truncate_bounds mq (aW + n2) (aN + aH + n1))
      as (k & Ek & Hk0 & Hk1 & Hk2); [lia | lia |].
    assert (PA : 0 < 2 ^ aW) by (apply Z.pow_pos_nonneg; lia).
    assert (PB : 0 < 2 ^ aH) by (apply Z.pow_pos_nonneg; lia).
    assert (PC : 0 < 2 ^ aN) by (apply Z.pow_pos_nonneg; lia).
    assert (P1 : 0 < 2 ^ n1) by (apply Z.pow_pos_nonneg; lia).
    assert (P2 : 0 < 2 ^ n2) by (apply Z.pow_pos_nonneg; lia).
    rewrite (Z.pow_add_r 2 aW n2) in Hk1, Hk2 by lia.
    rewrite (Z.pow_add_r 2 (aN + aH) n1), (Z.pow_add_r 2 aN aH) in Hk1, Hk2
      by lia.
    rewrite VW, VH in R1, R2. rewrite VN in Q1, Q2.
    change (2 ^ 53) with (8 * 2 ^ 50) in R1, R2, Q1, Q2.
    change (2 ^ 52) with (4 * 2 ^ 50) in Hmr, Hmq.
    assert (PT : 0 < 2 ^ 50) by lia.
    remember (2 ^ 50) as T eqn:ET.
    assert (Up : k * W * T <= nw * H * (T + 1)).
    { apply (chain_upper T k W H nw (Zpos mr) (Zpos mq)
               (2 ^ aW) (2 ^ aH) (2 ^ aN) (2 ^ n1) (2 ^ n2)); lia. }
    assert (Lo : nw * H * (T - 1) < (k + 1) * W * T).
    { apply (chain_lower T k W H nw (Zpos mr) (Zpos mq)
               (2 ^ aW) (2 ^ aH) (2 ^ aN) (2 ^ n1) (2 ^ n2)); lia. }
    assert (Hrange : Int64.in_range k = true).
    { unfold Int64.in_range, Int64.min_int, Int64.max_int.
      apply andb_true_intro. split; apply Z.leb_le; [lia|].
      assert (B1 : nw * H <= 2 ^ 31 * 2 ^ 31)
        by (apply Z.mul_le_mono_nonneg; lia).
      assert (B2 : k * T <= k * W * T).
      { replace (k * W * T) with (k * T * W) by ring.
        rewrite <- (Z.mul_1_r (k * T)) at 1.
        apply Z.mul_le_mono_nonneg_l; [apply Z.mul_nonneg_nonneg|]; lia. }
      clear - B1 B2 Up ET. subst T. lia. }
    unfold to_int. rewrite Ek, Hrange. cbv zeta.
    repeat split; assumption.
Qed.

End Height.

End AspectFacts.

(** C5, as the claim states it, fails: a 1000x1 image with a budget of
    16000 bytes and dpi 999 comes back as 1998 x 1, a ratio of 1998
    against the original 1000; with a budget of 4000 bytes it comes back
    as 999 x 0, which has no ratio at all. *)
Lemma aspect_ratio_not_kept :
  calculateMaxResolution indefinite 1 1000 1 Format32bppArgb 4 16000 999
  = Some (Done (1998, 1))
  /\ 1998 * 1 - 1 * 1000 = 998
  /\ calculateMaxResolution indefinite 1 1000 1 Format32bppArgb 4 4000 999
     = Some (Done (999, 0)).
Proof. repeat split; vm_compute; reflexivity. Qed.

(** C5, amended.  For an original below [2^31] pixels in each dimension
    and a returned width in [0 .. 2^31), the returned height is the
    aspect-preserving height [width * H / W] cut to an integer, up to a
    relative error of [2^-50]:
    [height <= (width * H / W) * (1 + 2^-50)] and
    [height + 1 > (width * H / W) * (1 - 2^-50)]. *)
Theorem returned_height_follows_aspect :
  forall (undef_int : float64 -> Z) (fuel : nat)
         (originalWidth originalHeight : Z) (pixelFormat : PixelFormat)
         (alignment memoryLimit dpi : Z) (width height : Z),
    0 < originalWidth < 2 ^ 31 -> 0 < originalHeight < 2 ^ 31 ->
    calculateMaxResolution undef_int fuel originalWidth originalHeight
      pixelFormat alignment memoryLimit dpi = Some (Done (width, height)) ->
    0 <= width < 2 ^ 31 ->
    0 <= height
    /\ height * originalWidth * 2 ^ 50
       <= width * originalHeight * (2 ^ 50 + 1)
    /\ width * originalHeight * (2 ^ 50 - 1)
       < (height + 1) * originalWidth * 2 ^ 50.
Proof.
  intros undef_int fuel W H pf a B dpi nw nh HW HH Hret Hnw.
  unfold calculateMaxResolution in Hret.
  destruct (getBytesPerPixel pf); [|discriminate].
  apply solverLoop_height in Hret. subst nh.
  apply AspectFacts.height_of_width; assumption.
Qed.

Lemma returned_height_follows_aspect_witness :
  calculateMaxResolution indefinite 1 6000 4000 Format32bppArgb 4 10000000 72
  = Some (Done (1872, 1248))
  /\ 1248 * 6000 * 2 ^ 50 <= 1872 * 4000 * (2 ^ 50 + 1)
  /\ 1872 * 4000 * (2 ^ 50 - 1) < (1248 + 1) * 6000 * 2 ^ 50.
Proof.
  split; [vm_compute; reflexivity|].
  apply (returned_height_follows_aspect indefinite 1 6000 4000
           Format32bppArgb 4 10000000 72 1872 1248);
    try lia; vm_compute; reflexivity.
Defined.

(** * Further properties of the code *)

(** ** Commands that keep a relation *)

Section KeepsFacts.
Context {R : World -> World -> Prop}.
Hypothesis R_refl : forall w, R w w.
Hypothesis R_trans : forall w1 w2 w3, R w1 w2 -> R w2 w3 -> R w1 w3.

Lemma keeps_ret {A} (a : A) : keeps R (ret a).
Proof. intros w r w' H. injection H as <- <-. apply R_refl. Qed.

Lemma keeps_raise {A} (p : panic) : keeps R (@raise A p).
Proof. intros w r w' H. injection H as <- <-. apply R_refl. Qed.

Lemma keeps_lift {A} (o : outcome A) : keeps R (lift o).
Proof. intros w r w' H. injection H as <- <-. apply R_refl. Qed.

Lemma keeps_liftFuel {A} (o : option (outcome A)) : keeps R (liftFuel o).
Proof.
  intros w r w' H. unfold liftFuel in H. destruct o; [|discriminate].
  injection H as <- <-. apply R_refl.
Qed.

Lemma keeps_bind {A B} (c : M A) (k : A -> M B) :
  keeps R c -> (forall a, keeps R (k a)) -> keeps R (bind c k).
Proof.
  intros Hc Hk w r w' H. unfold bind in H.
  destruct (c w) as [[[a | p] w1] |] eqn:E; [| |discriminate].
  - eapply R_trans; [eapply Hc; eassumption | eapply Hk; eassumption].
  - injection H as <- <-. eapply Hc; eassumption.
Qed.

Lemma keeps_os_Stat (env : Env) (path : string) : keeps R (os_Stat env path).
Proof. intros w r w' H. injection H as <- <-. apply R_refl. Qed.
End KeepsFacts.

Ltac keeps_step prim :=
  first
    [ apply keeps_ret; solve [auto]
    | apply keeps_raise; solve [auto]
    | apply keeps_lift; solve [auto]
    | apply keeps_liftFuel; solve [auto]
    | apply keeps_os_Stat; solve [auto]
    | solve [prim]
    | apply keeps_bind; [solve [eauto] | | intros ?]
    | match goal with
      | |- keeps _ (match ?x with _ => _ end) => destruct x eqn:?
      end ].
Ltac keeps_tac prim := repeat keeps_step prim.

(** ** The progress bar *)

Lemma sameBar_refl w : sameBar w w.
Proof. reflexivity. Qed.

Lemma sameBar_trans w1 w2 w3 : sameBar w1 w2 -> sameBar w2 w3 -> sameBar w1 w3.
Proof. unfold sameBar. congruence. Qed.

#[local] Hint Resolve sameBar_refl sameBar_trans : core.

Lemma sameBar_logFs e : keeps sameBar (logFs e).
Proof. intros w r w' H. injection H as <- <-. reflexivity. Qed.

Lemma sameBar_safePrint m : keeps sameBar (safePrint m).
Proof. intros w r w' H. injection H as <- <-. reflexivity. Qed.

Lemma sameBar_write m : keeps sameBar (write m).
Proof. intros w r w' H. injection H as <- <-. reflexivity. Qed.

Ltac bar_prim :=
  first [apply sameBar_logFs | apply sameBar_safePrint | apply sameBar_write].

Section BarFacts.
Variable undef_int : float64 -> Z.
Variable env : Env.

Lemma sameBar_extractDPI filePath :
  keeps sameBar (extractDPI undef_int env filePath).
Proof. unfold extractDPI. keeps_tac bar_prim. Qed.

Lemma sameBar_resolveDPI filePath o :
  keeps sameBar (resolveDPI undef_int env filePath o).
Proof.
  unfold resolveDPI.
  keeps_tac ltac:(first [bar_prim | apply sameBar_extractDPI]).
Qed.

Lemma sameBar_saveImage img o f q : keeps sameBar (saveImage env img o f q).
Proof. unfold saveImage. keeps_tac bar_prim. Qed.

Lemma sameBar_resizeImage fuel f o d m a q dpi :
  keeps sameBar (resizeImage undef_int env fuel f o d m a q dpi).
Proof.
  unfold resizeImage.
  keeps_tac ltac:(first [bar_prim | apply sameBar_saveImage]).
Qed.

(** X7, [processFile] ([defer bar.Increment()]).  A call of [processFile]
    that comes to an end advances the progress bar by exactly one,
    however it ends: with a file written, with an error reported, with
    the output already there, or with a panic. *)
Theorem processFile_increments_bar_once
    (fuel : nat) (filePath : string) (memoryLimit : Z) (outputDir : string)
    (algorithm : InterpolationFunction) (quality : Z) (dryRun : bool)
    (overrideDPI : Z) (w w' : World) (r : outcome unit) :
  processFile undef_int env fuel filePath memoryLimit outputDir algorithm
    quality dryRun overrideDPI w = Some (r, w') ->
  barDone w' = S (barDone w).
Proof.
  unfold processFile, deferred. intros H.
  match type of H with
  | match ?body w with _ => _ end = _ =>
      assert (Hk : keeps sameBar body);
      [|destruct (body w) as [[r0 w0]|] eqn:E; [|discriminate]]
  end.
  { keeps_tac ltac:(first [bar_prim | apply sameBar_resolveDPI
                          | apply sameBar_resizeImage]). }
  injection H as <- <-. cbn [barIncrement barDone]. f_equal.
  exact (Hk _ _ _ E).
Qed.
End BarFacts.

Lemma processFile_increments_bar_once_witness :
  processFile indefinite sampleEnv 1 "photo.png" 10000000 "." Lanczos3 75
    false 72 initialWorld = Some (Done tt, sampleResized)
  /\ barDone sampleResized = S (barDone initialWorld).
Proof.
  assert (E : processFile indefinite sampleEnv 1 "photo.png" 10000000 "."
                Lanczos3 75 false 72 initialWorld
              = Some (Done tt, sampleResized))
    by (vm_compute; reflexivity).
  split; [exact E|].
  exact (processFile_increments_bar_once indefinite sampleEnv 1 "photo.png"
           10000000 "." Lanczos3 75 false 72 initialWorld sampleResized
           (Done tt) E).
Defined.

(** ** The file system *)

Lemma onlyLogs_refl P w : onlyLogs P w w.
Proof. exists []. split; [symmetry; apply app_nil_r | constructor]. Qed.

Lemma onlyLogs_trans P w1 w2 w3 :
  onlyLogs P w1 w2 -> onlyLogs P w2 w3 -> onlyLogs P w1 w3.
Proof.
  intros (e1 & E1 & F1) (e2 & E2 & F2). exists (e1 ++ e2)%list. split.
  - rewrite E2, E1, app_assoc. reflexivity.
  - apply Forall_app. split; assumption.
Qed.

#[local] Hint Resolve onlyLogs_refl onlyLogs_trans : core.

Lemma onlyLogs_logFs (P : FsEvent -> Prop) e :
  P e -> keeps (onlyLogs P) (logFs e).
Proof.
  intros He w r w' H. injection H as <- <-. exists [e].
  split; [reflexivity | constructor; [assumption | constructor]].
Qed.

Lemma onlyLogs_same_log P w w' : fsLog w' = fsLog w -> onlyLogs P w w'.
Proof.
  intros E. exists []. split; [rewrite E; symmetry; apply app_nil_r|].
  constructor.
Qed.

Lemma onlyLogs_safePrint P m : keeps (onlyLogs P) (safePrint m).
Proof.
  intros w r w' H. injection H as <- <-. apply onlyLogs_same_log.
  reflexivity.
Qed.

Ltac logs_prim :=
  first [ apply onlyLogs_safePrint
        | apply onlyLogs_logFs; cbn; reflexivity ].

Section LogFacts.
Variable undef_int : float64 -> Z.
Variable env : Env.
Variables filePath outputDir outputPath : string.

Lemma onlyLogs_extractDPI :
  keeps (onlyLogs (touches filePath outputDir outputPath))
    (extractDPI undef_int env filePath).
Proof. unfold extractDPI. keeps_tac logs_prim. Qed.

Lemma onlyLogs_resolveDPI o :
  keeps (onlyLogs (touches filePath outputDir outputPath))
    (resolveDPI undef_int env filePath o).
Proof.
  unfold resolveDPI.
  keeps_tac ltac:(first [logs_prim | apply onlyLogs_extractDPI]).
Qed.

Lemma onlyLogs_saveImage img f q :
  keeps (onlyLogs (touches filePath outputDir outputPath))
    (saveImage env img outputPath f q).
Proof. unfold saveImage. keeps_tac logs_prim. Qed.

Lemma onlyLogs_resizeImage fuel d m a q dpi :
  keeps (onlyLogs (touches filePath outputDir outputPath))
    (resizeImage undef_int env fuel filePath outputPath d m a q dpi).
Proof.
  unfold resizeImage.
  keeps_tac ltac:(first [logs_prim | apply onlyLogs_saveImage]).
Qed.
End LogFacts.

Lemma existsb_created_logged (env : Env) (path : string) (w : World)
    (e : FsEvent) :
  (forall p, e <> EvCreate p) ->
  existsb (created env path) (fsLog (logged w e))
  = existsb (created env path) (fsLog w).
Proof.
  intros He. cbn [logged fsLog]. rewrite existsb_app. cbn [existsb].
  destruct e; try (cbn; rewrite !orb_false_r; reflexivity).
  exfalso. eapply He. reflexivity.
Qed.

Section FileFacts.
Variable undef_int : float64 -> Z.
Variable env : Env.

(** X8, [processFile], [resizeImage], [saveImage].  A call of
    [processFile] first makes the output directory; every later call on
    the file system opens the input file or creates, encodes or writes
    the output file, and nothing else; and when the output file is there
    at the start, the call makes no later call at all, so a file that
    exists is never opened, truncated or written again. *)
Theorem processFile_touches_only_its_files
    (fuel : nat) (filePath : string) (memoryLimit : Z) (outputDir : string)
    (algorithm : InterpolationFunction) (quality : Z) (dryRun : bool)
    (overrideDPI : Z) (w w' : World) (r : outcome unit) :
  processFile undef_int env fuel filePath memoryLimit outputDir algorithm
    quality dryRun overrideDPI w = Some (r, w') ->
  let outputPath := outputPathOf env filePath outputDir in
  exists rest,
    fsLog w' = (fsLog w ++ EvMkdirAll outputDir :: rest)%list
    /\ Forall (touches filePath outputDir outputPath) rest
    /\ (existsNow env w outputPath = true -> rest = []).
Proof.
  intros H outputPath.
  unfold processFile, deferred in H.
  match type of H with
  | match ?body w with _ => _ end = _ =>
      destruct (body w) as [[r0 w0]|] eqn:E; [|discriminate]
  end.
  injection H as <- <-. cbn [barIncrement fsLog].
  unfold bind at 1 in E. cbn [logFs] in E.
  fold (logged w (EvMkdirAll outputDir)) in E.
  set (w1 := logged w (EvMkdirAll outputDir)) in *.
  destruct (os_MkdirAll env outputDir) as [err|].
  { injection E as <- <-. exists []. cbn. repeat split; constructor. }
  fold outputPath in E. unfold bind at 1 in E.
  unfold os_Stat at 1 in E.
  assert (Hex : existsNow env w outputPath
                = match (if existsb (created env outputPath) (fsLog w1)
                         then inr false
                         else os_StatInitial env outputPath) with
                  | inr _ => true | inl _ => false end).
  { unfold existsNow, os_Stat. unfold w1.
    rewrite existsb_created_logged by discriminate.
    destruct (existsb _ _); [reflexivity|].
    destruct (os_StatInitial env outputPath); reflexivity. }
  destruct (if existsb (created env outputPath) (fsLog w1)
            then inr false else os_StatInitial env outputPath)
    as [err | isDir].
  - match type of E with
    | ?c w1 = _ =>
        assert (Hk : keeps (onlyLogs (touches filePath outputDir outputPath)) c)
    end.
    { keeps_tac ltac:(first [logs_prim | apply onlyLogs_resolveDPI
                            | apply onlyLogs_resizeImage]). }
    destruct (Hk _ _ _ E) as (evs & El & Hf).
    exists evs. split; [|split; [assumption|]].
    + rewrite El. unfold w1. cbn [logged fsLog].
      rewrite <- app_assoc. reflexivity.
    + rewrite Hex. discriminate.
  - injection E as <- <-. exists []. cbn. repeat split; constructor.
Qed.
End FileFacts.

Lemma processFile_touches_only_its_files_witness :
  processFile indefinite sampleEnv 1 "photo.png" 10000000 "." Lanczos3 75
    false 72 initialWorld = Some (Done tt, sampleResized)
  /\ exists rest,
       fsLog sampleResized
       = (fsLog initialWorld ++ EvMkdirAll "." :: rest)%list
       /\ Forall
            (touches "photo.png" "." (outputPathOf sampleEnv "photo.png" "."))
            rest
       /\ (existsNow sampleEnv initialWorld
             (outputPathOf sampleEnv "photo.png" ".") = true ->
           rest = []).
Proof.
  assert (E : processFile indefinite sampleEnv 1 "photo.png" 10000000 "."
                Lanczos3 75 false 72 initialWorld
              = Some (Done tt, sampleResized))
    by (vm_compute; reflexivity).
  split; [exact E|].
  exact (processFile_touches_only_its_files indefinite sampleEnv 1
           "photo.png" 10000000 "." Lanczos3 75 false 72 initialWorld
           sampleResized (Done tt) E).
Defined.

(** ** The queue of messages *)

Lemma onlyQueues_refl w : onlyQueues w w.
Proof. split; [reflexivity|]. exists []. symmetry. apply app_nil_r. Qed.

Lemma onlyQueues_trans w1 w2 w3 :
  onlyQueues w1 w2 -> onlyQueues w2 w3 -> onlyQueues w1 w3.
Proof.
  intros (S1 & m1 & Q1) (S2 & m2 & Q2). split; [congruence|].
  exists (m1 ++ m2)%list. rewrite Q2, Q1, app_assoc. reflexivity.
Qed.

#[local] Hint Resolve onlyQueues_refl onlyQueues_trans : core.




Section QueueFacts.
Variable undef_int : float64 -> Z.
Variable env : Env.







End QueueFacts.


(** ** Paths that cannot be read *)

Section AccessFacts.
Variable undef_int : float64 -> Z.
Variable env : Env.

Lemma queuedAll_nil (w : World) : queuedAll w [] = w.
Proof. unfold queuedAll. rewrite app_nil_r. destruct w; reflexivity. Qed.

Lemma queuedAll_cons (w : World) (m : string) (l : list string) :
  queuedAll (queued w m) l = queuedAll w (m :: l).
Proof.
  unfold queuedAll, queued. cbn. rewrite <- app_assoc. reflexivity.
Qed.

Lemma processPath_inaccessible (fuel : nat) (path : string) (memoryLimit : Z)
    (outputDir : string) (algorithm : InterpolationFunction) (quality : Z)
    (dryRun recursive : bool) (dpi : Z) (w : World) (err : error) :
  existsb (created env path) (fsLog w) = false ->
  os_StatInitial env path = inl err ->
  processPath undef_int env fuel path memoryLimit outputDir algorithm quality
    dryRun recursive dpi w
  = Some (Done tt, queued w ("Error accessing path: " ++ err)).
Proof.
  intros Hc Hs. unfold processPath, bind, os_Stat. rewrite Hc, Hs.
  reflexivity.
Qed.

Lemma processPaths_inaccessible (fuel : nat) (paths : list string)
    (memoryLimit : Z) (outputDir : string) (algorithm : InterpolationFunction)
    (quality : Z) (dryRun recursive : bool) (dpi : Z) (w : World)
    (err : string -> error) :
  (forall p, In p paths ->
             existsb (created env p) (fsLog w) = false
             /\ os_StatInitial env p = inl (err p)) ->
  processPaths undef_int env fuel paths memoryLimit outputDir algorithm
    quality dryRun recursive dpi w
  = Some (Done tt,
          queuedAll w
            (map (fun p => "Error accessing path: " ++ err p) paths)).
Proof.
  revert w. induction paths as [|p rest IH]; intros w Hp.
  - cbn. rewrite queuedAll_nil. reflexivity.
  - cbn [processPaths map]. unfold bind.
    destruct (Hp p (or_introl eq_refl)) as [Hc Hs].
    rewrite (processPath_inaccessible _ _ _ _ _ _ _ _ _ _ _ Hc Hs).
    rewrite IH.
    + rewrite queuedAll_cons. reflexivity.
    + intros q Hq. cbn [queued fsLog]. apply Hp. right. exact Hq.
Qed.

(** X11, [main], [Action], [processPath].  When none of the paths on the
    command line can be read, the program queues one
    [Error accessing path: ...] message for each, in order, prints
    nothing, calls nothing on the file system and ends with status 0:
    the early return of [processPath] skips its [flushMessages], and no
    later call prints the queue. *)
Theorem main_prints_nothing_for_unreadable_paths
    (fuel : nat) (args : list string) (c : Context) (w : World)
    (err : string -> error) :
  cli_Parse env args = inr c ->
  args <> [] -> Args c <> [] ->
  (forall p, In p (Args c) ->
             existsb (created env p) (fsLog w) = false
             /\ os_StatInitial env p = inl (err p)) ->
  main undef_int env fuel args w
  = Some (Done 0,
          queuedAll w
            (map (fun p => "Error accessing path: " ++ err p) (Args c))).
Proof.
  intros Hp Ha Hc He. unfold main.
  destruct args as [|a args]; [contradiction|]. cbn [List.length Nat.eqb andb].
  unfold bind at 1. unfold appRun. rewrite Hp. unfold Action.
  destruct (Args c) as [|p ps] eqn:Eargs; [contradiction|].
  cbn [List.length Nat.eqb]. unfold bind at 1.
  rewrite (processPaths_inaccessible _ _ _ _ _ _ _ _ _ _ _ He).
  reflexivity.
Qed.
End AccessFacts.

Lemma main_prints_nothing_for_unreadable_paths_witness :
  main indefinite sampleEnv 1 ["missing.png"] initialWorld
  = Some (Done 0,
          queuedAll initialWorld
            (map (fun p => "Error accessing path: " ++ "no such file")
               ["missing.png"])).
Proof.
  apply (main_prints_nothing_for_unreadable_paths indefinite sampleEnv 1
           ["missing.png"] (sampleContext ["missing.png"]) initialWorld
           (fun _ => "no such file")).
  - reflexivity.
  - discriminate.
  - discriminate.
  - intros p [<- | []]. split; reflexivity.
Defined.

(** ** Runs that end, and end without a panic *)

Lemma returns_ret {A} (a : A) : returns (ret a).
Proof. intros w r w' H. injection H as <- <-. eexists; reflexivity. Qed.

Lemma returns_bind {A B} (c : M A) (k : A -> M B) :
  returns c -> (forall a, returns (k a)) -> returns (bind c k).
Proof.
  intros Hc Hk w r w' H. unfold bind in H.
  destruct (c w) as [[[a | p] w1] |] eqn:E; [| |discriminate].
  - eapply Hk; eassumption.
  - destruct (Hc _ _ _ E) as [a Ha]. discriminate.
Qed.

Lemma returns_bind_with {A B} (Q : A -> Prop) (c : M A) (k : A -> M B) :
  (forall w r w', c w = Some (r, w') -> exists a, r = Done a /\ Q a) ->
  (forall a, Q a -> returns (k a)) ->
  returns (bind c k).
Proof.
  intros Hc Hk w r w' H. unfold bind in H.
  destruct (c w) as [[[a | p] w1] |] eqn:E; [| |discriminate].
  - destruct (Hc _ _ _ E) as (a' & Ea & Qa). injection Ea as <-.
    eapply Hk; eassumption.
  - destruct (Hc _ _ _ E) as (a' & Ea & _). discriminate.
Qed.

Lemma returns_logFs e : returns (logFs e).
Proof. intros w r w' H. injection H as <- <-. eexists; reflexivity. Qed.

Lemma returns_safePrint m : returns (safePrint m).
Proof. intros w r w' H. injection H as <- <-. eexists; reflexivity. Qed.

Lemma returns_os_Stat env p : returns (os_Stat env p).
Proof. intros w r w' H. injection H as <- <-. eexists; reflexivity. Qed.

Lemma returns_lift_Done {A} (a : A) : returns (lift (Done a)).
Proof. intros w r w' H. injection H as <- <-. eexists; reflexivity. Qed.

Lemma returns_liftFuel {A} (o : option (outcome A)) :
  (forall r, o = Some r -> exists a, r = Done a) -> returns (liftFuel o).
Proof.
  intros Ho w r w' H. unfold liftFuel in H.
  destruct o as [r0|]; [|discriminate].
  injection H as <- <-. apply Ho. reflexivity.
Qed.

Lemma returns_bind_lift {A B} (a : A) (k : A -> M B) :
  returns (k a) -> returns (bind (lift (Done a)) k).
Proof. intros Hk w r w' H. exact (Hk w r w' H). Qed.

Ltac returns_step prim :=
  first
    [ apply returns_ret
    | apply returns_bind_lift
    | apply returns_logFs | apply returns_safePrint | apply returns_os_Stat
    | solve [prim]
    | apply returns_bind; [ | intros ?]
    | match goal with
      | |- returns (match ?x with _ => _ end) => destruct x eqn:?
      end ].
Ltac returns_tac prim := repeat returns_step prim.

Lemma ends_ret {A} (a : A) : ends (ret a).
Proof. intros w. eexists _, _. reflexivity. Qed.

Lemma ends_logFs e : ends (logFs e).
Proof. intros w. eexists _, _. reflexivity. Qed.

Lemma ends_safePrint m : ends (safePrint m).
Proof. intros w. eexists _, _. reflexivity. Qed.

Lemma ends_os_Stat env p : ends (os_Stat env p).
Proof. intros w. eexists _, _. reflexivity. Qed.

Lemma ends_lift {A} (o : outcome A) : ends (lift o).
Proof. intros w. eexists _, _. reflexivity. Qed.

Lemma ends_liftFuel {A} (o : outcome A) : ends (liftFuel (Some o)).
Proof. intros w. eexists _, _. reflexivity. Qed.

Lemma ends_bind {A B} (c : M A) (k : A -> M B) :
  ends c -> (forall a, ends (k a)) -> ends (bind c k).
Proof.
  intros Hc Hk w. unfold bind. destruct (Hc w) as (r & w1 & ->).
  destruct r as [a | p]; [apply Hk | eexists _, _; reflexivity].
Qed.

Ltac ends_step prim :=
  first
    [ apply ends_ret | apply ends_logFs | apply ends_safePrint
    | apply ends_os_Stat | apply ends_lift | apply ends_liftFuel
    | solve [prim]
    | apply ends_bind; [ | intros ?]
    | match goal with
      | |- ends (match ?x with _ => _ end) => destruct x eqn:?
      end ].
Ltac ends_tac prim := repeat ends_step prim.

Section Completion.
Variable undef_int : float64 -> Z.
Variable env : Env.

Lemma candidateOf_Done (r : float64) (bpp a : Z) (est : float64) :
  a <> 0 -> exists c, candidateOf undef_int r bpp a est = Done c.
Proof.
  intros Ha. unfold candidateOf, strideOf.
  destruct (Z.eqb_spec a 0) as [|_]; [contradiction|].
  eexists; reflexivity.
Qed.

Lemma solverLoop_returns (fuel : nat) (r : float64) (bpp a B dpi : Z)
    (est : float64) (o : outcome (Z * Z)) :
  a <> 0 -> dpi <> 0 ->
  solverLoop undef_int fuel r bpp a B dpi est = Some o ->
  exists p, o = Done p.
Proof.
  intros Ha Hd. revert est. induction fuel as [|fuel IH]; intros est Hl;
    [discriminate|].
  cbn [solverLoop] in Hl. unfold loopBody in Hl.
  destruct (candidateOf_Done r bpp a est Ha) as [c Ec]. rewrite Ec in Hl.
  destruct (Z.leb (c_total c) B).
  - unfold snapToDPI in Hl. destruct (Z.eqb_spec dpi 0) as [|_];
      [contradiction|].
    injection Hl as <-. eexists; reflexivity.
  - apply (IH _ Hl).
Qed.

Lemma returns_extractDPI filePath :
  returns (extractDPI undef_int env filePath).
Proof. unfold extractDPI. returns_tac fail. Qed.

Lemma returns_resolveDPI filePath o :
  returns (resolveDPI undef_int env filePath o).
Proof. unfold resolveDPI. returns_tac ltac:(apply returns_extractDPI). Qed.

Lemma returns_saveImage img o f q : returns (saveImage env img o f q).
Proof. unfold saveImage. returns_tac fail. Qed.

(** The extensions [processPath] lets through are the ones
    [getPixelFormat] knows, and their pixels take 4 bytes. *)
Lemma getPixelFormat_four_bytes (fileExt : string) :
  isValidImageExtension (strings_ToLower env fileExt) = true ->
  exists pf, getPixelFormat env fileExt = Done pf
             /\ getBytesPerPixel pf = Done 4 /\ 0 <= pf <= 2.
Proof.
  intros Hv.
  destruct (ZeroDPI.getPixelFormat_of_valid env _ Hv) as [E | E];
    rewrite E; eexists; (split; [reflexivity|]);
    (split; [reflexivity|]); unfold Format32bppArgb, Format24bppRgb; lia.
Qed.

Lemma returns_resizeImage fuel filePath o d m a q dpi :
  isValidImageExtension (strings_ToLower env (filepath_Ext env filePath))
  = true ->
  dpi <> 0 ->
  returns (resizeImage undef_int env fuel filePath o d m a q dpi).
Proof.
  intros Hv Hd. unfold resizeImage.
  destruct (getPixelFormat_four_bytes _ Hv) as (pf & Ep & Eb & _).
  rewrite Ep.
  returns_tac ltac:(first [apply returns_saveImage | apply returns_lift_Done]).
  apply returns_liftFuel. intros r Hr. unfold calculateMaxResolution in Hr.
  rewrite Eb in Hr. eapply solverLoop_returns; [| |eassumption]; lia.
Qed.

Lemma resolveDPI_nonzero (filePath : string) (overrideDPI : Z)
    (w w' : World) (r : outcome Z) :
  overrideDPI <> 0 \/ metadataUnreadable env filePath ->
  resolveDPI undef_int env filePath overrideDPI w = Some (r, w') ->
  exists dpi, r = Done dpi /\ dpi <> 0.
Proof.
  intros Hd H. destruct (Z.eq_dec overrideDPI 0) as [-> | Hnz].
  - destruct Hd as [Hd | Hu]; [contradiction|].
    destruct (extractDPI_unreadable undef_int env filePath w Hu) as [err E].
    rewrite (resolveDPI_fallback undef_int env filePath w _ 0 err E) in H.
    injection H as <- _. exists 72. split; [reflexivity | discriminate].
  - rewrite (resolveDPI_override undef_int env filePath overrideDPI w Hnz)
      in H.
    injection H as <- _. exists overrideDPI. split; [reflexivity | assumption].
Qed.

(** A call of [processFile] on a file with a known extension, with a DPI
    given or with metadata that cannot be read, does not panic. *)
Lemma processFile_ends_normally
    (fuel : nat) (filePath : string) (memoryLimit : Z) (outputDir : string)
    (algorithm : InterpolationFunction) (quality : Z) (dryRun : bool)
    (overrideDPI : Z) (w w' : World) (r : outcome unit) :
  isValidImageExtension (strings_ToLower env (filepath_Ext env filePath))
  = true ->
  overrideDPI <> 0 \/ metadataUnreadable env filePath ->
  processFile undef_int env fuel filePath memoryLimit outputDir algorithm
    quality dryRun overrideDPI w = Some (r, w') ->
  r = Done tt.
Proof.
  intros Hv Hd H. unfold processFile, deferred in H.
  match type of H with
  | match ?body w with _ => _ end = _ =>
      assert (Hk : returns body);
      [|destruct (body w) as [[r0 w0]|] eqn:E; [|discriminate]]
  end.
  { clear H.
    apply returns_bind; [apply returns_logFs | intros _].
    destruct (os_MkdirAll env outputDir); [apply returns_safePrint|].
    apply returns_bind; [apply returns_os_Stat | intros st].
    destruct st; [|apply returns_safePrint].
    apply (returns_bind_with (fun dpi => dpi <> 0)).
    - intros w1 r1 w1' H1. eapply resolveDPI_nonzero; eassumption.
    - intros dpi Hdpi.
      returns_tac ltac:(apply returns_resizeImage; assumption). }
  injection H as <- <-. destruct (Hk _ _ _ E) as [[] ->]. reflexivity.
Qed.

Lemma ends_extractDPI filePath : ends (extractDPI undef_int env filePath).
Proof. unfold extractDPI. ends_tac fail. Qed.

Lemma ends_resolveDPI filePath o :
  ends (resolveDPI undef_int env filePath o).
Proof. unfold resolveDPI. ends_tac ltac:(apply ends_extractDPI). Qed.

Lemma ends_saveImage img o f q : ends (saveImage env img o f q).
Proof. unfold saveImage. ends_tac fail. Qed.

(** With fuel enough for the solver, [resizeImage] ends. *)
Lemma ends_resizeImage (filePath outputPath : string) (dryRun : bool)
    (memoryLimit : Z) (algorithm : InterpolationFunction) (quality dpi : Z) :
  isValidImageExtension (strings_ToLower env (filepath_Ext env filePath))
  = true ->
  0 < memoryLimit < 2 ^ 46 -> 1 <= dpi < 2 ^ 63 ->
  (forall W H format,
     image_Decode env filePath = inr (W, H, format) ->
     0 < W < 2 ^ 31 /\ 0 < H < 2 ^ 31) ->
  exists fuel,
    ends (resizeImage undef_int env fuel filePath outputPath dryRun
            memoryLimit algorithm quality dpi).
Proof.
  intros Hv HB Hdpi Hdec.
  destruct (getPixelFormat_four_bytes _ Hv) as (pf & Ep & _ & Hpf).
  destruct (image_Decode env filePath) as [err | [[W H] format]] eqn:Ed.
  - exists 0%nat. unfold resizeImage. rewrite Ed. ends_tac fail.
  - destruct (Hdec W H format eq_refl) as [HW HH].
    destruct (BoundedSolver.solver_within_bounds undef_int W H pf 4
                memoryLimit dpi HW HH Hpf ltac:(lia) HB Hdpi)
      as (fuel & nw & nh & bpp & _ & El & _).
    exists fuel. unfold resizeImage. rewrite Ed, Ep.
    apply ends_bind; [apply ends_logFs | intros _].
    destruct (os_Open env filePath); [apply ends_ret|].
    intros w. unfold bind at 1. cbn [lift]. rewrite El.
    unfold bind at 1. cbn [liftFuel].
    match goal with
    | |- exists r w', ?c w = _ => assert (He : ends c); [|apply He]
    end.
    ends_tac ltac:(apply ends_saveImage).
Qed.

(** X9, [processFile], [resizeImage], [calculateMaxResolution].  On
    input of ordinary size a call of [processFile] comes to its end and
    ends without a panic: for a file with one of the three extensions, a
    budget below 2^46 bytes, an image (if it decodes) below 2^31 pixels
    a side, and either a positive [--dpi] or metadata that cannot be
    read, the loop of the solver stops and the call returns. *)
Theorem processFile_completes
    (filePath : string) (memoryLimit : Z) (outputDir : string)
    (algorithm : InterpolationFunction) (quality : Z) (dryRun : bool)
    (overrideDPI : Z) (w : World) :
  isValidImageExtension (strings_ToLower env (filepath_Ext env filePath))
  = true ->
  0 < memoryLimit < 2 ^ 46 ->
  1 <= overrideDPI < 2 ^ 63
  \/ overrideDPI = 0 /\ metadataUnreadable env filePath ->
  (forall W H format,
     image_Decode env filePath = inr (W, H, format) ->
     0 < W < 2 ^ 31 /\ 0 < H < 2 ^ 31) ->
  exists fuel w',
    processFile undef_int env fuel filePath memoryLimit outputDir algorithm
      quality dryRun overrideDPI w = Some (Done tt, w').
Proof.
  intros Hv HB Hd Hdec.
  (* the dpi the file is resized with *)
  set (dpi := if Z.eqb overrideDPI 0 then 72 else overrideDPI).
  assert (Hdpi : 1 <= dpi < 2 ^ 63).
  { unfold dpi. destruct Hd as [Ho | [-> _]]; [|cbn; lia].
    destruct (Z.eqb_spec overrideDPI 0); lia. }
  assert (Hres : forall w1 r w1',
             resolveDPI undef_int env filePath overrideDPI w1 = Some (r, w1')
             -> r = Done dpi).
  { intros w1 r w1' H. unfold dpi. destruct Hd as [Ho | [-> Hu]].
    - rewrite resolveDPI_override in H by lia. injection H as <- _.
      destruct (Z.eqb_spec overrideDPI 0); [lia | reflexivity].
    - destruct (extractDPI_unreadable undef_int env filePath w1 Hu)
        as [err E].
      rewrite (resolveDPI_fallback undef_int env filePath w1 _ 0 err E) in H.
      injection H as <- _. reflexivity. }
  destruct (ends_resizeImage filePath (outputPathOf env filePath outputDir)
              dryRun memoryLimit algorithm quality dpi Hv HB Hdpi Hdec)
    as [fuel Hends].
  exists fuel.
  assert (He : ends (processFile undef_int env fuel filePath memoryLimit
                       outputDir algorithm quality dryRun overrideDPI)).
  { intros w0. unfold processFile, deferred.
    match goal with
    | |- exists r w', match ?body w0 with _ => _ end = _ =>
        assert (Hb : ends body);
        [|destruct (Hb w0) as (r0 & w0' & ->); eexists _, _; reflexivity]
    end.
    apply ends_bind; [apply ends_logFs | intros _].
    destruct (os_MkdirAll env outputDir); [apply ends_safePrint|].
    apply ends_bind; [apply ends_os_Stat | intros st].
    destruct st; [|apply ends_safePrint].
    intros w1. unfold bind at 1.
    destruct (ends_resolveDPI filePath overrideDPI w1) as (r1 & w1' & E1).
    rewrite E1. rewrite (Hres _ _ _ E1).
    match goal with
    | |- exists r w', ?c w1' = _ => assert (Hc : ends c); [|apply Hc]
    end.
    ends_tac ltac:(exact Hends). }
  destruct (He w) as (r & w' & E). exists w'. rewrite E.
  assert (Hn : overrideDPI <> 0 \/ metadataUnreadable env filePath).
  { destruct Hd as [Ho | [_ Hu]]; [left; lia | right; exact Hu]. }
  rewrite (processFile_ends_normally fuel filePath memoryLimit
             outputDir algorithm quality dryRun overrideDPI w w' r Hv Hn E).
  reflexivity.
Qed.
End Completion.

Lemma processFile_completes_witness :
  exists fuel w',
    processFile indefinite sampleEnv fuel "photo.png" 10000000 "." Lanczos3
      75 false 72 initialWorld = Some (Done tt, w').
Proof.
  apply (processFile_completes indefinite sampleEnv "photo.png" 10000000 "."
           Lanczos3 75 false 72 initialWorld).
  - reflexivity.
  - lia.
  - left. lia.
  - intros W H format E. cbn in E. injection E as <- <- _. lia.
Defined.

(** ** Extensions and names *)

Section NameFacts.
Variable env : Env.

(** X5, [getPixelFormat], [isValidImageExtension], [getBytesPerPixel].
    The filter of [processPath] and the pixel formats agree: an extension
    passes [isValidImageExtension] exactly when [getPixelFormat] knows it,
    and then its format takes 4 bytes per pixel; every other extension
    makes [getPixelFormat] panic with [Unsupported file format].  So a
    file that passes the filter never reaches that panic, and no file is
    solved with 1 or 3 bytes per pixel. *)
Theorem getPixelFormat_agrees_with_isValidImageExtension (fileExt : string) :
  (isValidImageExtension (strings_ToLower env fileExt) = true
   /\ exists pf, getPixelFormat env fileExt = Done pf
                 /\ getBytesPerPixel pf = Done 4)
  \/ (isValidImageExtension (strings_ToLower env fileExt) = false
      /\ getPixelFormat env fileExt
         = Panicked (PanicMsg "Unsupported file format")).
Proof.
  unfold isValidImageExtension, getPixelFormat.
  destruct (String.eqb (strings_ToLower env fileExt) ".png").
  { left. rewrite !orb_true_r. split; [reflexivity|].
    eexists; split; reflexivity. }
  destruct (String.eqb (strings_ToLower env fileExt) ".jpg").
  { left. split; [reflexivity|]. eexists; split; reflexivity. }
  destruct (String.eqb (strings_ToLower env fileExt) ".jpeg").
  { left. split; [reflexivity|]. eexists; split; reflexivity. }
  right. split; reflexivity.
Qed.

Lemma length_append (a b : string) :
  String.length (a ++ b) = (String.length a + String.length b)%nat.
Proof.
  induction a as [|c a IH]; cbn; [reflexivity | rewrite IH; reflexivity].
Qed.

Lemma substring_prefix (a b : string) :
  substring 0 (String.length a) (a ++ b) = a.
Proof.
  induction a as [|c a IH]; cbn.
  - destruct b; reflexivity.
  - rewrite IH. reflexivity.
Qed.

Lemma substring_suffix (a b : string) :
  substring (String.length a) (String.length b) (a ++ b) = b.
Proof.
  induction a as [|c a IH]; cbn.
  - induction b as [|c b IHb]; cbn; [reflexivity | rewrite IHb; reflexivity].
  - exact IH.
Qed.

Lemma length_substring (n : nat) (s : string) :
  (n <= String.length s)%nat -> String.length (substring 0 n s) = n.
Proof.
  revert s. induction n as [|n IH]; intros s Hn.
  - destruct s; reflexivity.
  - destruct s as [|c s]; cbn in *; [lia|]. rewrite IH by lia. reflexivity.
Qed.

(** [strings.TrimSuffix] takes a suffix off, *)
Lemma TrimSuffix_append (stem suffix : string) :
  TrimSuffix (stem ++ suffix) suffix = stem.
Proof.
  unfold TrimSuffix. rewrite length_append.
  replace (String.length stem + String.length suffix
           - String.length suffix)%nat
    with (String.length stem) by lia.
  rewrite substring_suffix, String.eqb_refl, substring_prefix.
  replace (String.length suffix
           <=? String.length stem + String.length suffix)%nat
    with true by (symmetry; apply Nat.leb_le; lia).
  reflexivity.
Qed.

(** and never takes more than the suffix. *)
Lemma length_TrimSuffix (s suffix : string) :
  (String.length s
   <= String.length (TrimSuffix s suffix) + String.length suffix)%nat.
Proof.
  unfold TrimSuffix.
  destruct (Nat.leb_spec (String.length suffix) (String.length s))
    as [Hle | Hgt]; cbn [andb]; [|lia].
  destruct (String.eqb _ suffix); [|lia].
  rewrite length_substring by lia. lia.
Qed.

(** X6, [processFile] (the output path).  The file name of the output
    is never the file name of the input, whatever [filepath.Base] and
    [filepath.Ext] give: when the name ends in its extension the output
    is [<stem>-resized<ext>].  A file in the output directory is
    therefore never the target of its own resize. *)
Theorem output_name_differs_from_input (filePath outputDir : string) :
  exists outputFileName,
    outputPathOf env filePath outputDir
    = filepath_Join env outputDir outputFileName
    /\ outputFileName <> filepath_Base env filePath
    /\ (forall stem,
          filepath_Base env filePath = stem ++ filepath_Ext env filePath ->
          outputFileName = stem ++ "-resized" ++ filepath_Ext env filePath).
Proof.
  eexists. split; [reflexivity|]. split.
  - intros E. apply (f_equal String.length) in E.
    rewrite !length_append in E.
    pose proof (length_TrimSuffix (filepath_Base env filePath)
                  (filepath_Ext env filePath)).
    cbn [String.length] in E. lia.
  - intros stem ->. rewrite TrimSuffix_append. reflexivity.
Qed.
End NameFacts.

(** ** The walk of a directory *)


Section WalkFacts.
Variable env : Env.






Lemma collectEntry_child (dir : string) (c : DirTree) :
  pathOf (topOf c) <> dir ->
  (snd (topOf c) = false -> childrenOf c = []) ->
  collectEntry env dir false c
  = map pathOf (filter (isImageEntry env) [topOf c]).
Proof.
  destruct c as [path name isDir children]. cbn. intros Hp Hc.
  replace (String.eqb path dir) with false
    by (symmetry; apply String.eqb_neq; exact Hp).
  destruct isDir; cbn.
  - reflexivity.
  - rewrite (Hc eq_refl). cbn. rewrite app_nil_r.
    destruct (isValidImageExtension _); reflexivity.
Qed.

(** X14, [collectFiles].  Without [--recursive] the files collected
    under a directory are the image files that are its direct entries,
    in order: no directory below the root is entered
    ([filepath.SkipDir]). *)
Theorem collectFiles_not_recursive (dir name : string)
    (children : list DirTree) :
  filepath_WalkDir env dir = Entry dir name true children ->
  (forall c, In c children ->
             pathOf (topOf c) <> dir
             /\ (snd (topOf c) = false -> childrenOf c = [])) ->
  collectFiles env dir false
  = map pathOf (filter (isImageEntry env) (map topOf children)).
Proof.
  intros Hw Hc. unfold collectFiles. rewrite Hw.
  cbn [collectEntry negb andb]. rewrite String.eqb_refl. cbn [negb app].
  clear Hw. induction children as [|c cs IH]; cbn; [reflexivity|].
  destruct (Hc c (or_introl eq_refl)) as [Hp Hf].
  rewrite (collectEntry_child dir c Hp Hf), IH.
  - cbn. destruct (isImageEntry env (topOf c)); reflexivity.
  - intros c' Hc'. apply Hc. right. exact Hc'.
Qed.
End WalkFacts.

Lemma collectFiles_not_recursive_witness :
  collectFiles folderEnv "pics" false
  = map pathOf (filter (isImageEntry folderEnv) (map topOf sampleFolder)).
Proof.
  apply (collectFiles_not_recursive folderEnv "pics" "pics" sampleFolder).
  - reflexivity.
  - intros c [<- | [<- | [<- | []]]]; (split; [discriminate|]);
      cbn; intros E; first [reflexivity | discriminate E].
Defined.

(** ** The start from Explorer, and the earlier programs *)

Section MainVariants.
Variable undef_int : float64 -> Z.
Variable env : Env.
Variable os_ReadDir : string -> error + list Original.DirEntry.

(** X12, [main] of [part_001] (first program) and of [part_000].
    Started from Explorer without arguments, the last program queues its
    two lines and ends without printing them (the window shows nothing
    but waits for Enter); the program of [part_000] prints them.  Both
    end with status 0 when [fmt.Scanln] fails and 1 when it reads a
    line. *)
Theorem explorer_start_messages
    (fuel : nat) (w : World) :
  StartedByExplorer env = true ->
  let line1 := "This application cannot be run by double-clicking it. Please run it from a console or drag your images onto the executable." in
  let line2 := "Press Enter to exit..." in
  let status := match fmt_Scanln env with Some _ => 0 | None => 1 end in
  main undef_int env fuel [] w
  = Some (Done status, queued (queued w line1) line2)
  /\ Direct.main undef_int env fuel [] w
     = Some (Done status,
             written (written w (line1 ++ newline)) (line2 ++ newline)).
Proof.
  intros He line1 line2 status. unfold main, Direct.main.
  cbn [List.length Nat.eqb andb]. rewrite He.
  unfold bind, safePrint, Println, write, status.
  destruct (fmt_Scanln env); split; reflexivity.
Qed.

(** X15, [main] and [Action] of [part_000], of the second program of
    [part_001] and of [main.go].  Run without a path (and not from
    Explorer), each of the three earlier programs prints
    [Error: no input files or directories provided] at once, makes no
    call on the file system, and ends with status 0. *)
Theorem earlier_programs_print_the_usage_error
    (fuel : nat) (args : list string) (c : Context) (w : World) :
  cli_Parse env args = inr c -> Args c = [] ->
  (StartedByExplorer env = false \/ args <> []) ->
  let w' := written w ("Error: no input files or directories provided"
                       ++ newline) in
  Direct.main undef_int env fuel args w = Some (Done 0, w')
  /\ Legacy.main undef_int env fuel args w = Some (Done 0, w')
  /\ Original.main undef_int env os_ReadDir fuel args w = Some (Done 0, w').
Proof.
  intros Hp Ha He w'.
  assert (Hb : Nat.eqb (List.length args) 0 && StartedByExplorer env = false).
  { destruct He as [-> | Hn]; [apply andb_false_r|].
    destruct args; [contradiction | reflexivity]. }
  unfold Direct.main, Legacy.main, Original.main.
  rewrite Hb.
  unfold Direct.appRun, Legacy.appRun, Original.appRun. rewrite Hp.
  unfold Direct.Action, Legacy.Action, Original.Action. rewrite Ha.
  repeat split.
Qed.

(** X16, [processFile] and [resizeImage] of [main.go].  When the
    solver's size is not smaller than the image, [resizeImage] of
    [main.go] returns [nil] without saving, and [processFile] then
    prints [Image resized and saved as: <output path>]: the program
    reports a file it did not write (no [os.Create], no encoder
    call). *)
Theorem Original_processFile_reports_a_save_it_did_not_make
    (fuel : nat) (filePath : string) (memoryLimit : Z) (outputDir : string)
    (w : World) (W H : Z) (format : string) (pf : PixelFormat) (nw nh : Z) :
  os_MkdirAll env outputDir = None ->
  os_Open env filePath = None ->
  image_Decode env filePath = inr (W, H, format) ->
  getPixelFormat env (filepath_Ext env filePath) = Done pf ->
  Plain.calculateMaxResolution undef_int fuel W H pf 4 memoryLimit
  = Some (Done (nw, nh)) ->
  W <= nw -> H <= nh ->
  Original.processFile undef_int env fuel filePath memoryLimit outputDir w
  = Some (Done tt,
          written
            (logged
               (written (logged w (EvMkdirAll outputDir))
                  ("Processing file: " ++ filePath ++ newline))
               (EvOpen filePath))
            ("Image resized and saved as: "
             ++ Original.outputPathOf env filePath outputDir ++ newline)).
Proof.
  intros Hm Ho Ed Ep Es HW HH.
  unfold Original.processFile, Original.resizeImage.
  rewrite Hm, Ho, Ed, Ep.
  unfold bind, logFs, Println2, write, lift, liftFuel. rewrite Es.
  replace (nw <? W) with false by (symmetry; apply Z.ltb_ge; assumption).
  replace (nh <? H) with false by (symmetry; apply Z.ltb_ge; assumption).
  reflexivity.
Qed.

(** X18, [processFile] of the second program of [part_001].  With
    [--dry-run] that program returns before it reads the file: it makes
    the output directory with [os.MkdirAll] (so a dry run still creates
    the directory) and opens, decodes, creates, encodes and writes
    nothing; it ends normally, and it advances the bar unless
    [os.MkdirAll] failed. *)
Theorem Legacy_dry_run_only_makes_the_directory
    (fuel : nat) (filePath : string) (memoryLimit : Z) (outputDir : string)
    (algorithm : InterpolationFunction) (quality : Z) (w : World) :
  exists w',
    Legacy.processFile undef_int env fuel filePath memoryLimit outputDir
      algorithm quality true w = Some (Done tt, w')
    /\ fsLog w' = (fsLog w ++ [EvMkdirAll outputDir])%list
    /\ messageQueue w' = messageQueue w
    /\ barDone w'
       = match os_MkdirAll env outputDir with
         | Some _ => barDone w
         | None => S (barDone w)
         end.
Proof.
  unfold Legacy.processFile. unfold bind at 1. cbn [logFs].
  destruct (os_MkdirAll env outputDir) as [err|].
  - eexists. split; [reflexivity|]. repeat split.
  - unfold bind at 1. unfold os_Stat.
    destruct (if existsb _ _ then _ else _) as [err | isDir];
      eexists; (split; [reflexivity|]); repeat split.
Qed.

Lemma sameBar_Original_saveImage img o f :
  keeps sameBar (Original.saveImage env img o f).
Proof. unfold Original.saveImage. keeps_tac bar_prim. Qed.

Lemma sameBar_Original_resizeImage fuel f o m :
  keeps sameBar (Original.resizeImage undef_int env fuel f o m).
Proof.
  unfold Original.resizeImage.
  keeps_tac ltac:(first [bar_prim | apply sameBar_Original_saveImage]).
Qed.

Lemma sameBar_Original_processFile fuel f m o :
  keeps sameBar (Original.processFile undef_int env fuel f m o).
Proof.
  unfold Original.processFile, Println2.
  keeps_tac ltac:(first [bar_prim | apply sameBar_Original_resizeImage]).
Qed.

Lemma Original_processImageFiles_bar fuel path imageFiles m o w w' :
  Original.processImageFiles undef_int env fuel path imageFiles m o w
  = Some (Done tt, w') ->
  barDone w' = (barDone w + List.length imageFiles)%nat.
Proof.
  revert w. induction imageFiles as [|file rest IH]; intros w H.
  - injection H as <-. cbn. lia.
  - cbn [Original.processImageFiles] in H. unfold bind at 1 in H.
    destruct (Original.processFile undef_int env fuel _ m o w)
      as [[[[] | p] w1] |] eqn:E; [| discriminate | discriminate].
    pose proof (sameBar_Original_processFile _ _ _ _ _ _ _ E) as Hb.
    unfold bind at 1 in H. cbn [Increment] in H.
    apply IH in H. cbn [barIncrement barDone] in H. rewrite H, Hb.
    cbn [List.length]. lia.
Qed.

(** X17, [processDirectory] of [main.go].  A directory that cannot be
    listed is reported with [Error reading directory: ...] and left
    alone; otherwise the bar advances once for each entry that is not a
    directory and has one of the three extensions, whether its resize
    worked or not, and entries of directories below are not looked
    at. *)
Theorem Original_processDirectory_bar
    (fuel : nat) (path : string) (memoryLimit : Z) (outputDir : string)
    (w w' : World) :
  Original.processDirectory undef_int env os_ReadDir fuel path memoryLimit
    outputDir w = Some (Done tt, w') ->
  match os_ReadDir path with
  | inl err =>
      w' = written w ("Error reading directory: " ++ err ++ newline)
  | inr files =>
      barDone w'
      = (barDone w + List.length (Original.imageFilesOf env files))%nat
  end.
Proof.
  unfold Original.processDirectory. intros H.
  destruct (os_ReadDir path) as [err | files].
  - injection H as <-. reflexivity.
  - eapply Original_processImageFiles_bar. eassumption.
Qed.
End MainVariants.

Lemma explorer_start_messages_witness :
  main indefinite explorerEnv 1 [] initialWorld
  = Some (Done 1,
          queued
            (queued initialWorld
               "This application cannot be run by double-clicking it. Please run it from a console or drag your images onto the executable.")
            "Press Enter to exit...")
  /\ Direct.main indefinite explorerEnv 1 [] initialWorld
     = Some (Done 1,
             written
               (written initialWorld
                  ("This application cannot be run by double-clicking it. Please run it from a console or drag your images onto the executable."
                   ++ newline))
               ("Press Enter to exit..." ++ newline)).
Proof.
  exact (explorer_start_messages indefinite explorerEnv 1 initialWorld
           eq_refl).
Defined.

Lemma earlier_programs_print_the_usage_error_witness :
  Direct.main indefinite sampleEnv 1 [] initialWorld
  = Some (Done 0,
          written initialWorld
            ("Error: no input files or directories provided" ++ newline))
  /\ Legacy.main indefinite sampleEnv 1 [] initialWorld
     = Some (Done 0,
             written initialWorld
               ("Error: no input files or directories provided" ++ newline))
  /\ Original.main indefinite sampleEnv sampleReadDir 1 [] initialWorld
     = Some (Done 0,
             written initialWorld
               ("Error: no input files or directories provided" ++ newline)).
Proof.
  apply (earlier_programs_print_the_usage_error indefinite sampleEnv
           sampleReadDir 1 [] (sampleContext []) initialWorld).
  - reflexivity.
  - reflexivity.
  - left. reflexivity.
Defined.

Lemma Original_processFile_reports_a_save_it_did_not_make_witness :
  Original.processFile indefinite sampleEnv 1 "photo.png" 2147483648 "."
    initialWorld
  = Some (Done tt,
          written
            (logged
               (written (logged initialWorld (EvMkdirAll "."))
                  ("Processing file: " ++ "photo.png" ++ newline))
               (EvOpen "photo.png"))
            ("Image resized and saved as: "
             ++ Original.outputPathOf sampleEnv "photo.png" "."
             ++ newline)).
Proof.
  apply (Original_processFile_reports_a_save_it_did_not_make indefinite
           sampleEnv 1 "photo.png" 2147483648 "." initialWorld 6000 4000
           "png" Format32bppArgb 28377 18918).
  - reflexivity.
  - reflexivity.
  - reflexivity.
  - reflexivity.
  - vm_compute. reflexivity.
  - lia.
  - lia.
Defined.

Lemma Original_processDirectory_bar_witness :
  Original.processDirectory indefinite sampleEnv sampleReadDir 1 "pics"
    2147483648 "." initialWorld = Some (Done tt, sampleListed)
  /\ barDone sampleListed = (barDone initialWorld + 1)%nat.
Proof.
  assert (E : Original.processDirectory indefinite sampleEnv sampleReadDir 1
                "pics" 2147483648 "." initialWorld
              = Some (Done tt, sampleListed))
    by (vm_compute; reflexivity).
  split; [exact E|].
  exact (Original_processDirectory_bar indefinite sampleEnv sampleReadDir 1
           "pics" 2147483648 "." initialWorld sampleListed E).
Defined.

(** ** The width the solver returns *)

(** [int(f)] is an [int64] value as soon as the unspecified conversions
    yield [int64] values. *)
Lemma to_int_in_range (undef_int : float64 -> Z) (f : float64) :
  (forall x, Int64.in_range (undef_int x) = true) ->
  Int64.min_int <= to_int undef_int f <= Int64.max_int.
Proof.
  intros Hu.
  assert (Hr : forall z, Int64.in_range z = true ->
                         Int64.min_int <= z <= Int64.max_int).
  { intros z Hz. unfold Int64.in_range in Hz.
    apply andb_true_iff in Hz as [H1 H2].
    apply Z.leb_le in H1, H2. lia. }
  unfold to_int. destruct (truncate f) as [z|]; [|apply Hr, Hu].
  destruct (Int64.in_range z) eqn:E; [apply Hr, E | apply Hr, Hu].
Qed.

(** [width - width % dpi] over the integers: the multiple of [dpi] next
    to [width] toward zero. *)
Lemma snap_exact (width dpi : Z) :
  Int64.min_int <= width <= Int64.max_int -> dpi <> 0 ->
  Int64.sub width (Int64.rem width dpi) = dpi * Z.quot width dpi.
Proof.
  intros Hw Hd. unfold Int64.sub, Int64.rem.
  pose proof (Z.quot_rem' width dpi) as Hqr.
  assert (Hrem : Z.abs (Z.rem width dpi) <= Z.abs width).
  { rewrite <- Z.rem_abs by assumption.
    apply Z.rem_le; lia. }
  assert (Hsgn : 0 <= Z.rem width dpi * width)
    by (apply Z.rem_sign_mul; assumption).
  replace (width - Z.rem width dpi) with (dpi * Z.quot width dpi) by lia.
  assert (Hin : Int64.min_int <= dpi * Z.quot width dpi <= Int64.max_int).
  { replace (dpi * Z.quot width dpi) with (width - Z.rem width dpi) by lia.
    unfold Int64.min_int, Int64.max_int in *. nia. }
  unfold Int64.wrap, Int64.min_int, Int64.max_int in *.
  rewrite Z.mod_small by (change (2 ^ 64) with (2 ^ 63 + 2 ^ 63); lia). lia.
Qed.

(** The width of a candidate is an [int64] value. *)
Lemma candidate_width_in_range (undef_int : float64 -> Z) (r : float64)
    (bpp a : Z) (est : float64) (c : candidate) :
  (forall x, Int64.in_range (undef_int x) = true) ->
  candidateOf undef_int r bpp a est = Done c ->
  Int64.min_int <= c_width c <= Int64.max_int.
Proof.
  intros Hu Hc. unfold candidateOf in Hc.
  destruct (strideOf _ _ _); [|discriminate].
  injection Hc as <-. cbn [c_width]. apply to_int_in_range, Hu.
Qed.

(** A returning run of the loop hands back the snap of a candidate's
    width. *)
Lemma solverLoop_snapped (undef_int : float64 -> Z) (fuel : nat)
    (r : float64) (bpp a B dpi : Z) (est : float64) (nw nh : Z) :
  (forall x, Int64.in_range (undef_int x) = true) ->
  solverLoop undef_int fuel r bpp a B dpi est = Some (Done (nw, nh)) ->
  dpi <> 0 /\ exists width,
    Int64.min_int <= width <= Int64.max_int
    /\ nw = dpi * Z.quot width dpi.
Proof.
  intros Hu. revert est. induction fuel as [|fuel IH]; intros est Hl;
    [discriminate|].
  cbn [solverLoop] in Hl. unfold loopBody in Hl.
  destruct (candidateOf undef_int r bpp a est) as [c | p] eqn:Ec;
    [|discriminate].
  destruct (Z.leb (c_total c) B); [|apply (IH _ Hl)].
  unfold snapToDPI in Hl. destruct (Z.eqb_spec dpi 0) as [|Hd];
    [discriminate|].
  injection Hl as Hn _. split; [assumption|].
  exists (c_width c).
  pose proof (candidate_width_in_range _ _ _ _ _ _ Hu Ec) as Hw.
  split; [assumption|]. rewrite <- Hn. apply snap_exact; assumption.
Qed.

(** X2, [calculateMaxResolution] ([newWidth -= newWidth % dpi]).  When
    the solver returns a pair, [dpi] is not 0 and the returned width is a
    multiple of [dpi] over the integers (the subtraction does not
    wrap). *)
Theorem returned_width_is_multiple_of_dpi
    (undef_int : float64 -> Z) (fuel : nat) (originalWidth originalHeight : Z)
    (pixelFormat : PixelFormat) (alignment memoryLimit dpi nw nh : Z) :
  (forall x, Int64.in_range (undef_int x) = true) ->
  calculateMaxResolution undef_int fuel originalWidth originalHeight
    pixelFormat alignment memoryLimit dpi = Some (Done (nw, nh)) ->
  dpi <> 0 /\ Z.divide dpi nw.
Proof.
  intros Hu Hc. unfold calculateMaxResolution in Hc.
  destruct (getBytesPerPixel pixelFormat) as [bpp | p]; [|discriminate].
  destruct (solverLoop_snapped _ _ _ _ _ _ _ _ _ _ Hu Hc)
    as (Hd & width & Hw & ->).
  split; [assumption|]. exists (Z.quot width dpi). ring.
Qed.

Lemma returned_width_is_multiple_of_dpi_witness :
  calculateMaxResolution indefinite 1 6000 4000 Format32bppArgb 4 10000000 72
  = Some (Done (1872, 1248))
  /\ 72 <> 0 /\ Z.divide 72 1872.
Proof.
  assert (E : calculateMaxResolution indefinite 1 6000 4000 Format32bppArgb
                4 10000000 72 = Some (Done (1872, 1248)))
    by (vm_compute; reflexivity).
  split; [exact E|].
  apply (returned_width_is_multiple_of_dpi indefinite 1 6000 4000
           Format32bppArgb 4 10000000 72 1872 1248);
    [intros x; reflexivity | exact E].
Defined.

(** The loop with the dpi parameter accepts the candidate the loop
    without it accepts. *)
Lemma solverLoop_of_plain (undef_int : float64 -> Z) (fuel : nat)
    (r : float64) (bpp a B dpi : Z) (est : float64) (pw ph : Z) :
  (forall x, Int64.in_range (undef_int x) = true) -> dpi <> 0 ->
  Plain.solverLoop undef_int fuel r bpp a B est = Some (Done (pw, ph)) ->
  solverLoop undef_int fuel r bpp a B dpi est
  = Some (Done (dpi * Z.quot pw dpi,
                to_int undef_int (div (of_int (dpi * Z.quot pw dpi)) r))).
Proof.
  intros Hu Hd. revert est. induction fuel as [|fuel IH]; intros est Hl;
    [discriminate|].
  cbn [Plain.solverLoop] in Hl. cbn [solverLoop]. unfold loopBody.
  destruct (candidateOf undef_int r bpp a est) as [c | p] eqn:Ec;
    [|discriminate].
  destruct (Z.leb (c_total c) B); [|apply (IH _ Hl)].
  injection Hl as Hw _. unfold snapToDPI.
  destruct (Z.eqb_spec dpi 0) as [|_]; [contradiction|].
  pose proof (candidate_width_in_range _ _ _ _ _ _ Hu Ec) as Hr.
  rewrite snap_exact by assumption. rewrite Hw. reflexivity.
Qed.

(** X3, [calculateMaxResolution] of [part_001] against the one of
    [main.go].  With a [dpi] other than 0 the solver with the DPI step
    returns, on the same turn, the width of the solver without it
    rounded toward zero to a multiple of [dpi], and the height
    [int(float64(newWidth) / aspectRatio)] computed again from that
    width. *)
Theorem dpi_solver_snaps_plain_width
    (undef_int : float64 -> Z) (fuel : nat) (originalWidth originalHeight : Z)
    (pixelFormat : PixelFormat) (alignment memoryLimit dpi pw ph : Z) :
  (forall x, Int64.in_range (undef_int x) = true) -> dpi <> 0 ->
  Plain.calculateMaxResolution undef_int fuel originalWidth originalHeight
    pixelFormat alignment memoryLimit = Some (Done (pw, ph)) ->
  let newWidth := dpi * Z.quot pw dpi in
  calculateMaxResolution undef_int fuel originalWidth originalHeight
    pixelFormat alignment memoryLimit dpi
  = Some (Done (newWidth,
                to_int undef_int
                  (div (of_int newWidth)
                     (div (of_int originalWidth) (of_int originalHeight))))).
Proof.
  intros Hu Hd Hp. unfold Plain.calculateMaxResolution in Hp.
  unfold calculateMaxResolution.
  destruct (getBytesPerPixel pixelFormat) as [bpp | p]; [|discriminate].
  cbv zeta. eapply solverLoop_of_plain; eassumption.
Qed.

Lemma dpi_solver_snaps_plain_width_witness :
  Plain.calculateMaxResolution indefinite 1 6000 4000 Format32bppArgb 4
    10000000 = Some (Done (1935, 1290))
  /\ calculateMaxResolution indefinite 1 6000 4000 Format32bppArgb 4
       10000000 72
     = Some (Done (72 * Z.quot 1935 72,
                   to_int indefinite
                     (div (of_int (72 * Z.quot 1935 72))
                        (div (of_int 6000) (of_int 4000))))).
Proof.
  assert (E : Plain.calculateMaxResolution indefinite 1 6000 4000
                Format32bppArgb 4 10000000 = Some (Done (1935, 1290)))
    by (vm_compute; reflexivity).
  split; [exact E|].
  apply (dpi_solver_snaps_plain_width indefinite 1 6000 4000
           Format32bppArgb 4 10000000 72 1935 1290);
    [intros x; reflexivity | discriminate | exact E].
Defined.

(** ** Budgets too small for one pixel *)

Module TinyBudget.
Import Float64Facts FixedPoint SolverArith BoundedSolver.

(** The aspect ratio and the first estimate of the solver on an input of
    ordinary size. *)
Lemma first_estimate_facts (undef_int : float64 -> Z) (W H bpp B : Z) :
  0 < W < 2 ^ 31 -> 0 < H < 2 ^ 31 -> bpp = 1 \/ bpp = 4 ->
  0 < B < 2 ^ 46 ->
  let r := div (of_int W) (of_int H) in
  let est := firstEstimate r bpp B in
  exists vr ve,
    fnorm (-105) 1 r vr
    /\ (U52 - 1) * (vr * H) <= U52 * (W * S200)
    /\ fnorm (-107) 3 est ve
    /\ to_int undef_int (Floor est) * to_int undef_int (Floor est) * bpp * W
       <= 2 * B * H.
Proof.
  intros HW HH Hbpp HB r est.
  pose proof S200_pos as HS.
  assert (HfW : fnorm (-52) 0 (of_int W) (W * S200))
    by (apply of_int_fnorm; lia).
  assert (HfH : fnorm (-52) 0 (of_int H) (H * S200))
    by (apply of_int_fnorm; lia).
  destruct (div_fnorm _ _ _ _ _ _ _ _ HfW HfH) as (vr & Hr & R1 & R2);
    try lia.
  simpl Z.sub in Hr.
  assert (Hvr : 0 < vr) by (apply (fnorm_pos _ _ _ _ Hr); lia).
  assert (R1' : (U52 - 1) * (vr * H) <= U52 * (W * S200)).
  { apply le_cancel_r with (c := S200); [assumption|]. nia. }
  assert (R2' : U52 * (W * S200) <= (U52 + 1) * (vr * H)).
  { apply le_cancel_r with (c := S200); [assumption|]. nia. }
  fold r in Hr.
  assert (Hfb : fnorm (-52) 0 (of_int bpp) (bpp * S200))
    by (apply of_int_fnorm; lia).
  assert (HfB : fnorm (-52) 0 (of_int B) (B * S200))
    by (apply of_int_fnorm; lia).
  destruct (mul_fnorm _ _ _ _ _ _ _ _ Hfb Hr) as (vd & Hd & M1 & M2);
    try lia.
  simpl Z.add in Hd.
  assert (Hvd : 0 < vd) by (apply (fnorm_pos _ _ _ _ Hd); lia).
  assert (M2' : U52 * (bpp * vr) <= (U52 + 1) * vd).
  { apply le_cancel_r with (c := S200); [assumption|]. nia. }
  destruct (div_fnorm _ _ _ _ _ _ _ _ HfB Hd) as (vq & Hq & D1 & D2);
    try lia.
  simpl Z.sub in Hq.
  assert (Hvq : 0 < vq) by (apply (fnorm_pos _ _ _ _ Hq); lia).
  destruct (sqrt_fnorm _ _ (-107) 3 _ _ Hq) as (ve & He & S1 & S2);
    try lia.
  assert (Hve : 0 < ve) by (apply (fnorm_pos _ _ _ _ He); lia).
  fold (firstEstimate r bpp B) in He. fold est in He.
  destruct (floor_fnorm undef_int _ _ _ _ He) as (h & Eh & _ & Hh & Fh);
    [lia | lia |].
  exists vr, ve. split; [assumption|]. split; [assumption|].
  split; [assumption|].
  rewrite Eh.
  apply (first_height_bound S200 vr vd vq ve W H h bpp B); try lia.
  - exact R2'.
  - exact M2'.
  - exact D1.
  - exact S1.
Qed.

(** On a budget below half a row of the source per row of height, the
    first candidate is 0 by 0, and it is accepted. *)
Lemma zero_candidate_accepted
    (undef_int : float64 -> Z) (W H pixelFormat a B dpi bpp : Z) :
  0 < W < 2 ^ 31 -> 0 < H < 2 ^ 31 ->
  getBytesPerPixel pixelFormat = Done bpp ->
  0 < a <= 2 ^ 20 -> 0 < B < 2 ^ 46 -> 1 <= dpi < 2 ^ 63 ->
  2 * B * H < bpp * W ->
  calculateMaxResolution undef_int 1 W H pixelFormat a B dpi
  = Some (Done (0, 0))
  /\ Plain.calculateMaxResolution undef_int 1 W H pixelFormat a B
     = Some (Done (0, 0)).
Proof.
  intros HW HH Eb Ha HB Hdpi Htiny.
  assert (Hbpp : bpp = 1 \/ bpp = 4).
  { revert Eb. unfold getBytesPerPixel.
    destruct (pixelFormat =? Format8bppIndexed); [intros [= <-]; auto|].
    destruct ((pixelFormat =? Format24bppRgb)
              || (pixelFormat =? Format32bppArgb))%bool;
      [intros [= <-]; auto | discriminate]. }
  destruct (first_estimate_facts undef_int W H bpp B HW HH Hbpp HB)
    as (vr & ve & Hr & R1 & He & I).
  set (r := div (of_int W) (of_int H)) in *.
  set (est := firstEstimate r bpp B) in *.
  destruct (candidate_facts undef_int W H bpp a B HW HH Hbpp Ha HB r vr Hr
              R1 est ve He I)
    as (w & vp & Ec & Hh & Fh & Ew & Hw & Hwb & Ar & Hvp & Fw & M1 & M2).
  set (h := to_int undef_int (Floor est)) in *.
  assert (Hh0 : h = 0).
  { destruct (Z.eq_dec h 0) as [|Hn]; [assumption|exfalso].
    assert (1 <= h * h) by nia.
    assert (1 * (bpp * W) <= h * h * (bpp * W))
      by (apply Z.mul_le_mono_nonneg_r; lia).
    lia. }
  pose proof S200_pos as HS.
  assert (Hw0 : w = 0).
  { rewrite Hh0 in M1. assert (U52 = 2 ^ 52) by reflexivity.
    assert (vp <= 0) by nia.
    destruct (Z.eq_dec w 0) as [|Hn]; [assumption|exfalso].
    assert (1 * S200 <= w * S200) by (apply Z.mul_le_mono_nonneg_r; lia).
    lia. }
  assert (Hacc : paddedRow bpp a w * h <= B) by (rewrite Hh0; lia).
  destruct (accepted_facts undef_int bpp a B dpi Hbpp Ha Hdpi r vr Hr
              h w vp Hh Hw Hwb Hvp Fw M1 Hacc)
    as (nw & nh & Es & Hnw & Hnh & _).
  assert (nw = 0) by lia. assert (nh = 0) by lia. subst nw nh.
  unfold calculateMaxResolution, Plain.calculateMaxResolution.
  rewrite Eb. fold r. fold est. cbn [solverLoop Plain.solverLoop].
  unfold loopBody. rewrite Ec. cbn [c_total c_width c_height].
  replace (Z.leb (paddedRow bpp a w * h) B) with true
    by (symmetry; apply Z.leb_le; assumption).
  rewrite Es. rewrite Hh0, Hw0. split; reflexivity.
Qed.

End TinyBudget.

(** X4, [calculateMaxResolution] of [part_001] and of [main.go].  On a
    budget so small that [2 * memoryLimit * height < bytesPerPixel *
    width] (less than half a byte of budget per pixel of a source
    row, per row of height), both solvers return the pair (0, 0) on
    their first turn: a size no image has, and one the caller's test
    [newWidth < width || newHeight < height] lets through to the
    resize. *)
Theorem solver_answers_zero_on_tiny_budget
    (undef_int : float64 -> Z) (W H pixelFormat a B dpi bpp : Z) :
  0 < W < 2 ^ 31 -> 0 < H < 2 ^ 31 ->
  getBytesPerPixel pixelFormat = Done bpp ->
  0 < a <= 2 ^ 20 -> 0 < B < 2 ^ 46 -> 1 <= dpi < 2 ^ 63 ->
  2 * B * H < bpp * W ->
  calculateMaxResolution undef_int 1 W H pixelFormat a B dpi
  = Some (Done (0, 0))
  /\ Plain.calculateMaxResolution undef_int 1 W H pixelFormat a B
     = Some (Done (0, 0)).
Proof. exact (TinyBudget.zero_candidate_accepted undef_int W H pixelFormat a B dpi bpp). Qed.

Lemma solver_answers_zero_on_tiny_budget_witness :
  calculateMaxResolution indefinite 1 1000 1 Format32bppArgb 4 100 72
  = Some (Done (0, 0))
  /\ Plain.calculateMaxResolution indefinite 1 1000 1 Format32bppArgb 4 100
     = Some (Done (0, 0)).
Proof.
  apply (solver_answers_zero_on_tiny_budget indefinite 1000 1
           Format32bppArgb 4 100 72 4);
    first [reflexivity | lia].
Defined.

(** ** The DPI of a file *)

Module Quotients.
Import Float64Facts FixedPoint.

(** An exact significand of 54 bits whose last bit is 0 loses that bit
    and nothing else. *)
Lemma binary_round_aux_even (m : positive) (e : Z) :
  2 ^ 52 <= Zpos m < 2 ^ 53 -> -1075 <= e <= 970 ->
  binary_round_aux prec emax false (Zpos (xO m)) e loc_Exact
  = S754_finite false m (e + 1).
Proof.
  intros Hm He. unfold binary_round_aux.
  rewrite shr_fexp_54 by lia. cbn [shr_record_of_loc shr_1 orb].
  cbn [shr_m loc_of_shr_record round_nearest_even].
  rewrite shr_fexp_53 by lia. cbn [shr_record_of_loc shr_m].
  destruct (Z.leb_spec (e + 1) (emax - prec)) as [|Hgt]; [reflexivity|].
  unfold emax, prec in Hgt. lia.
Qed.

Lemma new_location_zero (n : Z) : new_location n 0 = loc_Exact.
Proof.
  unfold new_location, new_location_even, new_location_odd.
  destruct (Z.even n); reflexivity.
Qed.

(** A quotient that is a whole number below [2^53] is computed exactly. *)
Lemma div_exact (mx my : positive) (ex ey N : Z) :
  2 ^ 52 <= Zpos mx < 2 ^ 53 -> 2 ^ 52 <= Zpos my < 2 ^ 53 ->
  -200 <= ex <= 200 -> -200 <= ey <= 200 ->
  0 < N < 2 ^ 53 ->
  Zpos mx * 2 ^ (ex + 200) = N * (Zpos my * 2 ^ (ey + 200)) ->
  exists (mz : positive) (ez : Z),
    div (S754_finite false mx ex) (S754_finite false my ey)
    = S754_finite false mz ez
    /\ 2 ^ 52 <= Zpos mz < 2 ^ 53
    /\ -53 <= ez <= 0
    /\ Zpos mz * 2 ^ (ez + 200) = N * 2 ^ 200.
Proof.
  intros Hx Hy Hex Hey HN E.
  assert (Px : 0 < 2 ^ (ex + 200)) by (apply Z.pow_pos_nonneg; lia).
  assert (Py : 0 < 2 ^ (ey + 200)) by (apply Z.pow_pos_nonneg; lia).
  (* the exponents are not far apart *)
  assert (Ht : 0 <= ey - ex + 53).
  { destruct (Z_le_gt_dec 0 (ey - ex + 53)) as [|Hneg]; [assumption|exfalso].
    assert (Hs : 2 ^ (ex + 200) = 2 ^ (ex - ey - 54) * 2 ^ 54 * 2 ^ (ey + 200)).
    { rewrite <- !Z.pow_add_r by lia. f_equal. lia. }
    assert (P1 : 1 <= 2 ^ (ex - ey - 54))
      by (apply (Z.pow_le_mono_r 2 0); lia).
    rewrite Hs in E.
    assert (E' : Zpos mx * (2 ^ (ex - ey - 54) * 2 ^ 54) = N * Zpos my).
    { apply Z.mul_cancel_r with (p := 2 ^ (ey + 200)); [lia|].
      transitivity
        (Zpos mx * (2 ^ (ex - ey - 54) * 2 ^ 54 * 2 ^ (ey + 200)));
        [ring | rewrite E; ring]. }
    assert (2 ^ 52 * (1 * 2 ^ 54) <= Zpos mx * (2 ^ (ex - ey - 54) * 2 ^ 54)).
    { apply Z.mul_le_mono_nonneg; try lia;
        apply Z.mul_le_mono_nonneg_r; lia. }
    assert (N * Zpos my < 2 ^ 53 * 2 ^ 53)
      by (apply Z.mul_lt_mono_nonneg; lia).
    change (2 ^ 52 * (1 * 2 ^ 54)) with (2 ^ 53 * 2 ^ 53) in *. lia. }
  set (t := ey - ex + 53) in *.
  assert (Pt : 0 < 2 ^ t) by (apply Z.pow_pos_nonneg; lia).
  assert (Eq : Zpos mx * 2 ^ 53 = Zpos my * (N * 2 ^ t)).
  { apply Z.mul_cancel_r with (p := 2 ^ (ex + 200)); [lia|].
    replace (Zpos mx * 2 ^ 53 * 2 ^ (ex + 200))
      with (Zpos mx * 2 ^ (ex + 200) * 2 ^ 53) by ring.
    rewrite E.
    replace (Zpos my * (N * 2 ^ t) * 2 ^ (ex + 200))
      with (N * Zpos my * (2 ^ t * 2 ^ (ex + 200))) by ring.
    rewrite <- (Z.pow_add_r 2 t) by lia.
    replace (t + (ex + 200)) with (ey + 200 + 53) by (unfold t; lia).
    rewrite (Z.pow_add_r 2 (ey + 200) 53) by lia. ring. }
  unfold div, SFdiv, SFdiv_core_binary, Zdigits2.
  rewrite (digits_bounds mx 53), (digits_bounds my 53) by (simpl; lia).
  replace (Z.min (fexp prec emax (53 + ex - (53 + ey))) (ex - ey))
    with (ex - ey - 53) by (unfold fexp, emin, prec, emax; lia).
  replace (ex - ey - (ex - ey - 53)) with 53 by lia.
  cbv iota beta.
  rewrite Z.shiftl_mul_pow2 by lia.
  pose proof (Z_div_mod (Zpos mx * 2 ^ 53) (Zpos my) ltac:(lia)) as Hdm.
  destruct (Z.div_eucl (Zpos mx * 2 ^ 53) (Zpos my)) as [q r].
  destruct Hdm as [Hq Hr].
  assert (Hq' : q = N * 2 ^ t /\ r = 0).
  { rewrite Eq in Hq.
    assert (Zpos my * (N * 2 ^ t - q) = r) by lia.
    assert (N * 2 ^ t - q = 0) by nia. lia. }
  destruct Hq' as [-> ->].
  rewrite new_location_zero. simpl xorb.
  assert (Hqr : 2 ^ 52 <= N * 2 ^ t < 2 ^ 54).
  { change (2 ^ 54) with (2 * 2 ^ 53). change (2 ^ 53) with (2 * 2 ^ 52) in *.
    split; nia. }
  assert (Ht53 : t <= 53).
  { destruct (Z_le_gt_dec t 53) as [|Hgt]; [assumption|exfalso].
    assert (2 ^ 54 <= 2 ^ t) by (apply Z.pow_le_mono_r; lia).
    nia. }
  assert (Et : ex - ey - 53 = - t) by (unfold t; lia).
  assert (Ez : forall k, 0 <= k ->
             2 ^ t * 2 ^ (ex - ey - 53 + k + 200) = 2 ^ k * 2 ^ 200).
  { intros k Hk. rewrite Et. rewrite <- !Z.pow_add_r by lia. f_equal. lia. }
  destruct (N * 2 ^ t) as [|qp|] eqn:Eqp; try lia.
  destruct (Z_lt_ge_dec (Zpos qp) (2 ^ 53)) as [H53 | H54].
  - rewrite binary_round_aux_exact by lia.
    exists qp, (ex - ey - 53). split; [reflexivity|].
    split; [lia|]. split; [lia|].
    rewrite <- Eqp. pose proof (Ez 0 ltac:(lia)) as Ez0.
    replace (ex - ey - 53 + 0 + 200) with (ex - ey - 53 + 200) in Ez0 by lia.
    rewrite <- Z.mul_assoc, Ez0. change (2 ^ 0) with 1. ring.
  - assert (Ht1 : 1 <= t).
    { destruct (Z.eq_dec t 0) as [Et0 | ]; [|lia].
      rewrite Et0 in Eqp. change (2 ^ 0) with 1 in Eqp. lia. }
    assert (Hev : Zpos qp = 2 * (N * 2 ^ (t - 1))).
    { rewrite <- Eqp. replace t with (1 + (t - 1)) at 1 by lia.
      rewrite Z.pow_add_r by lia. change (2 ^ 1) with 2. ring. }
    destruct qp as [qp' | qp' |]; try lia.
    rewrite binary_round_aux_even by lia.
    exists qp', (ex - ey - 53 + 1). split; [reflexivity|].
    split; [lia|]. split; [lia|].
    assert (Zpos qp' = N * 2 ^ (t - 1)) by lia.
    replace (Zpos qp' * 2 ^ (ex - ey - 53 + 1 + 200))
      with (N * (2 ^ (t - 1) * 2 ^ (ex - ey - 53 + 1 + 200))) by (rewrite H; ring).
    rewrite <- Z.pow_add_r by lia.
    replace (t - 1 + (ex - ey - 53 + 1 + 200)) with 200 by (unfold t; lia).
    reflexivity.
Qed.

Section Quotient.
Variable undef_int : float64 -> Z.

(** [int(float64(a) / float64(b))] is the integer quotient of two
    32-bit numbers. *)
Lemma to_int_quotient (a b : Z) :
  0 <= a < 2 ^ 32 -> 0 < b < 2 ^ 32 ->
  to_int undef_int (div (of_int a) (of_int b)) = a / b.
Proof.
  intros Ha Hb.
  pose proof S200_pos as HS.
  assert (U52_val : U52 = 2 ^ 52) by reflexivity.
  destruct (Z.eq_dec a 0) as [-> | Hnz].
  { destruct (of_int_exact b ltac:(lia)) as (m & e & E & _).
    rewrite E, div_zero_finite, to_int_zero. symmetry.
    apply Z.div_0_l. lia. }
  pose proof (Z.div_mod a b ltac:(lia)) as Hdm.
  pose proof (Z.mod_pos_bound a b ltac:(lia)) as Hmb.
  assert (Hk0 : 0 <= a / b) by (apply Z.div_pos; lia).
  remember (a / b) as k eqn:Ek0. remember (a mod b) as r eqn:Er0.
  assert (Hx : fnorm (-52) 0 (of_int a) (a * S200))
    by (apply of_int_fnorm; lia).
  assert (Hy : fnorm (-52) 0 (of_int b) (b * S200))
    by (apply of_int_fnorm; lia).
  destruct (Z.eq_dec r 0) as [Er | Hr].
  - (* the quotient is a whole number *)
    assert (Eab : a = k * b) by lia.
    assert (Hk1 : 0 < k < 2 ^ 53).
    { split; [nia|]. assert (k <= a) by nia. lia. }
    destruct Hx as (mx & ex & Ex & Hmx & Hex & Evx).
    destruct Hy as (my & ey & Ey & Hmy & Hey & Evy).
    destruct (div_exact mx my ex ey k Hmx Hmy ltac:(lia) ltac:(lia) Hk1)
      as (mz & ez & Ez & Hmz & Hez & Evz).
    { rewrite <- Evx, <- Evy, Eab. ring. }
    rewrite Ex, Ey, Ez.
    assert (Hf : fnorm (-53) 0 (S754_finite false mz ez) (k * S200)).
    { exists mz, ez. repeat split; try lia. unfold S200. symmetry.
      exact Evz. }
    destruct (floor_fnorm undef_int _ _ _ _ Hf) as (k' & _ & Ek & Hk' & Fk);
      [lia | lia |].
    rewrite Ek. nia.
  - (* it is not: the rounding error is smaller than the distance to the
       next whole number *)
    destruct (div_fnorm _ _ _ _ _ _ _ _ Hx Hy) as (vz & Hz & D1 & D2);
      try lia.
    simpl Z.sub in Hz.
    destruct (floor_fnorm undef_int _ _ _ _ Hz) as (k' & _ & Ek & Hk' & Fk);
      [lia | lia |].
    rewrite Ek.
    assert (D1' : (U52 - 1) * (vz * b) <= U52 * (a * S200)).
    { apply SolverArith.le_cancel_r with (c := S200); [assumption|]. lia. }
    assert (D2' : U52 * (a * S200) <= (U52 + 1) * (vz * b)).
    { apply SolverArith.le_cancel_r with (c := S200); [assumption|]. lia. }
    assert (Hvz : 0 <= vz) by lia.
    (* k' <= k *)
    assert (Hup : (U52 - 1) * (k' * b) <= U52 * a).
    { apply SolverArith.le_cancel_r with (c := S200); [assumption|].
      assert ((U52 - 1) * ((k' * S200) * b) <= (U52 - 1) * (vz * b)).
      { apply Z.mul_le_mono_nonneg_l; [lia|].
        apply Z.mul_le_mono_nonneg_r; lia. }
      lia. }
    (* k <= k' *)
    assert (Hlo : U52 * a < (U52 + 1) * ((k' + 1) * b)).
    { apply SolverArith.lt_cancel_r with (c := S200); [assumption|].
      assert ((U52 + 1) * (vz * b) < (U52 + 1) * (((k' + 1) * S200) * b)).
      { apply Z.mul_lt_mono_pos_l; [lia|].
        apply Z.mul_lt_mono_pos_r; lia. }
      lia. }
    assert (Hk'b : 0 <= k' * b) by nia.
    assert (Hkb : 0 <= k * b) by nia.
    destruct (Z_lt_le_dec k k') as [Hgt | Hle1].
    { exfalso. assert ((k + 1) * b <= k' * b)
        by (apply Z.mul_le_mono_nonneg_r; lia).
      rewrite U52_val in Hup. lia. }
    destruct (Z_lt_le_dec k' k) as [Hlt | Hle2]; [|lia].
    exfalso. assert ((k' + 1) * b <= k * b)
      by (apply Z.mul_le_mono_nonneg_r; lia).
    rewrite U52_val in Hlo. lia.
Qed.
End Quotient.

End Quotients.

(** X1, [extractDPI].  For a file whose EXIF block gives both
    resolutions, with an X resolution of numerator and denominator below
    2^32 (what an unsigned TIFF rational holds) and a denominator other
    than 0,
    the DPI [extractDPI] returns is the integer quotient
    [numerator / denominator], exactly: the division in [float64] and the
    conversion back lose nothing.  The Y resolution has no part in the
    value. *)
Theorem extractDPI_is_integer_quotient
    (undef_int : float64 -> Z) (env : Env) (filePath : string) (w : World)
    (e : Exif) (xt yt : Tag) (xNum xDen yNum yDen : Z) :
  os_Open env filePath = None ->
  exif_Decode env filePath = inr e ->
  XResolution e = inr xt -> YResolution e = inr yt ->
  Rat2 xt = inr (xNum, xDen) -> Rat2 yt = inr (yNum, yDen) ->
  0 <= xNum < 2 ^ 32 -> 0 < xDen < 2 ^ 32 ->
  extractDPI undef_int env filePath w
  = Some (Done (xNum / xDen, None), logged w (EvOpen filePath)).
Proof.
  intros Ho Ee Ex Ey Rx Ry Hn Hd.
  rewrite (extractDPI_readable undef_int env filePath w e xt yt xNum xDen
             yNum yDen Ho Ee Ex Ey Rx Ry).
  rewrite Quotients.to_int_quotient by assumption. reflexivity.
Qed.

Lemma extractDPI_is_integer_quotient_witness :
  extractDPI indefinite sampleEnv "photo.png" initialWorld
  = Some (Done (300 / 1, None), logged initialWorld (EvOpen "photo.png")).
Proof.
  apply (extractDPI_is_integer_quotient indefinite sampleEnv "photo.png"
           initialWorld sampleExif {| Rat2 := inr (300, 1) |}
           {| Rat2 := inr (72, 1) |} 300 1 72 1);
    first [reflexivity | lia].
Defined.
